(** * A persistent priority task queue: SQLite task store and dispatcher

    Shallow embedding of [src/db.js] (the task store) and of the
    [QueueService] class (the dispatcher: [poll], [queueTask],
    [executeTask]), and the properties of the task lifecycle proved about
    them.

    Conventions.
    - SQLite INTEGER columns and JavaScript numbers are modelled as [Z]; the
      counters of this program start at 0 and grow by one, far below 2^53.
    - [CURRENT_TIMESTAMP] is the time supplied by the environment when a
      statement runs, a [Z] (seconds); SQLite keeps it as the text
      YYYY-MM-DD HH:MM:SS, which sorts as the time does.
    - A promise is modelled by its outcome: [Ok v] (fulfilled),
      [Throw message] (rejected with an [Error] carrying [message]) or
      [Reject reason] (rejected with [null] or [undefined]).
    - Every statement handed to the SQLite driver may be rejected by the
      driver (an I/O error); a rejected statement leaves the table
      unchanged. *)

From Stdlib Require Import Ascii.
From stdpp Require Import base decidable option numbers list strings pretty gmap sorting.

Open Scope string_scope.
Open Scope list_scope.
Open Scope Z_scope.

(** ** Data model: one row of the [tasks] table *)

Inductive task_status := pending | processing | completed | failed.

#[global] Instance task_status_eq_dec : EqDecision task_status.
Proof. solve_decision. Defined.

Record task := Task {
  id : Z;                         (* INTEGER PRIMARY KEY AUTOINCREMENT *)
  name : string;                  (* TEXT NOT NULL *)
  priority : Z;                   (* INTEGER NOT NULL DEFAULT 0 *)
  status : task_status;           (* TEXT NOT NULL DEFAULT 'pending' *)
  payload : option string;        (* TEXT, NULL allowed *)
  max_retries : Z;                (* INTEGER NOT NULL DEFAULT 3 *)
  retry_count : Z;                (* INTEGER NOT NULL DEFAULT 0 *)
  error_message : option string;  (* TEXT, NULL allowed *)
  created_at : Z;                 (* DATETIME DEFAULT CURRENT_TIMESTAMP *)
  updated_at : Z;                 (* DATETIME DEFAULT CURRENT_TIMESTAMP *)
  started_at : option Z;          (* DATETIME, NULL until set *)
  completed_at : option Z         (* DATETIME, NULL until set *)
}.

(** The table in rowid order, and the AUTOINCREMENT counter
    ([sqlite_sequence]): the largest id ever handed out. *)
Record database := Database {
  rows : list task;
  sequence : Z
}.

Definition empty_database : database := Database [] 0.

(** ** JavaScript values: payloads given to [addTask] and to handlers

    Task data: what JSON carries, and [undefined] and [NaN].  Numbers are
    the integer-valued ones; numbers with a fractional part, infinities,
    BigInt, symbols and functions are not represented. *)

#[warnings="-register-all"]
Inductive jsval :=
  | JUndefined
  | JNull
  | JBool (b : bool)
  | JNum (n : Z)                  (* an integer-valued number; 0 stands for +0 and -0 *)
  | JNaN
  | JStr (s : string)
  | JArr (items : list jsval)
  | JObj (fields : list (string * jsval)).

(** ToBoolean: the falsy values are undefined, null, false, 0, NaN and
    the empty string; arrays and objects are truthy. *)
Definition truthy (v : jsval) : bool :=
  match v with
  | JUndefined | JNull | JNaN => false
  | JBool b => b
  | JNum n => negb (bool_decide (n = 0))
  | JStr s => negb (bool_decide (s = ""))
  | JArr _ | JObj _ => true
  end.

(** A rejection reason that has no properties to read: [null], or
    [undefined] (the reason of [Promise.reject()]). *)
Inductive nullish := reason_null | reason_undefined.

(** Outcome of an awaited promise: fulfilled with a value; rejected
    with an [Error] that carries [message]; rejected with [null] or
    [undefined].  A call that throws is a promise that rejects with what
    was thrown.  Reasons of other kinds (a thrown string or number, an
    object whose [message] is no text) are not represented. *)
Inductive result (A : Type) :=
  | Ok (a : A)
  | Throw (message : string)
  | Reject (reason : nullish).
Arguments Ok {A} a.
Arguments Throw {A} message.
Arguments Reject {A} reason.

(** Message of the [TypeError] raised by reading [message] of [null] or
    of [undefined]. *)
Definition TypeError_message (reason : nullish) : string :=
  match reason with
  | reason_null => "Cannot read properties of null (reading 'message')"
  | reason_undefined => "Cannot read properties of undefined (reading 'message')"
  end.

(** ** The SQL statements of [db.js], as functions on the table *)

(** [UPDATE tasks SET ... WHERE id = k]. *)
Definition update_where (k : Z) (set : task → task) (d : database) : database :=
  Database ((λ t, if bool_decide (id t = k) then set t else t) <$> rows d)
           (sequence d).

(** [INSERT INTO tasks (name, priority, payload, max_retries, status)
    VALUES (?, ?, ?, ?, 'pending')]; the other columns take their
    defaults; the new row's id is the next value of the AUTOINCREMENT
    counter. *)
Definition sql_insert (now : Z) (n : string) (p : Z) (pl : option string) (m : Z)
    (d : database) : database :=
  let k := sequence d + 1 in
  Database (rows d ++ [Task k n p pending pl m 0 None now now None None]) k.

(** [WHERE status = 'pending' AND retry_count < max_retries] *)
Definition eligible (t : task) : Prop :=
  status t = pending ∧ retry_count t < max_retries t.

#[global] Instance eligible_dec t : Decision (eligible t).
Proof. unfold eligible. apply _. Defined.

(** [ORDER BY priority DESC, created_at ASC]: [t1] may stand before [t2]. *)
Definition poll_order (t1 t2 : task) : Prop :=
  priority t2 < priority t1 ∨
  (priority t1 = priority t2 ∧ created_at t1 ≤ created_at t2).

#[global] Instance poll_order_dec t1 t2 : Decision (poll_order t1 t2).
Proof. unfold poll_order. apply _. Defined.

(** [LIMIT n]: the first [n] rows; SQLite reads a negative [n] as "no
    upper bound". *)
Definition sql_limit {A} (n : Z) (l : list A) : list A :=
  if bool_decide (n < 0) then l else take (Z.to_nat n) l.

(** One row enters the rows sorted so far: before the first row that
    it may stand before. *)
Fixpoint sql_order_insert (t : task) (sorted : list task) : list task :=
  match sorted with
  | [] => [t]
  | x :: rest =>
      if decide (poll_order t x) then t :: sorted
      else x :: sql_order_insert t rest
  end.

(** [ORDER BY priority DESC, created_at ASC] over rows read in table
    order.  SQL leaves open the order of rows that agree on both sort
    keys; SQLite's sorter returns them in the order in which it read
    them, the order of the table. *)
Definition sql_order_by (l : list task) : list task :=
  foldr sql_order_insert [] l.

(** [SELECT * FROM tasks WHERE status = 'pending' AND retry_count <
    max_retries ORDER BY priority DESC, created_at ASC LIMIT ?] *)
Definition sql_select_pending (limit : Z) (d : database) : list task :=
  sql_limit limit (sql_order_by (filter eligible (rows d))).

(** [SELECT * FROM tasks WHERE id = ?] through [db.get]: the first
    matching row, [None] ([undefined]) when there is none. *)
Definition sql_select_by_id (k : Z) (d : database) : option task :=
  head (filter (λ t, id t = k) (rows d)).

(** [SET status = ?, error_message = ?, updated_at = CURRENT_TIMESTAMP] *)
Definition set_status (now : Z) (s : task_status) (e : option string) (t : task) : task :=
  {| id := id t; name := name t; priority := priority t;
     status := s;
     payload := payload t; max_retries := max_retries t;
     retry_count := retry_count t;
     error_message := e;
     created_at := created_at t;
     updated_at := now;
     started_at := started_at t; completed_at := completed_at t |}.

(** [SET status = 'processing', started_at = CURRENT_TIMESTAMP,
    updated_at = CURRENT_TIMESTAMP] *)
Definition set_started (now : Z) (t : task) : task :=
  {| id := id t; name := name t; priority := priority t;
     status := processing;
     payload := payload t; max_retries := max_retries t;
     retry_count := retry_count t; error_message := error_message t;
     created_at := created_at t;
     updated_at := now;
     started_at := Some now;
     completed_at := completed_at t |}.

(** [SET status = 'completed', completed_at = CURRENT_TIMESTAMP,
    updated_at = CURRENT_TIMESTAMP] *)
Definition set_completed (now : Z) (t : task) : task :=
  {| id := id t; name := name t; priority := priority t;
     status := completed;
     payload := payload t; max_retries := max_retries t;
     retry_count := retry_count t; error_message := error_message t;
     created_at := created_at t;
     updated_at := now;
     started_at := started_at t;
     completed_at := Some now |}.

(** [SET retry_count = retry_count + 1, status = 'pending',
    error_message = ?, updated_at = CURRENT_TIMESTAMP] *)
Definition set_retry (now : Z) (e : option string) (t : task) : task :=
  {| id := id t; name := name t; priority := priority t;
     status := pending;
     payload := payload t; max_retries := max_retries t;
     retry_count := retry_count t + 1;
     error_message := e;
     created_at := created_at t;
     updated_at := now;
     started_at := started_at t; completed_at := completed_at t |}.

(** [SET status = 'failed', error_message = ?, updated_at =
    CURRENT_TIMESTAMP] *)
Definition set_failed (now : Z) (e : option string) (t : task) : task :=
  set_status now failed e t.

(** ** Built-ins of the JavaScript runtime

    [JSON.parse], [JSON.stringify] and the members of [Object.prototype]
    belong to the runtime, not to this repository: they are parameters of
    the development.  [JSON_parse s = None] stands for [JSON.parse]
    throwing a [SyntaxError], which it does on the empty text. *)
Class Runtime := {
  JSON_parse : string → option jsval;
  JSON_stringify : jsval → string;
  prototype_call : string → jsval → task → result unit;
  JSON_parse_empty : JSON_parse "" = None
}.

(** ** The environment of a run, and the monad of asynchronous code *)

(** What the environment decides about one statement handed to the
    driver: the value of [CURRENT_TIMESTAMP] when it runs, and whether
    the driver rejects it (with which message). *)
Record io_outcome := IO { now : Z; fault : option string }.

(** Calls into [db.js]. *)
Inductive db_call :=
  | call_addTask (n : string) (p : Z) (pl : jsval) (m : Z)
  | call_getPendingTasks (limit : Z)
  | call_getTask (k : Z)
  | call_markTaskStarted (k : Z)
  | call_markTaskCompleted (k : Z)
  | call_incrementRetryCount (k : Z) (e : option string)
  | call_markTaskFailed (k : Z) (e : option string).

(** Lines written with [console.log] and [console.error]. *)
Inductive console_line :=
  | log_found (n : nat)
  | error_polling (message : string)
  | log_processing (k : Z) (n : string) (p : Z)
  | log_completed (k : Z)
  | error_failed (k : Z) (message : string)
  | error_permanently_failed (k : Z) (retries : Z)
  | log_retry (k : Z) (retries : Z) (limit : Z).

(** What a run does that can be observed from outside. *)
Inductive event :=
  | Db (c : db_call)
  | Console (l : console_line)
  | Handler (n : string) (arg : jsval) (t : task).

Record world := World {
  db : database;
  io : nat → io_outcome;          (* the outcome of the n-th statement *)
  issued : nat;                   (* statements handed to the driver so far *)
  trace : list event              (* oldest first *)
}.

Definition M (A : Type) : Type := world → result A * world.

#[global] Instance M_ret : MRet M := λ A a w, (Ok a, w).

#[global] Instance M_bind : MBind M := λ A B f m w,
  match m w with
  | (Ok a, w') => f a w'
  | (Throw e, w') => (Throw e, w')
  | (Reject v, w') => (Reject v, w')
  end.

Definition throw {A} (message : string) : M A := λ w, (Throw message, w).

(** [try { m } catch (error) { h error.message }]: what [m] did to the
    world before it threw stays done.  Both [catch] blocks of the
    service read [error.message] before anything else; when [error] is
    [null] or [undefined] that read throws a [TypeError], and nothing of
    the block runs. *)
Definition try_catch {A} (m : M A) (h : string → M A) : M A := λ w,
  match m w with
  | (Ok a, w') => (Ok a, w')
  | (Throw e, w') => h e w'
  | (Reject v, w') => (Throw (TypeError_message v), w')
  end.

(** [await] of a promise whose outcome is [r]. *)
Definition await {A} (r : result A) : M A := λ w, (r, w).

Definition emit (e : event) : M unit := λ w,
  (Ok tt, World (db w) (io w) (issued w) (trace w ++ [e])).

Definition console (l : console_line) : M unit := emit (Console l).

(** *** The promise wrappers of [db.js] *)

(** [dbRun]: resolves with [lastID] (for this table, the AUTOINCREMENT
    counter), rejects with the driver's error. *)
Definition dbRun (stmt : Z → database → database) : M Z := λ w,
  let o := io w (issued w) in
  match fault o with
  | Some e => (Throw e, World (db w) (io w) (S (issued w)) (trace w))
  | None =>
      let d := stmt (now o) (db w) in
      (Ok (sequence d), World d (io w) (S (issued w)) (trace w))
  end.

(** [dbGet]: resolves with the row, [None] for [undefined]. *)
Definition dbGet (query : database → option task) : M (option task) := λ w,
  let o := io w (issued w) in
  match fault o with
  | Some e => (Throw e, World (db w) (io w) (S (issued w)) (trace w))
  | None => (Ok (query (db w)), World (db w) (io w) (S (issued w)) (trace w))
  end.

(** [dbAll]: resolves with the rows. *)
Definition dbAll (query : database → list task) : M (list task) := λ w,
  let o := io w (issued w) in
  match fault o with
  | Some e => (Throw e, World (db w) (io w) (S (issued w)) (trace w))
  | None => (Ok (query (db w)), World (db w) (io w) (S (issued w)) (trace w))
  end.

Section db_js.
Context `{Runtime}.

(** ** [db.js] *)

(** [addTask(name, priority = 0, payload = null, maxRetries = 3)]: an
    omitted ([None], [JUndefined]) argument takes its default; the payload
    is stored as [payload ? JSON.stringify(payload) : null]. *)
Definition addTask (n : string) (p : option Z) (pl : jsval) (m : option Z) : M Z :=
  let p := default 0 p in
  let pl := match pl with JUndefined => JNull | _ => pl end in
  let m := default 3 m in
  _ ← emit (Db (call_addTask n p pl m));
  dbRun (λ now, sql_insert now n p
                  (if truthy pl then Some (JSON_stringify pl) else None) m).

(** [getPendingTasks(limit = 10)] *)
Definition getPendingTasks (limit : option Z) : M (list task) :=
  let limit := default 10 limit in
  _ ← emit (Db (call_getPendingTasks limit));
  dbAll (sql_select_pending limit).

(** [getTask(taskId)] *)
Definition getTask (k : Z) : M (option task) :=
  _ ← emit (Db (call_getTask k));
  dbGet (sql_select_by_id k).

(** [markTaskStarted(taskId)] *)
Definition markTaskStarted (k : Z) : M Z :=
  _ ← emit (Db (call_markTaskStarted k));
  dbRun (λ now, update_where k (set_started now)).

(** [markTaskCompleted(taskId)] *)
Definition markTaskCompleted (k : Z) : M Z :=
  _ ← emit (Db (call_markTaskCompleted k));
  dbRun (λ now, update_where k (set_completed now)).

(** Message of the [TypeError] raised by reading [retry_count] of
    [undefined]. *)
Definition TypeError_retry_count : string :=
  "Cannot read properties of undefined (reading 'retry_count')".

(** [incrementRetryCount(taskId, errorMessage = null)]: the [UPDATE],
    then [getTask] and its [retry_count]. *)
Definition incrementRetryCount (k : Z) (e : option string) : M Z :=
  _ ← emit (Db (call_incrementRetryCount k e));
  _ ← dbRun (λ now, update_where k (set_retry now e));
  task ← getTask k;
  match task with
  | Some t => mret (retry_count t)
  | None => throw TypeError_retry_count
  end.

(** [markTaskFailed(taskId, errorMessage)] *)
Definition markTaskFailed (k : Z) (e : option string) : M Z :=
  _ ← emit (Db (call_markTaskFailed k e));
  dbRun (λ now, update_where k (set_failed now e)).

End db_js.

(** ** [QueueService]: the dispatcher *)

(** A handler: an async function of (payload, task) that returns,
    throws an [Error], or rejects with [null] or [undefined].  A handler
    whose promise never settles is not represented. *)
Definition handler : Type := jsval → task → result unit.

(** The property names every plain object inherits from
    [Object.prototype]; each one reads as a value that is not falsy. *)
Definition Object_prototype : list string :=
  [ "constructor"; "hasOwnProperty"; "isPrototypeOf"; "propertyIsEnumerable";
    "toLocaleString"; "toString"; "valueOf"; "__proto__";
    "__defineGetter__"; "__defineSetter__"; "__lookupGetter__";
    "__lookupSetter__" ].

(** What [this.taskHandlers[name]] reads: a handler stored by
    [registerHandler] (an own property), else a member inherited from
    [Object.prototype], else [undefined] ([None]). *)
Inductive property :=
  | Own (h : handler)
  | Inherited (key : string).

Definition get_handler (taskHandlers : gmap string handler) (n : string) : option property :=
  match taskHandlers !! n with
  | Some h => Some (Own h)
  | None => if bool_decide (n ∈ Object_prototype) then Some (Inherited n) else None
  end.

(** The state of the service that matters to the task lifecycle: the
    handlers, the running flag, and the jobs handed to p-queue that have
    not started yet (first in, first out: [queueTask] gives no priority to
    [queue.add]). *)
Record QueueService := Service {
  taskHandlers : gmap string handler;
  isRunning : bool;
  queue : list task
}.

Section queue_service.
Context `{Runtime}.

(** [handler(payload, task)], [handler] being what the lookup read. *)
Definition invoke (h : property) (arg : jsval) (t : task) : result unit :=
  match h with
  | Own f => f arg t
  | Inherited key => prototype_call key arg t
  end.

(** [await handler(payload, task)] *)
Definition call_handler (n : string) (h : property) (arg : jsval) (t : task) : M unit :=
  _ ← emit (Handler n arg t);
  await (invoke h arg t).

(** The payload handed to the handler: [null] when the stored payload is
    falsy (NULL or the empty text), else its parse, else, when
    [JSON.parse] throws, the stored text itself. *)
Definition parse_payload (t : task) : jsval :=
  match payload t with
  | Some s =>
      if truthy (JStr s) then
        match JSON_parse s with
        | Some v => v
        | None => JStr s
        end
      else JNull
  | None => JNull
  end.

(** The [catch] block of [executeTask]. *)
Definition on_error (t : task) (error : string) : M unit :=
  _ ← console (error_failed (id t) error);
  newRetryCount ← incrementRetryCount (id t) (Some error);
  if bool_decide (max_retries t ≤ newRetryCount) then
    _ ← markTaskFailed (id t) (Some error);
    console (error_permanently_failed (id t) newRetryCount)
  else
    console (log_retry (id t) newRetryCount (max_retries t)).

(** [executeTask(task)]; [t] is the row as [poll] read it. *)
Definition executeTask (hs : gmap string handler) (t : task) : M unit :=
  try_catch
    (_ ← markTaskStarted (id t);
     _ ← console (log_processing (id t) (name t) (priority t));
     match get_handler hs (name t) with
     | None => throw ("No handler registered for task type: " +:+ name t)
     | Some h =>
         _ ← call_handler (name t) h (parse_payload t) t;
         _ ← markTaskCompleted (id t);
         console (log_completed (id t))
     end)
    (on_error t).

(** [queueTask(task)]: one more job for p-queue. *)
Definition queueTask (s : QueueService) (t : task) : QueueService :=
  Service (taskHandlers s) (isRunning s) (queue s ++ [t]).

(** [poll()]: the timer that calls it again belongs to the scheduler. *)
Definition poll (s : QueueService) : M QueueService :=
  if isRunning s then
    try_catch
      (pendingTasks ← getPendingTasks (Some 10);
       if bool_decide (0 < length pendingTasks)%nat then
         _ ← console (log_found (length pendingTasks));
         mret (foldl queueTask s pendingTasks)
       else mret s)
      (λ error, _ ← console (error_polling error); mret s)
  else mret s.

(** *** A sequential schedule

    One job at a time (concurrency 1), the queue not being paused, and
    the next poll fires after the jobs of the previous one are done.  A
    job that rejects is an unhandled rejection: the run ends there. *)
Fixpoint drain (hs : gmap string handler) (jobs : list task) : M unit :=
  match jobs with
  | [] => mret tt
  | t :: jobs => _ ← executeTask hs t; drain hs jobs
  end.

Definition cycle (s : QueueService) : M QueueService :=
  s' ← poll s;
  _ ← drain (taskHandlers s') (queue s');
  mret (Service (taskHandlers s') (isRunning s') []).

Fixpoint cycles (n : nat) (s : QueueService) : M QueueService :=
  match n with
  | O => mret s
  | S n => s' ← cycle s; cycles n s'
  end.

End queue_service.

(** ** Interleaved executions

    [executeTask] gives control back at every [await]; polls and other
    executions run in between.  The system below has one transition per
    awaited step of the dispatcher.  The driver accepts every statement
    here. *)

(** Where an execution of [executeTask] stands. *)
Inductive point :=
  | at_handler                      (* markTaskStarted resolved; the lookup
                                       and the handler are next *)
  | at_complete                     (* the handler returned; markTaskCompleted
                                       is next *)
  | at_catch (e : string)           (* in the catch block; the UPDATE of
                                       incrementRetryCount is next *)
  | at_read (e : string)            (* the UPDATE is done; getTask is next *)
  | at_check (e : string) (n : Z).  (* newRetryCount is n; the comparison
                                       with task.max_retries is next *)

(** An execution: the row as [poll] read it, and the point reached. *)
Record execution := Execution { job : task; stands : point }.

Record system := System {
  store : database;
  waiting : list task;              (* jobs in p-queue, not started *)
  running : list execution          (* calls of executeTask in flight *)
}.

Definition initial : system := System empty_database [] [].

Inductive action :=
  | do_addTask (now : Z) (n : string) (p : option Z) (pl : jsval) (m : option Z)
  | do_poll                         (* getPendingTasks(10), queueTask each *)
  | do_start (now : Z)              (* the first waiting job starts:
                                       markTaskStarted *)
  | do_advance (i : nat) (now : Z). (* the i-th execution in flight goes on
                                       to its next await *)

Definition issues_statement (pt : point) : bool :=
  match pt with at_handler => false | _ => true end.

Section interleaving.
Context `{Runtime}.

(** The payload column [addTask] writes. *)
Definition stored_payload (pl : jsval) : option string :=
  let pl := match pl with JUndefined => JNull | _ => pl end in
  if truthy pl then Some (JSON_stringify pl) else None.

(** One execution goes on to its next await: the table after it, and the
    execution if it is not over.  An execution whose handler rejects with
    [null] or [undefined] is over at once: the first line of the [catch]
    block throws, and no statement follows. *)
Definition advance (hs : gmap string handler) (now : Z) (x : execution)
    (d : database) : database * option execution :=
  let t := job x in
  match stands x with
  | at_handler =>
      match get_handler hs (name t) with
      | None =>
          (d, Some (Execution t
                      (at_catch ("No handler registered for task type: " +:+ name t))))
      | Some h =>
          match invoke h (parse_payload t) t with
          | Ok _ => (d, Some (Execution t at_complete))
          | Throw e => (d, Some (Execution t (at_catch e)))
          | Reject _ => (d, None)
          end
      end
  | at_complete => (update_where (id t) (set_completed now) d, None)
  | at_catch e =>
      (update_where (id t) (set_retry now (Some e)) d, Some (Execution t (at_read e)))
  | at_read e =>
      match sql_select_by_id (id t) d with
      | Some r => (d, Some (Execution t (at_check e (retry_count r))))
      | None => (d, None)
      end
  | at_check e n =>
      if bool_decide (max_retries t ≤ n)
      then (update_where (id t) (set_failed now (Some e)) d, None)
      else (d, None)
  end.

Definition act (hs : gmap string handler) (a : action) (s : system) : option system :=
  match a with
  | do_addTask now n p pl m =>
      Some (System (sql_insert now n (default 0 p) (stored_payload pl)
                      (default 3 m) (store s))
                   (waiting s) (running s))
  | do_poll =>
      Some (System (store s) (waiting s ++ sql_select_pending 10 (store s))
                   (running s))
  | do_start now =>
      match waiting s with
      | [] => None
      | t :: q =>
          Some (System (update_where (id t) (set_started now) (store s)) q
                       (running s ++ [Execution t at_handler]))
      end
  | do_advance i now =>
      match running s !! i with
      | None => None
      | Some x =>
          let '(d, x') := advance hs now x (store s) in
          Some (System d (waiting s)
                       (take i (running s) ++ option_list x' ++ drop (S i) (running s)))
      end
  end.

Fixpoint run (hs : gmap string handler) (acts : list action) (s : system) : option system :=
  match acts with
  | [] => Some s
  | a :: acts =>
      match act hs a s with
      | Some s' => run hs acts s'
      | None => None
      end
  end.

(** The states the service can be in. *)
Definition reachable (hs : gmap string handler) (s : system) : Prop :=
  ∃ acts, run hs acts initial = Some s.

(** [settle] lets one execution go from the point after
    [markTaskStarted] to its end with nothing in between; statement
    number [k] reads the clock at [k].  This is what [executeTask] does to
    the table ([executeTask_uninterrupted]). *)
Fixpoint settle (hs : gmap string handler) (clock : nat → Z) (fuel k : nat)
    (x : execution) (d : database) : database :=
  match fuel with
  | O => d
  | S fuel =>
      match advance hs (clock k) x d with
      | (d', Some x') =>
          settle hs clock fuel (if issues_statement (stands x) then S k else k) x' d'
      | (d', None) => d'
      end
  end.

End interleaving.

(** ** Vocabulary of the statements *)

(** The world after [n] more statements and the events [evs]. *)
Definition after (w : world) (d : database) (n : nat) (evs : list event) : world :=
  World d (io w) (n + issued w) (trace w ++ evs).

(** [CURRENT_TIMESTAMP] of the [n]-th statement from now. *)
Definition time (w : world) (n : nat) : Z := now (io w (n + issued w)).

(** The driver accepts every statement from now on. *)
Definition healthy (w : world) : Prop :=
  ∀ n, fault (io w (n + issued w)) = None.

(** The events a run added to the trace. *)
Definition new_events (w w' : world) : list event :=
  drop (length (trace w)) (trace w').

Definition is_handler_event (ev : event) : bool :=
  match ev with Handler _ _ _ => true | _ => false end.

Definition is_failure_record (k : Z) (ev : event) : bool :=
  match ev with
  | Db (call_incrementRetryCount k' _) => bool_decide (k' = k)
  | _ => false
  end.

(** How many failures of task [k] a trace records: the calls of
    [incrementRetryCount] for it. *)
Definition recorded_failures (k : Z) (tr : list event) : nat :=
  length (filter (λ ev, is_failure_record k ev = true) tr).

(** The rows with priority [p] created at [c]: they tie in the order
    of the poll query. *)
Definition has_keys (p c : Z) (t : task) : Prop :=
  priority t = p ∧ created_at t = c.

#[global] Instance has_keys_dec p c t : Decision (has_keys p c t).
Proof. unfold has_keys. apply _. Defined.

(** [a] sorts strictly before [b]: higher priority, or equal priority
    and created earlier. *)
Definition strictly_before (a b : task) : Prop :=
  priority b < priority a ∨
  (priority a = priority b ∧ created_at a < created_at b).

(** What the [catch] block leaves in the table and in the trace, [r]
    being the row it found. *)
Definition on_error_world (t : task) (e : string) (r : task) (w : world) : world :=
  let c := retry_count r + 1 in
  let d1 := update_where (id t) (set_retry (time w 0) (Some e)) (db w) in
  if bool_decide (max_retries t ≤ c) then
    after w (update_where (id t) (set_failed (time w 2) (Some e)) d1) 3
      [ Console (error_failed (id t) e);
        Db (call_incrementRetryCount (id t) (Some e)); Db (call_getTask (id t));
        Db (call_markTaskFailed (id t) (Some e));
        Console (error_permanently_failed (id t) c) ]
  else
    after w d1 2
      [ Console (error_failed (id t) e);
        Db (call_incrementRetryCount (id t) (Some e)); Db (call_getTask (id t));
        Console (log_retry (id t) c (max_retries t)) ].

(** The row after a failed attempt claimed at [t0], recorded at [t1]
    and, at the limit, marked failed at [t2]. *)
Definition failed_attempt (t0 t1 t2 : Z) (e : string) (r : task) : task :=
  let r1 := set_retry t1 (Some e) (set_started t0 r) in
  if bool_decide (max_retries r ≤ retry_count r + 1)
  then set_failed t2 (Some e) r1 else r1.

(** An execution that ends with error [e] recorded against the task as
    a failed attempt: [executeTask] fulfils, the error is logged, and the
    row has one more retry, the error's message and the status that the
    retry limit dictates. *)
Definition recorded_as_failure (t r : task) (e : string) (w : world)
    (run : result unit * world) : Prop :=
  run.1 = Ok tt ∧
  Console (error_failed (id t) e) ∈ new_events w run.2 ∧
  Db (call_incrementRetryCount (id t) (Some e)) ∈ new_events w run.2 ∧
  ∃ r', sql_select_by_id (id t) (db run.2) = Some r' ∧
        retry_count r' = retry_count r + 1 ∧
        error_message r' = Some e ∧
        status r' =
          if bool_decide (max_retries t ≤ retry_count r + 1) then failed else pending.

(** What the [catch] block has done with the error [e] when the
    execution [run] is over.  [r] is the row of the task when the block
    starts and [n] the number of statements the execution issued before
    it; the block issues the UPDATE of [incrementRetryCount], its
    [getTask] and, at the retry limit, [markTaskFailed].  The error is
    logged and [incrementRetryCount] is called.  When the store rejects
    one of the three statements, [executeTask] rejects with that error
    and the row stays as the statements before it left it. *)
Definition caught (t r : task) (e : string) (w : world) (n : nat)
    (run : result unit * world) : Prop :=
  let recorded := set_retry (time w n) (Some e) r in
  Console (error_failed (id t) e) ∈ new_events w run.2 ∧
  Db (call_incrementRetryCount (id t) (Some e)) ∈ new_events w run.2 ∧
  match fault (io w (n + issued w)), fault (io w (S n + issued w)) with
  | Some e1, _ =>
      run.1 = Throw e1 ∧ sql_select_by_id (id t) (db run.2) = Some r
  | None, Some e1 =>
      run.1 = Throw e1 ∧ sql_select_by_id (id t) (db run.2) = Some recorded
  | None, None =>
      if bool_decide (max_retries t ≤ retry_count r + 1) then
        match fault (io w (S (S n) + issued w)) with
        | Some e1 =>
            run.1 = Throw e1 ∧
            sql_select_by_id (id t) (db run.2) = Some recorded
        | None =>
            run.1 = Ok tt ∧
            sql_select_by_id (id t) (db run.2)
            = Some (set_failed (time w (S (S n))) (Some e) recorded)
        end
      else
        run.1 = Ok tt ∧ sql_select_by_id (id t) (db run.2) = Some recorded
  end.

(** The calls of [db.js] that the [catch] block makes for task [k]
    with the message [e0]. *)
Definition catch_block_calls (k : Z) (e0 : string) : list db_call :=
  [ call_incrementRetryCount k (Some e0); call_getTask k;
    call_markTaskFailed k (Some e0) ].

Section vocabulary.
Context `{Runtime}.

(** The world once [markTaskStarted] has resolved and the "Processing"
    line is written. *)
Definition claimed (t : task) (w : world) : world :=
  after w (update_where (id t) (set_started (time w 0)) (db w)) 1
    [ Db (call_markTaskStarted (id t));
      Console (log_processing (id t) (name t) (priority t)) ].

(** ... and once the handler has been called. *)
Definition handled (t : task) (w : world) : world :=
  after w (update_where (id t) (set_started (time w 0)) (db w)) 1
    [ Db (call_markTaskStarted (id t));
      Console (log_processing (id t) (name t) (priority t));
      Handler (name t) (parse_payload t) t ].

(** One sequential run: a task of type [n] is added to an empty table
    and the service, with [h] registered for [n], goes through [c] poll
    cycles. *)
Definition single_task_run (n : string) (p : option Z) (pl : jsval) (m : Z)
    (h : handler) (c : nat) (o : nat → io_outcome) : result Z * world :=
  (k ← addTask n p pl (Some m);
   _ ← cycles c (Service {[ n := h ]} true []);
   mret k) (World empty_database o 0 []).

End vocabulary.

(** *** The invariant of the interleaved system *)

(** Execution [x] of task [k] stands between the UPDATE of
    [incrementRetryCount] and the end of the [catch] block, and any count
    it has read is [n]. *)
Definition recording (k n : Z) (x : execution) : Prop :=
  id (job x) = k ∧ ∃ e, stands x = at_read e ∨ stands x = at_check e n.

Record consistent (s : system) : Prop := Consistent {
  ids_issued : ∀ r, r ∈ rows (store s) → id r ≤ sequence (store s);
  ids_unique : NoDup (id <$> rows (store s));
  jobs_known :
    ∀ t, t ∈ waiting s ++ (job <$> running s) →
         ∃ r, r ∈ rows (store s) ∧ id r = id t ∧ max_retries r = max_retries t;
  pending_bounded :
    ∀ r, r ∈ rows (store s) → status r = pending → 0 ≤ max_retries r →
         retry_count r ≤ max_retries r ∨
         ∃ x, x ∈ running s ∧ recording (id r) (retry_count r) x
}.

(** A [SET] clause that leaves [id] and [max_retries] alone. *)
Definition keeps_identity (set : task → task) : Prop :=
  ∀ r, id (set r) = id r ∧ max_retries (set r) = max_retries r.

(** ** A runtime instance and data for the examples

    JSON texts are restricted to the scalars the examples use: [null],
    [true], [false] and decimal integers.  This [JSON.parse] rejects
    every other text and this [JSON.stringify] prints [null] for every
    other value; the theorems hold for every [Runtime]. *)

Fixpoint digits_value (acc : Z) (s : string) : option Z :=
  match s with
  | "" => Some acc
  | String c s =>
      let n := Z.of_N (Ascii.N_of_ascii c) in
      if bool_decide (48 ≤ n ≤ 57) then digits_value (10 * acc + (n - 48)) s
      else None
  end.

(** [0] or a numeral that does not start with [0]. *)
Definition natural_value (s : string) : option Z :=
  match s with
  | "" => None
  | "0" => Some 0
  | String "0"%char _ => None
  | _ => digits_value 0 s
  end.

Definition scalar_parse (s : string) : option jsval :=
  if bool_decide (s = "null") then Some JNull
  else if bool_decide (s = "true") then Some (JBool true)
  else if bool_decide (s = "false") then Some (JBool false)
  else match s with
       | String "-"%char s' => (λ n, JNum (- n)) <$> natural_value s'
       | _ => JNum <$> natural_value s
       end.

Definition scalar_stringify (v : jsval) : string :=
  match v with
  | JBool true => "true"
  | JBool false => "false"
  | JNum n => pretty n
  | _ => "null"
  end.

(** Calling a member of [Object.prototype] as a plain function:
    [Object(payload, task)] and [toString] return; the other members
    throw a [TypeError]. *)
Definition scalar_prototype_call (key : string) (arg : jsval) (t : task) : result unit :=
  if bool_decide (key = "constructor" ∨ key = "toString") then Ok tt
  else Throw "TypeError".

#[global] Instance scalar_runtime : Runtime := {|
  JSON_parse := scalar_parse;
  JSON_stringify := scalar_stringify;
  prototype_call := scalar_prototype_call;
  JSON_parse_empty := eq_refl
|}.

(** The driver accepts every statement; the clock advances by [step]
    seconds per statement. *)
Definition steady (step : Z) : nat → io_outcome :=
  λ n, IO (step * Z.of_nat n) None.

(** The driver rejects the first statement and accepts the others. *)
Definition busy_once : nat → io_outcome :=
  λ n, IO (10 * Z.of_nat n)
          (if bool_decide (n = 0%nat) then Some "SQLITE_BUSY: database is locked"
           else None).

(** A freshly inserted task of type [n] with [m] retries allowed. *)
Definition fresh_task (k : Z) (n : string) (p : Z) (m : Z) : task :=
  Task k n p pending (Some "7") m 0 None 0 0 None None.

(** A world whose table holds the rows [l]; no statement issued yet. *)
Definition world_of (l : list task) (o : nat → io_outcome) : world :=
  World (Database l (Z.of_nat (length l))) o 0 [].

Definition report_task : task := fresh_task 1 "report" 5 3.

(** A stored payload that is no JSON text. *)
Definition greeting_task : task :=
  Task 1 "report" 5 pending (Some "hello") 3 0 None 0 0 None None.

(** A stored payload that is the empty text. *)
Definition blank_task : task :=
  Task 1 "report" 5 pending (Some "") 3 0 None 0 0 None None.

(** Three tasks added within the same second with the same priority. *)
Definition burst : list task :=
  [ Task 1 "report" 5 pending None 3 0 None 7 7 None None;
    Task 2 "email" 5 pending None 3 0 None 7 7 None None;
    Task 3 "report" 5 pending None 3 0 None 7 7 None None ].

(** Three pending tasks: [urgent] and [later] share priority 100,
    [later] is created after [urgent]; [routine] has priority 50 and is
    the oldest. *)
Definition routine : task := Task 1 "report" 50 pending None 3 0 None 0 0 None None.
Definition urgent : task := Task 2 "report" 100 pending None 3 0 None 5 5 None None.
Definition later : task := Task 3 "report" 100 pending None 3 0 None 9 9 None None.

(** A handler that returns. *)
Definition quiet : handler := λ _ _, Ok tt.

(** A handler that rejects with [undefined]: what an async function
    that returns [Promise.reject()] does. *)
Definition silent : handler := λ _ _, Reject reason_undefined.

(** A handler that throws until the task has been retried twice. *)
Definition flaky : handler :=
  λ _ t, if bool_decide (retry_count t < 2) then Throw "boom" else Ok tt.

Definition flaky_service : QueueService := Service {[ "report" := flaky ]} true [].

(** [report_task] marked completed at time 0, and once more at time 10. *)
Definition completed_once : world :=
  (markTaskCompleted 1 (world_of [report_task] (steady 10))).2.

Definition completed_twice : world := (markTaskCompleted 1 completed_once).2.

(** One task with one retry allowed and no handler for it; two polls
    queue it twice before it starts. *)
Definition queued_twice : list action :=
  [ do_addTask 0 "report" (Some 5) (JNum 7) (Some 1);
    do_poll; do_poll;
    do_start 10; do_advance 0 10; do_advance 0 20; do_advance 0 30;
    do_advance 0 40;
    do_start 50; do_advance 0 50; do_advance 0 60 ].

(** One task, three retries allowed, no handler; two polls queue it
    twice and both executions are in flight together: each records its
    failure before the first one reads the count back. *)
Definition contended : list action :=
  [ do_addTask 0 "report" (Some 5) (JNum 7) None;
    do_poll; do_poll;
    do_start 10; do_start 20;
    do_advance 0 30; do_advance 1 30;
    do_advance 0 40;                (* the UPDATE of the first execution *)
    do_advance 1 50;                (* the UPDATE of the second execution *)
    do_advance 0 60 ].              (* the getTask of the first execution *)

(** One task, three retries allowed, no handler: one failed attempt
    from poll to requeue. *)
Definition retried_once : list action :=
  [ do_addTask 0 "report" (Some 5) (JNum 7) None;
    do_poll; do_start 10; do_advance 0 10; do_advance 0 20; do_advance 0 30;
    do_advance 0 40 ].

Definition retried_once_row : task :=
  Task 1 "report" 5 pending (Some "7") 3 1
    (Some "No handler registered for task type: report") 0 20 (Some 10) None.

Definition retried_once_state : system :=
  System (Database [retried_once_row] 1) [] [].

(** ** The rest of [db.js]

    [updateTaskStatus], [getStats] and [clearAllTasks] are exported for
    the clients of the store; the dispatcher does not call them, and the
    trace, which records what the dispatcher does, has no event for
    them. *)

(** [updateTaskStatus(taskId, status, errorMessage = null)], for the four
    statuses the column is documented to hold. *)
Definition updateTaskStatus (k : Z) (s : task_status) (e : option string) : M Z :=
  dbRun (λ now, update_where k (set_status now s e)).

(** The row of [getStats]: [total] is a count; the other columns are
    sums, NULL ([None]) when the table has no row. *)
Module Stats.
Record t := make {
  total : Z;
  pending : option Z;
  processing : option Z;
  completed : option Z;
  failed : option Z
}.
End Stats.

(** [SUM(x)] over the rows of a table: NULL when there is no row. *)
Definition sql_sum (xs : list Z) : option Z :=
  match xs with
  | [] => None
  | _ => Some (foldr Z.add 0 xs)
  end.

(** [CASE WHEN status = s THEN 1 ELSE 0 END] *)
Definition case_status (s : task_status) (t : task) : Z :=
  if bool_decide (status t = s) then 1 else 0.

(** [SELECT COUNT( * ) as total, SUM(CASE ...) as pending, ... FROM tasks]:
    an aggregate query without GROUP BY has exactly one row. *)
Definition sql_select_stats (d : database) : Stats.t :=
  Stats.make (Z.of_nat (length (rows d)))
    (sql_sum (case_status pending <$> rows d))
    (sql_sum (case_status processing <$> rows d))
    (sql_sum (case_status completed <$> rows d))
    (sql_sum (case_status failed <$> rows d)).

(** [dbGet] for a query whose row is not a task. *)
Definition dbGet_row {A} (query : database → option A) : M (option A) := λ w,
  let o := io w (issued w) in
  match fault o with
  | Some e => (Throw e, World (db w) (io w) (S (issued w)) (trace w))
  | None => (Ok (query (db w)), World (db w) (io w) (S (issued w)) (trace w))
  end.

(** [getStats()] *)
Definition getStats : M (option Stats.t) :=
  dbGet_row (λ d, Some (sql_select_stats d)).

(** [DELETE FROM tasks]: the rows go; the AUTOINCREMENT counter, kept in
    [sqlite_sequence], stays. *)
Definition sql_delete_all (d : database) : database := Database [] (sequence d).

(** [clearAllTasks()] *)
Definition clearAllTasks : M Z := dbRun (λ _, sql_delete_all).

(** *** Clients of the store

    A client calls the functions of [db.js] one after the other and
    goes on whether a call resolved or rejected. *)
Inductive request :=
  | request_call (c : db_call)
  | request_updateTaskStatus (k : Z) (s : task_status) (e : option string)
  | request_getStats
  | request_clearAllTasks.

Section clients.
Context `{Runtime}.

(** The world after one call. *)
Definition perform (r : request) (w : world) : world :=
  match r with
  | request_call (call_addTask n p pl m) => (addTask n (Some p) pl (Some m) w).2
  | request_call (call_getPendingTasks limit) => (getPendingTasks (Some limit) w).2
  | request_call (call_getTask k) => (getTask k w).2
  | request_call (call_markTaskStarted k) => (markTaskStarted k w).2
  | request_call (call_markTaskCompleted k) => (markTaskCompleted k w).2
  | request_call (call_incrementRetryCount k e) => (incrementRetryCount k e w).2
  | request_call (call_markTaskFailed k e) => (markTaskFailed k e w).2
  | request_updateTaskStatus k s e => (updateTaskStatus k s e w).2
  | request_getStats => (getStats w).2
  | request_clearAllTasks => (clearAllTasks w).2
  end.

Definition perform_all (rs : list request) (w : world) : world :=
  foldl (λ w r, perform r w) w rs.

End clients.

(** *** The two awaits of [incrementRetryCount]

    [await dbRun(sql, ...)] and [await getTask(taskId)] are two
    statements: control goes back to the event loop after the first one,
    and calls of other clients of the store can be served before the
    second. *)

(** The [UPDATE]. *)
Definition incrementRetryCount_update (k : Z) (e : option string) : M Z :=
  _ ← emit (Db (call_incrementRetryCount k e));
  dbRun (λ now, update_where k (set_retry now e)).

(** [const task = await getTask(taskId); return task.retry_count]. *)
Definition incrementRetryCount_read (k : Z) : M Z :=
  task ← getTask k;
  match task with
  | Some t => mret (retry_count t)
  | None => throw TypeError_retry_count
  end.

Section interleaved_increment.
Context `{Runtime}.

(** [incrementRetryCount] with the calls [rs] served between its two
    statements. *)
Definition incrementRetryCount_interleaved (k : Z) (e : option string)
    (rs : list request) : M Z := λ w,
  match incrementRetryCount_update k e w with
  | (Ok _, w1) => incrementRetryCount_read k (perform_all rs w1)
  | (Throw e1, w1) => (Throw e1, w1)
  | (Reject v, w1) => (Reject v, w1)
  end.

End interleaved_increment.

(** The primary key of the table: ids are unique, and none is beyond the
    AUTOINCREMENT counter. *)
Definition primary_key (d : database) : Prop :=
  NoDup (id <$> rows d) ∧ ∀ r, r ∈ rows d → id r ≤ sequence d.

(** [r'] is the task [r], with what the store never rewrites: the
    columns given to [addTask], the id and the creation time. *)
Definition same_task (r r' : task) : Prop :=
  id r' = id r ∧ name r' = name r ∧ priority r' = priority r ∧
  payload r' = payload r ∧ max_retries r' = max_retries r ∧
  created_at r' = created_at r.

(** How many rows have status [s]. *)
Definition count_status (s : task_status) (d : database) : Z :=
  Z.of_nat (length (filter (λ t, status t = s) (rows d))).

(** A [SET] clause of [db.js]: it leaves the task what it is and does
    not lower its retry count. *)
Definition keeps_task (set : task → task) : Prop :=
  ∀ r, same_task r (set r) ∧ retry_count r ≤ retry_count (set r).

(** What one call can do to the table, whatever the driver does. *)
Inductive table_step (d : database) : database → Prop :=
  | step_none : table_step d d
  | step_insert now n p pl m : table_step d (sql_insert now n p pl m d)
  | step_update k set : keeps_task set → table_step d (update_where k set d)
  | step_delete : table_step d (sql_delete_all d).

(** *** More invariants of the interleaved system *)

(** Execution [x] of task [k] has claimed the task and has not yet
    written what it ends with: it stands before the handler, before
    [markTaskCompleted], or at the start of the [catch] block. *)
Definition holding (k : Z) (x : execution) : Prop :=
  id (job x) = k ∧
  (stands x = at_handler ∨ stands x = at_complete ∨ ∃ e, stands x = at_catch e).

(** Every [processing] row is held by an execution in flight. *)
Definition processing_held (s : system) : Prop :=
  ∀ r, r ∈ rows (store s) → status r = processing →
       ∃ x, x ∈ running s ∧ holding (id r) x.

(** A row that no statement has touched since its insert. *)
Definition untouched (r : task) : Prop :=
  status r = pending ∧ retry_count r = 0 ∧ error_message r = None ∧
  updated_at r = created_at r ∧ started_at r = None ∧ completed_at r = None.

Record retries_accounted (s : system) : Prop := RetriesAccounted {
  retries_nonneg : ∀ r, r ∈ rows (store s) → 0 ≤ retry_count r;
  jobs_had_retries :
    ∀ t, t ∈ waiting s ++ (job <$> running s) → 0 < max_retries t;
  no_retries_untouched :
    ∀ r, r ∈ rows (store s) → max_retries r ≤ 0 → untouched r
}.

(** The calls of handlers among the events. *)
Definition handler_calls (evs : list event) : list event :=
  filter (λ ev, is_handler_event ev = true) evs.

(** The task's name reads a handler from the registry object. *)
Definition has_handler (hs : gmap string handler) (t : task) : Prop :=
  is_Some (get_handler hs (name t)).

#[global] Instance has_handler_dec hs t : Decision (has_handler hs t).
Proof. unfold has_handler. apply _. Defined.

Section handlers_that_reject.
Context `{Runtime}.

(** The handlers keep to the documented signature: one that rejects
    does so with an [Error]; none of those the registry reads rejects
    with [null] or [undefined]. *)
Definition rejects_with_errors (hs : gmap string handler) : Prop :=
  ∀ t h v, get_handler hs (name t) = Some h →
           invoke h (parse_payload t) t ≠ Reject v.

(** The handler that the registry reads for [t] rejects with [null] or
    [undefined] when it is given [t]. *)
Definition rejects_nullish (hs : gmap string handler) (t : task) : bool :=
  match get_handler hs (name t) with
  | Some h =>
      match invoke h (parse_payload t) t with
      | Reject _ => true
      | _ => false
      end
  | None => false
  end.

(** The jobs of a queue that get to run when they run one after the
    other: all of them up to and including the first whose handler
    rejects with [null] or [undefined]; that job rejects, and the run
    ends there. *)
Fixpoint started (hs : gmap string handler) (jobs : list task) : list task :=
  match jobs with
  | [] => []
  | t :: jobs => t :: (if rejects_nullish hs t then [] else started hs jobs)
  end.

End handlers_that_reject.

(** The record [t] that a job carries is a snapshot of the row [r]: the
    same task, read when its retry count was not larger. *)
Definition snapshot_of (t r : task) : Prop :=
  same_task t r ∧ retry_count t ≤ retry_count r.

(** Every job, queued or in flight, carries a snapshot of a row of the
    table. *)
Definition jobs_are_snapshots (s : system) : Prop :=
  ∀ t, t ∈ waiting s ++ (job <$> running s) →
       ∃ r, r ∈ rows (store s) ∧ snapshot_of t r.

(** *** What a computation may write

    [d'] is [d] with some of the rows whose id satisfies [P] rewritten by
    [SET] clauses that leave the task what it is: same number of rows,
    in the same places, and the same AUTOINCREMENT counter. *)
Definition only_rows (P : Z → Prop) (d d' : database) : Prop :=
  sequence d' = sequence d ∧
  Forall2 (λ r r', r' = r ∨
                   (P (id r) ∧ same_task r r' ∧ retry_count r ≤ retry_count r'))
    (rows d) (rows d').

(** A computation that writes to the rows with an id in [P] only,
    whatever the driver does and whether it returns or throws. *)
Definition confined {A} (P : Z → Prop) (m : M A) : Prop :=
  ∀ w, only_rows P (db w) (db (m w).2).

(** The id of a row that the poll query would return. *)
Definition pollable (d : database) (k : Z) : Prop :=
  ∃ r, r ∈ rows d ∧ id r = k ∧ eligible r.

(** ** The rest of [QueueService] *)

(** Lines written by the methods that manage the service. *)
Inductive service_line :=
  | log_registered (taskName : string)
  | log_already_running
  | log_started
  | log_not_running
  | log_stopped
  | log_paused.

(** [registerHandler(taskName, handler)]: the handler becomes a
    property of the registry object, and the line is written.  [None]
    stands for the one call this registry does not represent: the
    assignment to the name [__proto__] stores no property, it replaces
    the prototype of the registry object. *)
Definition registerHandler (s : QueueService) (taskName : string) (h : handler)
    : option (QueueService * list service_line) :=
  if bool_decide (taskName = "__proto__") then None
  else Some (Service (<[taskName := h]> (taskHandlers s)) (isRunning s) (queue s),
             [log_registered taskName]).

Section service_lifecycle.
Context `{Runtime}.

(** [start()]: the poll it launches is run to its end. *)
Definition start (s : QueueService) : M (QueueService * list service_line) :=
  if isRunning s then mret (s, [log_already_running])
  else
    s' ← poll (Service (taskHandlers s) true (queue s));
    mret (s', [log_started]).

(** [pause()] sets the flag [isPaused] of p-queue, whatever it was;
    while it is set the queue starts no job. *)
Definition pause (isPaused : bool) : bool * list service_line :=
  (true, [log_paused]).

(** [stop()], [isPaused] being the flag of the queue.  The running flag
    is cleared before the [await].  [await this.queue.onIdle()] lets the
    queued jobs run, one after the other, and [stop] goes on when none is
    left.  On a paused queue no job starts: with jobs waiting the promise
    of [onIdle] stays pending, and so does the promise of [stop], for
    which [None] stands; nothing is written after the [await]. *)
Definition stop (isPaused : bool) (s : QueueService)
    : M (QueueService * option (list service_line)) :=
  if negb (isRunning s) then mret (s, Some [log_not_running])
  else if isPaused && bool_decide (queue s ≠ []) then
    mret (Service (taskHandlers s) false (queue s), None)
  else
    _ ← drain (taskHandlers s) (queue s);
    mret (Service (taskHandlers s) false [], Some [log_stopped]).

End service_lifecycle.

(** ** More data for the examples *)

(** The world before anything is stored. *)
Definition blank_world : world := World empty_database (steady 10) 0 [].

(** The driver rejects statement number [i] and accepts the others. *)
Definition busy_at (i : nat) : nat → io_outcome :=
  λ n, IO (10 * Z.of_nat n)
          (if bool_decide (n = i) then Some "SQLITE_BUSY: database is locked"
           else None).

(** A client that adds two tasks, claims the first, clears the table
    and adds a third task. *)
Definition session : list request :=
  [ request_call (call_addTask "report" 5 (JNum 7) 3);
    request_call (call_addTask "email" 9 JNull 2);
    request_call (call_markTaskStarted 1);
    request_clearAllTasks;
    request_call (call_addTask "report" 1 JNull 3) ].

(** A client that claims task 1, records a failure of it and sets it
    to completed by hand. *)
Definition handling : list request :=
  [ request_call (call_markTaskStarted 1);
    request_call (call_incrementRetryCount 1 (Some "boom"));
    request_updateTaskStatus 1 completed None ].

Definition handled_row : task :=
  Task 1 "report" 5 completed (Some "7") 3 1 None 0 30 (Some 0) None.

(** A task with a single retry allowed. *)
Definition last_chance : task := fresh_task 1 "report" 5 1.

(** One task added, polled and claimed: its execution is in flight. *)
Definition claimed_once : list action :=
  [ do_addTask 0 "report" (Some 5) (JNum 7) None; do_poll; do_start 10 ].

Definition claimed_row : task :=
  Task 1 "report" 5 processing (Some "7") 3 0 None 0 10 (Some 10) None.

Definition claimed_state : system :=
  System (Database [claimed_row] 1) []
    [Execution (Task 1 "report" 5 pending (Some "7") 3 0 None 0 0 None None)
       at_handler].

(** One task added with no retry allowed, and two polls. *)
Definition never_polled : list action :=
  [ do_addTask 0 "report" (Some 5) (JNum 7) (Some 0); do_poll; do_poll ].

Definition never_polled_row : task :=
  Task 1 "report" 5 pending (Some "7") 0 0 None 0 0 None None.

Definition never_polled_state : system :=
  System (Database [never_polled_row] 1) [] [].

(** * Properties *)

(** ** The store *)

Lemma select_by_id_update_eq k set d :
  (∀ t, id (set t) = id t) →
  sql_select_by_id k (update_where k set d) = set <$> sql_select_by_id k d.
Proof.
  intros Hid. unfold sql_select_by_id, update_where. simpl.
  induction (rows d) as [|t l IH]; [done|].
  rewrite fmap_cons, !filter_cons.
  destruct (decide (id t = k)) as [Hk|Hk].
  - rewrite bool_decide_eq_true_2 by done.
    rewrite decide_True by (by rewrite Hid). done.
  - rewrite bool_decide_eq_false_2 by done.
    rewrite decide_False by done. done.
Qed.

Lemma select_by_id_update_ne k k' set d :
  (∀ t, id (set t) = id t) → k ≠ k' →
  sql_select_by_id k' (update_where k set d) = sql_select_by_id k' d.
Proof.
  intros Hid Hne. unfold sql_select_by_id, update_where. simpl.
  induction (rows d) as [|t l IH]; [done|].
  rewrite fmap_cons, !filter_cons.
  destruct (decide (id t = k)) as [Hk|Hk].
  - rewrite bool_decide_eq_true_2 by done.
    rewrite !decide_False by (rewrite ?Hid; congruence). done.
  - rewrite bool_decide_eq_false_2 by done.
    destruct (decide (id t = k')); [done|]. done.
Qed.

(** ** Running the monad when the driver accepts the statements *)

Ltac run_monad :=
  cbv [mbind M_bind mret M_ret emit console await throw try_catch
       dbRun dbGet dbAll after time]; simpl.

Lemma markTaskStarted_run k w :
  fault (io w (issued w)) = None →
  markTaskStarted k w =
    (Ok (sequence (db w)),
     after w (update_where k (set_started (time w 0)) (db w)) 1
       [Db (call_markTaskStarted k)]).
Proof. intros Hf. unfold markTaskStarted. run_monad. by rewrite Hf. Qed.

Lemma markTaskCompleted_run k w :
  fault (io w (issued w)) = None →
  markTaskCompleted k w =
    (Ok (sequence (db w)),
     after w (update_where k (set_completed (time w 0)) (db w)) 1
       [Db (call_markTaskCompleted k)]).
Proof. intros Hf. unfold markTaskCompleted. run_monad. by rewrite Hf. Qed.

Lemma markTaskFailed_run k e w :
  fault (io w (issued w)) = None →
  markTaskFailed k e w =
    (Ok (sequence (db w)),
     after w (update_where k (set_failed (time w 0) e) (db w)) 1
       [Db (call_markTaskFailed k e)]).
Proof. intros Hf. unfold markTaskFailed. run_monad. by rewrite Hf. Qed.

Lemma incrementRetryCount_run k e w r :
  fault (io w (issued w)) = None →
  fault (io w (S (issued w))) = None →
  sql_select_by_id k (db w) = Some r →
  incrementRetryCount k e w =
    (Ok (retry_count r + 1),
     after w (update_where k (set_retry (time w 0) e) (db w)) 2
       [Db (call_incrementRetryCount k e); Db (call_getTask k)]).
Proof.
  intros Hf0 Hf1 Hr. unfold incrementRetryCount, getTask. run_monad.
  rewrite Hf0. simpl. rewrite Hf1.
  rewrite select_by_id_update_eq by done. rewrite Hr. simpl.
  by rewrite <- (assoc_L (++)).
Qed.

Lemma healthy_at w n : healthy w → fault (io w (n + issued w)) = None.
Proof. intros Hw. apply Hw. Qed.

Lemma on_error_run t e w r :
  healthy w →
  sql_select_by_id (id t) (db w) = Some r →
  on_error t e w = (Ok tt, on_error_world t e r w).
Proof.
  intros Hw Hr. unfold on_error, on_error_world.
  pose proof (healthy_at w 0 Hw) as H0.
  pose proof (healthy_at w 1 Hw) as H1.
  pose proof (healthy_at w 2 Hw) as H2. simpl in H0, H1, H2.
  cbv [mbind M_bind console emit]. simpl.
  erewrite incrementRetryCount_run by (simpl; eauto).
  case_bool_decide.
  - rewrite markTaskFailed_run by done.
    unfold after, time. simpl. by rewrite <- !(assoc_L (++)).
  - unfold after, time. simpl. by rewrite <- !(assoc_L (++)).
Qed.

Section execute_task_runs.
Context `{Runtime}.

Lemma executeTask_no_handler hs t w :
  fault (io w (issued w)) = None →
  get_handler hs (name t) = None →
  executeTask hs t w =
    on_error t ("No handler registered for task type: " +:+ name t) (claimed t w).
Proof.
  intros Hf Hh. unfold executeTask, try_catch.
  cbv [mbind M_bind]. rewrite markTaskStarted_run by done.
  cbv [console emit]. simpl. rewrite Hh. unfold throw, claimed, after. simpl.
  by rewrite <- !(assoc_L (++)).
Qed.

Lemma executeTask_handler_throws hs t w h e :
  fault (io w (issued w)) = None →
  get_handler hs (name t) = Some h →
  invoke h (parse_payload t) t = Throw e →
  executeTask hs t w = on_error t e (handled t w).
Proof.
  intros Hf Hh He. unfold executeTask, try_catch, call_handler.
  cbv [mbind M_bind]. rewrite markTaskStarted_run by done.
  cbv [console emit await]. simpl. rewrite Hh, He. unfold handled, after. simpl.
  by rewrite <- !(assoc_L (++)).
Qed.

Lemma executeTask_handler_returns hs t w h :
  fault (io w (issued w)) = None →
  fault (io w (S (issued w))) = None →
  get_handler hs (name t) = Some h →
  invoke h (parse_payload t) t = Ok tt →
  executeTask hs t w =
    (Ok tt,
     after w (update_where (id t) (set_completed (time w 1))
                (update_where (id t) (set_started (time w 0)) (db w))) 2
       [ Db (call_markTaskStarted (id t));
         Console (log_processing (id t) (name t) (priority t));
         Handler (name t) (parse_payload t) t;
         Db (call_markTaskCompleted (id t));
         Console (log_completed (id t)) ]).
Proof.
  intros Hf0 Hf1 Hh He. unfold executeTask, try_catch, call_handler.
  cbv [mbind M_bind]. rewrite markTaskStarted_run by done.
  cbv [console emit await]. simpl. rewrite Hh, He.
  rewrite markTaskCompleted_run by done. unfold after, time. simpl.
  by rewrite <- !(assoc_L (++)).
Qed.

(** The handler rejects with [null] or [undefined]: the [catch] block
    throws at its first line, reading [error.message]. *)
Lemma executeTask_handler_rejects hs t w h v :
  fault (io w (issued w)) = None →
  get_handler hs (name t) = Some h →
  invoke h (parse_payload t) t = Reject v →
  executeTask hs t w = (Throw (TypeError_message v), handled t w).
Proof.
  intros Hf Hh He. unfold executeTask, try_catch, call_handler.
  cbv [mbind M_bind]. rewrite markTaskStarted_run by done.
  cbv [console emit await]. simpl. rewrite Hh, He. unfold handled, after. simpl.
  by rewrite <- !(assoc_L (++)).
Qed.

(** [markTaskStarted] rejects: control goes to the [catch] block. *)
Lemma executeTask_claim_rejected hs t w e :
  fault (io w (issued w)) = Some e →
  executeTask hs t w =
    on_error t e (after w (db w) 1 [Db (call_markTaskStarted (id t))]).
Proof.
  intros Hf. unfold executeTask, try_catch, markTaskStarted.
  cbv [mbind M_bind emit dbRun]. simpl. by rewrite Hf.
Qed.

(** [markTaskCompleted] rejects after the handler returned: control goes
    to the [catch] block as well. *)
Lemma executeTask_complete_rejected hs t w h e :
  fault (io w (issued w)) = None →
  fault (io w (S (issued w))) = Some e →
  get_handler hs (name t) = Some h →
  invoke h (parse_payload t) t = Ok tt →
  executeTask hs t w =
    on_error t e
      (after w (update_where (id t) (set_started (time w 0)) (db w)) 2
         [ Db (call_markTaskStarted (id t));
           Console (log_processing (id t) (name t) (priority t));
           Handler (name t) (parse_payload t) t;
           Db (call_markTaskCompleted (id t)) ]).
Proof.
  intros Hf0 Hf1 Hh He. unfold executeTask, try_catch, call_handler.
  cbv [mbind M_bind]. rewrite markTaskStarted_run by done.
  cbv [console emit await]. simpl. rewrite Hh, He.
  unfold markTaskCompleted. cbv [mbind M_bind emit dbRun]. simpl.
  rewrite Hf1. unfold after, time. simpl.
  by rewrite <- !(assoc_L (++)).
Qed.

End execute_task_runs.

Lemma healthy_after w d n evs : healthy w → healthy (after w d n evs).
Proof.
  intros Hw m. unfold after. simpl.
  replace (m + (n + issued w))%nat with ((m + n) + issued w)%nat by lia.
  apply Hw.
Qed.

Lemma new_events_after_after w d n evs d' n' evs' :
  new_events w (after (after w d n evs) d' n' evs') = evs ++ evs'.
Proof.
  unfold new_events, after. simpl.
  by rewrite <- (assoc_L (++)), drop_app_length.
Qed.

(** The row of task [t] once the [catch] block is through: one more
    retry, the error's message, and [failed] or [pending] by the
    comparison of the new count with [t.max_retries]. *)
Lemma on_error_row t e r w :
  sql_select_by_id (id t) (db w) = Some r →
  ∃ r', sql_select_by_id (id t) (db (on_error_world t e r w)) = Some r' ∧
        retry_count r' = retry_count r + 1 ∧
        error_message r' = Some e ∧
        status r' =
          (if bool_decide (max_retries t ≤ retry_count r + 1) then failed else pending) ∧
        started_at r' = started_at r ∧ completed_at r' = completed_at r ∧
        max_retries r' = max_retries r.
Proof.
  intros Hr. unfold on_error_world. simpl. case_bool_decide; simpl.
  - rewrite !select_by_id_update_eq, Hr by done. simpl. eauto 10.
  - rewrite !select_by_id_update_eq, Hr by done. simpl. eauto 10.
Qed.

(** Rows of other tasks are not touched by the [catch] block. *)
Lemma on_error_other t e r w k :
  k ≠ id t →
  sql_select_by_id k (db (on_error_world t e r w)) = sql_select_by_id k (db w).
Proof.
  intros Hk. unfold on_error_world. simpl. case_bool_decide; simpl;
    by rewrite !select_by_id_update_ne by done.
Qed.

(** ** Missing handlers *)

Section missing_handler.
Context `{Runtime}.

(** C2, as amended: a task whose name reads no handler from the registry
    object fails like a task whose handler throws: [executeTask]
    fulfils, the table ends as it would had a registered handler thrown
    the same error, [incrementRetryCount] is called with the message, and
    [markTaskFailed] exactly when the new count has reached
    [max_retries].  The recorded message is "No handler registered for
    task type: " followed by the name (capital N). *)
Theorem missing_handler_is_execution_failure hs t r w :
  healthy w →
  sql_select_by_id (id t) (db w) = Some r →
  get_handler hs (name t) = None →
  let message := "No handler registered for task type: " +:+ name t in
  let run := executeTask hs t w in
  let run' := executeTask (<[name t := λ _ _, Throw message]> hs) t w in
  run.1 = Ok tt ∧
  run'.1 = run.1 ∧ db run'.2 = db run.2 ∧
  Db (call_incrementRetryCount (id t) (Some message)) ∈ new_events w run.2 ∧
  (Db (call_markTaskFailed (id t) (Some message)) ∈ new_events w run.2
     ↔ max_retries t ≤ retry_count r + 1) ∧
  ∃ r', sql_select_by_id (id t) (db run.2) = Some r' ∧
        error_message r' = Some message ∧
        retry_count r' = retry_count r + 1 ∧
        status r' =
          if bool_decide (max_retries t ≤ retry_count r + 1) then failed else pending.
Proof.
  intros Hw Hr Hh message run run'.
  pose proof (healthy_at w 0 Hw) as Hf0. simpl in Hf0.
  set (r1 := set_started (time w 0) r).
  assert (Hc : sql_select_by_id (id t) (db (claimed t w)) = Some r1).
  { unfold claimed. simpl. by rewrite select_by_id_update_eq, Hr. }
  assert (Hrun : run = (Ok tt, on_error_world t message r1 (claimed t w))).
  { unfold run. rewrite executeTask_no_handler by done.
    apply on_error_run; [by apply healthy_after | done]. }
  assert (Hrun' : run' = (Ok tt, on_error_world t message r1 (handled t w))).
  { unfold run'.
    erewrite executeTask_handler_throws;
      [| done | unfold get_handler; by rewrite lookup_insert_eq | done ].
    apply on_error_run; [by apply healthy_after | done]. }
  rewrite Hrun, Hrun'. simpl.
  split; [done|]. split; [done|]. split.
  { unfold on_error_world, claimed, handled. by case_bool_decide. }
  split; [|split].
  - unfold on_error_world, claimed. case_bool_decide;
      rewrite new_events_after_after; set_solver.
  - unfold on_error_world, claimed. fold message.
    case_bool_decide as Hm; rewrite new_events_after_after.
    + split; [done|]. intros _. set_solver.
    + split; [|done]. intros Hin. exfalso.
      repeat (apply elem_of_cons in Hin as [Hin|Hin]; [discriminate|]).
      by apply elem_of_nil in Hin.
  - destruct (on_error_row t message r1 (claimed t w) Hc) as (r' & ? & ? & ? & ? & _).
    exists r'. done.
Qed.

End missing_handler.

(** A task of type [report] with no handler registered. *)
Lemma missing_handler_witness :
  (executeTask ∅ report_task (world_of [report_task] (steady 10))).1 = Ok tt.
Proof.
  apply (missing_handler_is_execution_failure ∅ report_task report_task
           (world_of [report_task] (steady 10))).
  - intros n. reflexivity.
  - reflexivity.
  - reflexivity.
Defined.

(** C2 as stated fails: the message that is recorded starts with a
    capital letter. *)
Lemma missing_handler_message_counterexample :
  get_handler ∅ (name report_task) = None ∧
  error_message <$>
    sql_select_by_id 1 (db (executeTask ∅ report_task
                              (world_of [report_task] (steady 10))).2)
  = Some (Some "No handler registered for task type: report") ∧
  "No handler registered for task type: report"
  ≠ "no handler registered for task type: report".
Proof. split; [reflexivity|]. split; [reflexivity|]. discriminate. Qed.

(** A name inherited from [Object.prototype] reads a value that is not
    falsy, so no "No handler" error is thrown for it: with the example
    runtime a task named [constructor] is completed without any handler
    registered. *)
Example inherited_name_is_not_missing :
  get_handler ∅ "constructor" = Some (Inherited "constructor") ∧
  status <$> sql_select_by_id 1
    (db (executeTask ∅ (fresh_task 1 "constructor" 5 3)
           (world_of [fresh_task 1 "constructor" 5 3] (steady 10))).2)
  = Some completed.
Proof. split; vm_compute; reflexivity. Qed.

(** ** Timestamps written by the ledger *)

(** C3, as amended: [markTaskStarted] writes [started_at] on every call:
    whatever the column held, the row ends [processing] with
    [started_at] equal to the timestamp of this call, so a task claimed
    again after a failed attempt carries the time of its latest claim. *)
Theorem markTaskStarted_sets_started_at k w r :
  fault (io w (issued w)) = None →
  sql_select_by_id k (db w) = Some r →
  let run := markTaskStarted k w in
  (∃ n, run.1 = Ok n) ∧
  sql_select_by_id k (db run.2) = Some (set_started (time w 0) r) ∧
  status (set_started (time w 0) r) = processing ∧
  started_at (set_started (time w 0) r) = Some (time w 0) ∧
  (started_at (set_started (time w 0) r) = started_at r
     ↔ started_at r = Some (time w 0)).
Proof.
  intros Hf Hr run. unfold run. rewrite markTaskStarted_run by done. simpl.
  split; [eauto|]. split; [by rewrite select_by_id_update_eq, Hr|done].
Qed.

(** A first claim, at time 0. *)
Lemma markTaskStarted_witness :
  sql_select_by_id 1
    (db (markTaskStarted 1 (world_of [report_task] (steady 10))).2)
  = Some (set_started 0 report_task).
Proof.
  apply (markTaskStarted_sets_started_at 1 (world_of [report_task] (steady 10))
           report_task); reflexivity.
Defined.

(** C3 as stated fails: first claim at time 10, the attempt fails and
    the task is requeued, second claim at time 50; [started_at] is then
    50, not 10. *)
Lemma started_at_counterexample :
  (started_at <$> sql_select_by_id 1
     (db (cycles 1 flaky_service (world_of [report_task] (steady 10))).2)
   = Some (Some 10)) ∧
  (status <$> sql_select_by_id 1
     (db (cycles 1 flaky_service (world_of [report_task] (steady 10))).2)
   = Some pending) ∧
  (started_at <$> sql_select_by_id 1
     (db (cycles 2 flaky_service (world_of [report_task] (steady 10))).2)
   = Some (Some 50)).
Proof. repeat split; vm_compute; reflexivity. Qed.

(** C4, as amended: [markTaskCompleted] writes [completed_at] on every
    call, whatever the status of the row: the row ends [completed] with
    [completed_at] equal to the timestamp of this call.  A second call on
    a completed task keeps [completed_at] only when both calls read the
    same timestamp. *)
Theorem markTaskCompleted_sets_completed_at k w r :
  fault (io w (issued w)) = None →
  sql_select_by_id k (db w) = Some r →
  let run := markTaskCompleted k w in
  (∃ n, run.1 = Ok n) ∧
  sql_select_by_id k (db run.2) = Some (set_completed (time w 0) r) ∧
  status (set_completed (time w 0) r) = completed ∧
  completed_at (set_completed (time w 0) r) = Some (time w 0) ∧
  (completed_at (set_completed (time w 0) r) = completed_at r
     ↔ completed_at r = Some (time w 0)).
Proof.
  intros Hf Hr run. unfold run. rewrite markTaskCompleted_run by done. simpl.
  split; [eauto|]. split; [by rewrite select_by_id_update_eq, Hr|done].
Qed.

(** A first completion, at time 0. *)
Lemma markTaskCompleted_witness :
  sql_select_by_id 1
    (db (markTaskCompleted 1 (world_of [report_task] (steady 10))).2)
  = Some (set_completed 0 report_task).
Proof.
  apply (markTaskCompleted_sets_completed_at 1
           (world_of [report_task] (steady 10)) report_task); reflexivity.
Defined.

(** C4 as stated fails: a task completed at time 0 and marked completed
    again at time 10 ends with [completed_at] 10. *)
Lemma completed_at_counterexample :
  (status <$> sql_select_by_id 1 (db completed_once) = Some completed) ∧
  (completed_at <$> sql_select_by_id 1 (db completed_once) = Some (Some 0)) ∧
  (completed_at <$> sql_select_by_id 1 (db completed_twice) = Some (Some 10)).
Proof. repeat split; vm_compute; reflexivity. Qed.

(** ** Retry accounting in the store *)

(** The table after [incrementRetryCount], whatever the driver does: the
    [UPDATE] is the only statement that writes. *)
Lemma incrementRetryCount_all_or_nothing k e w :
  db (incrementRetryCount k e w).2 = db w ∨
  db (incrementRetryCount k e w).2 = update_where k (set_retry (time w 0) e) (db w).
Proof.
  unfold incrementRetryCount, getTask. run_monad.
  destruct (fault (io w (issued w))); simpl; [by left|].
  destruct (fault (io w (S (issued w)))); simpl; [by right|].
  destruct (sql_select_by_id _ _); by right.
Qed.

(** ** The poll query *)

#[global] Instance poll_order_total : Total poll_order.
Proof. intros a b. unfold poll_order. lia. Qed.

#[global] Instance poll_order_trans : Transitive poll_order.
Proof. intros a b c. unfold poll_order. lia. Qed.

Lemma strictly_before_not_after a b : strictly_before a b → ¬ poll_order b a.
Proof. unfold strictly_before, poll_order. lia. Qed.

Lemma sql_limit_prefix {A} n (l : list A) : sql_limit n l `prefix_of` l.
Proof. unfold sql_limit. case_bool_decide; [done|apply prefix_take]. Qed.

Lemma sql_limit_length {A} n (l : list A) :
  0 ≤ n → Z.of_nat (length (sql_limit n l)) ≤ n.
Proof.
  intros Hn. unfold sql_limit. rewrite bool_decide_eq_false_2 by lia.
  rewrite length_take. lia.
Qed.

Lemma StronglySorted_lookup {A} (R : relation A) l i j a b :
  StronglySorted R l → l !! i = Some a → l !! j = Some b → (i < j)%nat → R a b.
Proof.
  intros Hl. revert i j. induction Hl as [|x l Hl IH Hx]; intros i j Hi Hj Hij.
  - done.
  - destruct j as [|j]; [lia|]. destruct i as [|i]; simpl in *.
    + injection Hi as <-. eapply Forall_forall in Hx; [done|].
      by eapply list_elem_of_lookup_2.
    + apply (IH i j); [done..|lia].
Qed.

Lemma sql_order_insert_Permutation t l : sql_order_insert t l ≡ₚ t :: l.
Proof.
  induction l as [|x l IH]; simpl; [done|].
  destruct (decide (poll_order t x)); [done|].
  rewrite IH. apply Permutation_swap.
Qed.

Lemma sql_order_by_Permutation l : sql_order_by l ≡ₚ l.
Proof.
  induction l as [|t l IH]; simpl; [done|].
  by rewrite sql_order_insert_Permutation, IH.
Qed.

Lemma sql_order_insert_sorted t l :
  StronglySorted poll_order l → StronglySorted poll_order (sql_order_insert t l).
Proof.
  induction 1 as [|x l Hl IH Hx]; simpl; [by repeat constructor|].
  destruct (decide (poll_order t x)) as [Htx|Htx].
  - constructor; [by constructor|]. constructor; [done|].
    eapply Forall_impl; [done|]. intros y Hy. by trans x.
  - constructor; [done|].
    rewrite sql_order_insert_Permutation. constructor; [|done].
    by destruct (total poll_order t x).
Qed.

Lemma sql_order_by_sorted l : StronglySorted poll_order (sql_order_by l).
Proof.
  induction l as [|t l IH]; simpl; [constructor|].
  by apply sql_order_insert_sorted.
Qed.

(** The sort is stable: rows that tie keep the order they had. *)
Lemma sql_order_insert_stable p c t l :
  filter (has_keys p c) (sql_order_insert t l) = filter (has_keys p c) (t :: l).
Proof.
  induction l as [|x l IH]; simpl; [done|].
  destruct (decide (poll_order t x)) as [Htx|Htx]; [done|].
  rewrite filter_cons, IH, !filter_cons.
  destruct (decide (has_keys p c x)) as [[Hp Hc]|Hx]; [|done].
  destruct (decide (has_keys p c t)) as [[Hp' Hc']|Ht]; [|done].
  exfalso. apply Htx. unfold poll_order. lia.
Qed.

Lemma sql_order_by_stable p c l :
  filter (has_keys p c) (sql_order_by l) = filter (has_keys p c) l.
Proof.
  induction l as [|t l IH]; simpl; [done|].
  by rewrite sql_order_insert_stable, !filter_cons, IH.
Qed.

Lemma select_pending_sorted d :
  StronglySorted poll_order (sql_order_by (filter eligible (rows d))).
Proof. apply sql_order_by_sorted. Qed.

Lemma select_pending_elem d t :
  t ∈ sql_order_by (filter eligible (rows d)) ↔ t ∈ rows d ∧ eligible t.
Proof. rewrite sql_order_by_Permutation, list_elem_of_filter. tauto. Qed.

Lemma sql_limit_split {A} n (l : list A) :
  ∃ rest, sql_limit n l ++ rest = l ∧
          (n < 0 → rest = []) ∧
          (0 ≤ n → Z.of_nat (length (sql_limit n l)) = Z.min n (Z.of_nat (length l))).
Proof.
  unfold sql_limit. case_bool_decide.
  - exists []. rewrite (right_id_L [] (++)). split; [done|]. split; [done|lia].
  - exists (drop (Z.to_nat n) l). rewrite take_drop. split; [done|].
    split; [lia|]. intros _. rewrite length_take. lia.
Qed.

(** C6, as amended: the poll query resolves with the first rows, in
    the order of priority descending and, at equal priority, [created_at]
    ascending, of the rows of the table with status [pending] and
    [retry_count < max_retries]; rows that agree on both keys come in
    table order.  [batch] is what the query returns and [rest] what the
    limit cuts off.  For a limit [n >= 0] (10 when omitted) the batch has
    [n] rows, or all the eligible rows when there are fewer; a negative
    limit cuts nothing off.  Of two rows of the batch the one with the
    higher priority, or at equal priority the earlier [created_at],
    stands first; an eligible row that sorts strictly before a row of the
    batch is in the batch. *)
Theorem getPendingTasks_batch limit w :
  fault (io w (issued w)) = None →
  let n := default 10 limit in
  let candidates := filter eligible (rows (db w)) in
  ∃ batch rest,
    (getPendingTasks limit w).1 = Ok batch ∧
    batch ++ rest ≡ₚ candidates ∧
    StronglySorted poll_order (batch ++ rest) ∧
    (∀ p c, filter (has_keys p c) (batch ++ rest)
            = filter (has_keys p c) candidates) ∧
    (0 ≤ n → Z.of_nat (length batch) = Z.min n (Z.of_nat (length candidates))) ∧
    (n < 0 → rest = []) ∧
    (∀ t, t ∈ batch →
       t ∈ rows (db w) ∧ status t = pending ∧ retry_count t < max_retries t) ∧
    (∀ i j a b, batch !! i = Some a → batch !! j = Some b →
       strictly_before a b → (i < j)%nat) ∧
    (∀ a b, a ∈ rows (db w) → eligible a → b ∈ batch →
       strictly_before a b → a ∈ batch).
Proof.
  intros Hf n candidates.
  destruct (sql_limit_split n (sql_order_by candidates))
    as (rest & Hrest & Hneg & Hlen).
  exists (sql_select_pending n (db w)), rest.
  unfold getPendingTasks. run_monad. rewrite Hf. simpl.
  unfold sql_select_pending. fold candidates. fold n.
  pose proof (select_pending_sorted (db w)) as Hsorted. fold candidates in Hsorted.
  set (batch := sql_limit n (sql_order_by candidates)) in *.
  rewrite Hrest.
  split; [done|]. split; [apply sql_order_by_Permutation|].
  split; [done|]. split; [intros p c; apply sql_order_by_stable|].
  split; [by rewrite (Permutation_length (sql_order_by_Permutation candidates)) in Hlen|].
  split; [done|]. rewrite <- Hrest in Hsorted.
  split; [|split].
  - intros t Ht.
    assert (t ∈ sql_order_by candidates) as Hin
      by (rewrite <- Hrest; apply elem_of_app; by left).
    apply select_pending_elem in Hin as [? [? ?]]. done.
  - intros i j a b Hi Hj Hab.
    apply StronglySorted_app_1_l in Hsorted.
    destruct (decide (i < j)%nat) as [|Hij]; [done|]. exfalso.
    destruct (decide (i = j)) as [->|Hne].
    + assert (a = b) as -> by congruence.
      unfold strictly_before in Hab. lia.
    + apply (strictly_before_not_after a b Hab).
      apply (StronglySorted_lookup poll_order batch j i); [done..|lia].
  - intros a b Ha Hea Hb Hab.
    assert (a ∈ batch ++ rest) as Hin
      by (rewrite Hrest; by apply select_pending_elem).
    apply elem_of_app in Hin as [|Hin]; [done|]. exfalso.
    apply (strictly_before_not_after a b Hab).
    by apply (StronglySorted_app_1_elem_of poll_order batch rest).
Qed.

(** Three eligible rows and a limit of 2. *)
Lemma getPendingTasks_witness :
  ∃ batch rest,
    (getPendingTasks (Some 2) (world_of [routine; urgent; later] (steady 10))).1
    = Ok batch ∧
    batch ++ rest ≡ₚ filter eligible [routine; urgent; later] ∧
    (0 ≤ 2 → Z.of_nat (length batch)
             = Z.min 2 (Z.of_nat (length (filter eligible [routine; urgent; later])))).
Proof.
  destruct (getPendingTasks_batch (Some 2)
              (world_of [routine; urgent; later] (steady 10)))
    as (batch & rest & Hrun & Hperm & _ & _ & Hlen & _).
  - reflexivity.
  - exists batch, rest. split; [exact Hrun|]. split; [exact Hperm|exact Hlen].
Defined.

(** C6 as stated fails for a negative limit, which SQLite reads as "no
    limit": with the limit -1 the query returns three tasks, which is
    more than -1. *)
Lemma getPendingTasks_limit_counterexample :
  (getPendingTasks (Some (-1)) (world_of [routine; urgent; later] (steady 10))).1
  = Ok [urgent; later; routine] ∧
  ¬ (Z.of_nat (length [urgent; later; routine]) ≤ -1).
Proof. split; [vm_compute; reflexivity|]. simpl. lia. Qed.

(** Priority first, then age. *)
Example getPendingTasks_order :
  (getPendingTasks None (world_of [routine; urgent; later] (steady 10))).1
  = Ok [urgent; later; routine].
Proof. vm_compute. reflexivity. Qed.

(** Tasks that agree on priority and [created_at] come in table order. *)
Example getPendingTasks_ties :
  (getPendingTasks None (world_of burst (steady 10))).1 = Ok burst.
Proof. vm_compute. reflexivity. Qed.

(** ** Payloads *)

Section payloads.
Context `{Runtime}.

(** The [catch] block only adds to the trace, and calls no handler,
    whatever the driver does. *)
Lemma on_error_events t e w :
  ∃ evs, trace (on_error t e w).2 = trace w ++ evs ∧
         Forall (λ ev, is_handler_event ev = false) evs.
Proof.
  unfold on_error, incrementRetryCount, getTask, markTaskFailed. run_monad.
  destruct (fault (io w (issued w))); simpl;
    [eexists; split; [by rewrite <- !(assoc_L (++))|by repeat constructor]|].
  destruct (fault (io w (S (issued w)))); simpl;
    [eexists; split; [by rewrite <- !(assoc_L (++))|by repeat constructor]|].
  destruct (sql_select_by_id _ _); simpl;
    [|eexists; split; [by rewrite <- !(assoc_L (++))|by repeat constructor]].
  case_bool_decide; simpl;
    [|eexists; split; [by rewrite <- !(assoc_L (++))|by repeat constructor]].
  destruct (fault (io w (S (S (issued w))))); simpl;
    eexists; (split; [by rewrite <- !(assoc_L (++))|by repeat constructor]).
Qed.

(** Once the claim went through, a task whose name reads a handler has
    that handler called exactly once, with [parse_payload t] and the
    record [t] that [executeTask] was given. *)
Lemma executeTask_handler_event hs t w h :
  fault (io w (issued w)) = None →
  get_handler hs (name t) = Some h →
  filter (λ ev, is_handler_event ev = true) (new_events w (executeTask hs t w).2)
  = [Handler (name t) (parse_payload t) t].
Proof.
  intros Hf Hh.
  assert (∀ evs,
    Forall (λ ev, is_handler_event ev = false) evs →
    filter (λ ev, is_handler_event ev = true)
      (drop (length (trace w)) (trace (handled t w) ++ evs))
    = [Handler (name t) (parse_payload t) t]) as Hkey.
  { intros evs Hevs. unfold handled, after. simpl.
    rewrite <- (assoc_L (++)), drop_app_length. simpl.
    rewrite !filter_cons. simpl.
    f_equal. induction Hevs as [|ev evs Hev _ IH]; [done|].
    rewrite filter_cons, decide_False by congruence. done. }
  unfold new_events.
  destruct (invoke h (parse_payload t) t) as [[]|e|v] eqn:He.
  - destruct (fault (io w (S (issued w)))) as [e'|] eqn:Hf1.
    + erewrite executeTask_complete_rejected by done.
      destruct (on_error_events t e'
        (after w (update_where (id t) (set_started (time w 0)) (db w)) 2
           [ Db (call_markTaskStarted (id t));
             Console (log_processing (id t) (name t) (priority t));
             Handler (name t) (parse_payload t) t;
             Db (call_markTaskCompleted (id t)) ])) as (evs & -> & Hevs).
      unfold after at 1. cbn [trace].
      replace (trace w ++ _) with (trace (handled t w) ++ [Db (call_markTaskCompleted (id t))])
        by (unfold handled, after; simpl; by rewrite <- !(assoc_L (++))).
      rewrite <- (assoc_L (++)). apply Hkey. by constructor.
    + erewrite executeTask_handler_returns by done. cbn [snd].
      unfold after at 1. cbn [trace].
      replace (trace w ++ _)
        with (trace (handled t w) ++
              [Db (call_markTaskCompleted (id t)); Console (log_completed (id t))])
        by (unfold handled, after; simpl; by rewrite <- !(assoc_L (++))).
      apply Hkey. by repeat constructor.
  - erewrite executeTask_handler_throws by done.
    destruct (on_error_events t e (handled t w)) as (evs & -> & Hevs).
    by apply Hkey.
  - erewrite executeTask_handler_rejects by done. cbn [snd].
    rewrite <- (right_id_L [] (++) (trace (handled t w))). by apply Hkey.
Qed.

(** C9, as amended: once the claim went through, the handler of the
    task is called exactly once, with the record [executeTask] was given
    and with: the parsed value when the stored payload is a non-empty
    text that parses; the stored text itself when it is a non-empty text
    that does not parse; [null] when the stored payload is NULL or the
    empty text (which is not parsed at all). *)
Theorem handler_receives_parsed_or_raw_payload hs t w h :
  fault (io w (issued w)) = None →
  get_handler hs (name t) = Some h →
  filter (λ ev, is_handler_event ev = true) (new_events w (executeTask hs t w).2)
    = [Handler (name t) (parse_payload t) t] ∧
  (∀ s v, payload t = Some s → s ≠ "" → JSON_parse s = Some v →
          parse_payload t = v) ∧
  (∀ s, payload t = Some s → s ≠ "" → JSON_parse s = None →
        parse_payload t = JStr s) ∧
  (payload t = None ∨ payload t = Some "" → parse_payload t = JNull).
Proof.
  intros Hf Hh. split; [by eapply executeTask_handler_event|].
  unfold parse_payload. split; [|split].
  - intros s v -> Hs ->. simpl. by rewrite bool_decide_eq_false_2.
  - intros s -> Hs ->. simpl. by rewrite bool_decide_eq_false_2.
  - by intros [->| ->].
Qed.

Lemma truthy_default pl :
  truthy (match pl with JUndefined => JNull | _ => pl end) = truthy pl.
Proof. by destruct pl. Qed.

Lemma falsy_values pl :
  truthy pl = false ↔
  pl ∈ [JUndefined; JNull; JBool false; JNum 0; JNaN; JStr ""].
Proof.
  split.
  - destruct pl as [| |[]|n| |s| |]; simpl; try done; intros Hpl.
    + set_solver.
    + set_solver.
    + set_solver.
    + apply negb_false_iff, bool_decide_eq_true in Hpl as ->. set_solver.
    + set_solver.
    + apply negb_false_iff, bool_decide_eq_true in Hpl as ->. set_solver.
  - intros Hin.
    repeat (apply elem_of_cons in Hin as [->|Hin]; [done|]).
    by apply elem_of_nil in Hin.
Qed.

(** C10: [addTask] appends one pending row whose payload column is NULL
    when the payload argument is falsy (undefined, null, false, 0, NaN or
    the empty string) and its [JSON.stringify] text otherwise; a handler
    run on a row with a NULL payload is called with [null]. *)
Theorem addTask_stores_null_for_falsy_payload n p pl m w :
  fault (io w (issued w)) = None →
  let run := addTask n p pl m w in
  ∃ t,
    run.1 = Ok (id t) ∧
    rows (db run.2) = rows (db w) ++ [t] ∧
    name t = n ∧ status t = pending ∧
    payload t = (if truthy pl then Some (JSON_stringify pl) else None) ∧
    (truthy pl = false ↔
       pl ∈ [JUndefined; JNull; JBool false; JNum 0; JNaN; JStr ""]) ∧
    (truthy pl = false →
       payload t = None ∧ parse_payload t = JNull ∧
       ∀ hs h w',
         fault (io w' (issued w')) = None →
         get_handler hs (name t) = Some h →
         filter (λ ev, is_handler_event ev = true)
           (new_events w' (executeTask hs t w').2)
         = [Handler (name t) JNull t]).
Proof.
  intros Hf run. unfold run, addTask. run_monad. rewrite Hf. simpl.
  eexists (Task _ _ _ _ _ _ _ _ _ _ _ _).
  split; [reflexivity|]. split; [reflexivity|]. simpl.
  rewrite truthy_default.
  split; [done|]. split; [done|]. split.
  { destruct (truthy pl) eqn:Hpl; [|done]. by destruct pl. }
  split; [apply falsy_values|].
  intros ->. split; [done|]. split; [done|].
  intros hs h w' Hf' Hh.
  by erewrite executeTask_handler_event.
Qed.

End payloads.

(** A payload that is no JSON text reaches the handler as it is stored. *)
Lemma handler_payload_witness :
  filter (λ ev, is_handler_event ev = true)
    (new_events (world_of [greeting_task] (steady 10))
       (executeTask {[ "report" := quiet ]} greeting_task
          (world_of [greeting_task] (steady 10))).2)
  = [Handler "report" (parse_payload greeting_task) greeting_task].
Proof.
  apply (handler_receives_parsed_or_raw_payload {[ "report" := quiet ]}
           greeting_task (world_of [greeting_task] (steady 10)) (Own quiet));
    reflexivity.
Defined.

(** C9 as stated fails on the empty text: it does not parse, and the
    handler is called with [null], not with the stored text. *)
Lemma empty_payload_counterexample :
  JSON_parse "" = None ∧
  filter (λ ev, is_handler_event ev = true)
    (new_events (world_of [blank_task] (steady 10))
       (executeTask {[ "report" := quiet ]} blank_task
          (world_of [blank_task] (steady 10))).2)
  = [Handler "report" JNull blank_task] ∧
  JNull ≠ JStr "".
Proof. split; [reflexivity|]. split; [vm_compute; reflexivity|discriminate]. Qed.

(** [addTask("report", undefined, 0)]: the payload column is NULL. *)
Lemma addTask_witness :
  ∃ t, (addTask "report" None (JNum 0) None
          (World empty_database (steady 10) 0 [])).1 = Ok (id t) ∧
       payload t = None.
Proof.
  destruct (addTask_stores_null_for_falsy_payload "report" None (JNum 0) None
              (World empty_database (steady 10) 0 []))
    as (t & Hrun & _ & _ & _ & _ & _ & Hnull).
  - reflexivity.
  - exists t. split; [exact Hrun|]. apply Hnull. reflexivity.
Defined.

(** ** Store errors during an execution *)

(** The [catch] block, started after [n] statements of the execution,
    whatever the driver does to its statements. *)
Lemma on_error_caught t e r w n d evs :
  sql_select_by_id (id t) d = Some r →
  caught t r e w n (on_error t e (after w d n evs)).
Proof.
  intros Hr. unfold caught.
  assert (∀ ev evs' w',
    trace w' = trace w ++ evs ++ Console (error_failed (id t) e)
                 :: Db (call_incrementRetryCount (id t) (Some e)) :: evs' →
    ev ∈ [Console (error_failed (id t) e);
          Db (call_incrementRetryCount (id t) (Some e))] →
    ev ∈ new_events w w') as Hin.
  { intros ev evs' w' Htr Hev. unfold new_events. rewrite Htr, drop_app_length.
    apply elem_of_app. right. rewrite !elem_of_cons, elem_of_nil in Hev.
    rewrite !elem_of_cons. tauto. }
  unfold on_error, incrementRetryCount, getTask, markTaskFailed. run_monad.
  unfold time.
  destruct (fault (io w (n + issued w))) as [e1|] eqn:Hf0; simpl.
  { split; [eapply Hin; [simpl; by rewrite <- !(assoc_L (++))|by left]|].
    split; [eapply Hin; [simpl; by rewrite <- !(assoc_L (++))|right; by left]|].
    done. }
  destruct (fault (io w (S (n + issued w)))) as [e1|] eqn:Hf1; simpl.
  { split; [eapply Hin; [simpl; by rewrite <- !(assoc_L (++))|by left]|].
    split; [eapply Hin; [simpl; by rewrite <- !(assoc_L (++))|right; by left]|].
    split; [done|]. by rewrite select_by_id_update_eq, Hr. }
  rewrite select_by_id_update_eq, Hr by done. simpl.
  case_bool_decide; simpl.
  - destruct (fault (io w (S (S (n + issued w))))) as [e1|] eqn:Hf2; simpl.
    + split; [eapply Hin; [simpl; by rewrite <- !(assoc_L (++))|by left]|].
      split; [eapply Hin; [simpl; by rewrite <- !(assoc_L (++))|right; by left]|].
      split; [done|]. by rewrite select_by_id_update_eq, Hr.
    + split; [eapply Hin; [simpl; by rewrite <- !(assoc_L (++))|by left]|].
      split; [eapply Hin; [simpl; by rewrite <- !(assoc_L (++))|right; by left]|].
      split; [done|]. by rewrite !select_by_id_update_eq, Hr.
  - split; [eapply Hin; [simpl; by rewrite <- !(assoc_L (++))|by left]|].
    split; [eapply Hin; [simpl; by rewrite <- !(assoc_L (++))|right; by left]|].
    split; [done|]. by rewrite select_by_id_update_eq, Hr.
Qed.

Section store_errors.
Context `{Runtime}.

(** C8, as amended: a store error raised by [markTaskStarted], or by
    [markTaskCompleted] after the handler returned, is caught by the
    [catch] block of [executeTask] like a handler failure: it is logged
    and [incrementRetryCount] is called with its message.  When the
    store accepts the statements of the [catch] block, the row gets one
    more retry and the store error's message, and goes back to [pending],
    or to [failed] when the new count has reached [max_retries].  When
    the store rejects one of them too, [executeTask] rejects with that
    second error: the row is as the claim left it (untouched, or
    [processing]) if the UPDATE of [incrementRetryCount] was rejected,
    and [pending] with one more retry and the first error's message if
    its [getTask] or [markTaskFailed] was. *)
Theorem store_error_is_recorded_as_failure hs t r w e :
  sql_select_by_id (id t) (db w) = Some r →
  (fault (io w (issued w)) = Some e →
   caught t r e w 1 (executeTask hs t w)) ∧
  (∀ h,
     fault (io w (issued w)) = None →
     fault (io w (S (issued w))) = Some e →
     get_handler hs (name t) = Some h →
     invoke h (parse_payload t) t = Ok tt →
     caught t (set_started (time w 0) r) e w 2 (executeTask hs t w)) ∧
  (∀ r0 n run,
     caught t r0 e w n run →
     fault (io w (n + issued w)) = None →
     fault (io w (S n + issued w)) = None →
     fault (io w (S (S n) + issued w)) = None →
     recorded_as_failure t r0 e w run).
Proof.
  intros Hr. split; [|split].
  - intros Hf. rewrite (executeTask_claim_rejected hs t w e) by done.
    by apply on_error_caught.
  - intros h Hf0 Hf1 Hh Hok.
    erewrite executeTask_complete_rejected by done.
    apply on_error_caught. by rewrite select_by_id_update_eq, Hr.
  - intros r0 n run (Hlog & Hcall & Hrow) Hf0 Hf1 Hf2.
    rewrite Hf0, Hf1, Hf2 in Hrow. unfold recorded_as_failure.
    case_bool_decide; destruct Hrow as [-> ->]; repeat (split; [done|]);
      by eexists.
Qed.

End store_errors.

(** [markTaskStarted] is rejected once; the statements after it go through. *)
Lemma store_error_witness :
  recorded_as_failure report_task report_task "SQLITE_BUSY: database is locked"
    (world_of [report_task] busy_once)
    (executeTask ∅ report_task (world_of [report_task] busy_once)).
Proof.
  destruct (store_error_is_recorded_as_failure ∅ report_task report_task
              (world_of [report_task] busy_once)
              "SQLITE_BUSY: database is locked") as (Hclaim & _ & Hrec).
  - reflexivity.
  - apply (Hrec report_task 1%nat); [|reflexivity..].
    apply Hclaim. reflexivity.
Defined.

(** C8 as stated fails: [markTaskStarted] is rejected, and the task,
    which had no retry and no error message, ends with one retry and the
    store error as its message. *)
Lemma store_error_counterexample :
  (markTaskStarted 1 (world_of [report_task] busy_once)).1
  = Throw "SQLITE_BUSY: database is locked" ∧
  retry_count report_task = 0 ∧ error_message report_task = None ∧
  sql_select_by_id 1
    (db (executeTask ∅ report_task (world_of [report_task] busy_once)).2)
  = Some (Task 1 "report" 5 pending (Some "7") 3 1
            (Some "SQLITE_BUSY: database is locked") 0 10 None None).
Proof. repeat split; vm_compute; reflexivity. Qed.

(** ** Retries: failure, requeue, exhaustion *)

Lemma after_after w d n evs d' n' evs' :
  after (after w d n evs) d' n' evs' = after w d' (n' + n) (evs ++ evs').
Proof.
  unfold after. simpl. f_equal; [lia|by rewrite <- (assoc_L (++))].
Qed.

Lemma time_after w d n evs m : time (after w d n evs) m = time w (m + n).
Proof. unfold time, after. simpl. f_equal. f_equal. lia. Qed.

Lemma recorded_failures_app k tr1 tr2 :
  recorded_failures k (tr1 ++ tr2)
  = (recorded_failures k tr1 + recorded_failures k tr2)%nat.
Proof. unfold recorded_failures. by rewrite filter_app, length_app. Qed.

Lemma select_pending_single r q n :
  0 < n →
  sql_select_pending n (Database [r] q)
  = if decide (eligible r) then [r] else [].
Proof.
  intros Hn. unfold sql_select_pending, sql_limit. simpl.
  rewrite bool_decide_eq_false_2 by lia.
  rewrite filter_cons. destruct (decide (eligible r)); simpl.
  - destruct (Z.to_nat n) eqn:Hz; [lia|]. simpl. by rewrite take_nil.
  - by destruct (Z.to_nat n).
Qed.

Lemma select_by_id_single r q : sql_select_by_id (id r) (Database [r] q) = Some r.
Proof.
  unfold sql_select_by_id. cbn [rows]. by rewrite filter_cons, decide_True.
Qed.

Lemma update_where_single k r q set :
  id r = k → update_where k set (Database [r] q) = Database [set r] q.
Proof. intros Hk. unfold update_where. simpl. by rewrite bool_decide_eq_true_2. Qed.

Section sequential_runs.
Context `{Runtime}.

Lemma poll_run hs q w :
  fault (io w (issued w)) = None →
  poll (Service hs true q) w =
    let batch := sql_select_pending 10 (db w) in
    (Ok (foldl queueTask (Service hs true q) batch),
     after w (db w) 1
       (Db (call_getPendingTasks 10) ::
        if bool_decide (0 < length batch)%nat
        then [Console (log_found (length batch))] else [])).
Proof.
  intros Hf. unfold poll, getPendingTasks. run_monad. rewrite Hf. simpl.
  case_bool_decide as Hlen; simpl.
  - by rewrite <- (assoc_L (++)).
  - destruct (sql_select_pending 10 (db w)); [done|]. simpl in Hlen. lia.
Qed.

(** One cycle over a table that holds the single row [r]. *)
Lemma cycle_single_idle hs w r q :
  healthy w → db w = Database [r] q → ¬ eligible r →
  cycle (Service hs true []) w
  = (Ok (Service hs true []), after w (db w) 1 [Db (call_getPendingTasks 10)]).
Proof.
  intros Hw Hdb Hr. unfold cycle. cbv [mbind M_bind].
  rewrite poll_run by apply (healthy_at w 0 Hw).
  rewrite Hdb, select_pending_single, decide_False by done. simpl.
  by rewrite <- Hdb.
Qed.

Lemma cycle_single_fails hs w r q h e :
  healthy w → db w = Database [r] q → eligible r →
  get_handler hs (name r) = Some h →
  invoke h (parse_payload r) r = Throw e →
  ∃ n evs,
    cycle (Service hs true []) w
    = (Ok (Service hs true []),
       after w (Database [failed_attempt (time w 1) (time w 2) (time w 4) e r] q)
         n evs) ∧
    recorded_failures (id r) evs = 1%nat.
Proof.
  intros Hw Hdb Hr Hh He. unfold cycle. cbv [mbind M_bind].
  rewrite poll_run by apply (healthy_at w 0 Hw).
  rewrite Hdb, select_pending_single, decide_True by done. simpl.
  rewrite <- Hdb.
  set (w1 := after w _ 1 _).
  assert (healthy w1) as Hw1 by by apply healthy_after.
  cbv [mbind M_bind mret M_ret].
  erewrite executeTask_handler_throws;
    [|apply (healthy_at w1 0 Hw1)|done..].
  erewrite on_error_run;
    [|by apply healthy_after|
     unfold handled, w1; simpl;
     rewrite select_by_id_update_eq by done;
     by rewrite Hdb, select_by_id_single].
  simpl. unfold on_error_world, handled, w1, failed_attempt.
  change (retry_count (set_started _ r)) with (retry_count r).
  rewrite !time_after. cbn [db after].
  rewrite Hdb, !(update_where_single (id r)) by done.
  case_bool_decide; rewrite ?(update_where_single (id r)) by done;
    rewrite !after_after;
    do 2 eexists; (split; [reflexivity|]);
    unfold recorded_failures; rewrite !filter_app, !filter_cons; simpl;
    by rewrite bool_decide_eq_true_2.
Qed.

Lemma cycle_single_succeeds hs w r q h :
  healthy w → db w = Database [r] q → eligible r →
  get_handler hs (name r) = Some h →
  invoke h (parse_payload r) r = Ok tt →
  ∃ n evs,
    cycle (Service hs true []) w
    = (Ok (Service hs true []),
       after w (Database [set_completed (time w 2) (set_started (time w 1) r)] q)
         n evs) ∧
    recorded_failures (id r) evs = 0%nat.
Proof.
  intros Hw Hdb Hr Hh He. unfold cycle. cbv [mbind M_bind].
  rewrite poll_run by apply (healthy_at w 0 Hw).
  rewrite Hdb, select_pending_single, decide_True by done. simpl.
  rewrite <- Hdb.
  set (w1 := after w _ 1 _).
  assert (healthy w1) as Hw1 by by apply healthy_after.
  cbv [mbind M_bind mret M_ret].
  erewrite executeTask_handler_returns;
    [|apply (healthy_at w1 0 Hw1)|apply (healthy_at w1 1 Hw1)|done..].
  simpl. unfold w1. rewrite !time_after. cbn [db after].
  rewrite Hdb, !(update_where_single (id r)) by done.
  rewrite !after_after.
  do 2 eexists. split; [reflexivity|]. done.
Qed.

End sequential_runs.

Lemma failed_attempt_fields t0 t1 t2 e r :
  id (failed_attempt t0 t1 t2 e r) = id r ∧
  name (failed_attempt t0 t1 t2 e r) = name r ∧
  max_retries (failed_attempt t0 t1 t2 e r) = max_retries r ∧
  retry_count (failed_attempt t0 t1 t2 e r) = retry_count r + 1 ∧
  error_message (failed_attempt t0 t1 t2 e r) = Some e ∧
  status (failed_attempt t0 t1 t2 e r) =
    if bool_decide (max_retries r ≤ retry_count r + 1) then failed else pending.
Proof. unfold failed_attempt. by case_bool_decide. Qed.

Section retry_flows.
Context `{Runtime}.

Lemma cycles_idle hs r q c w :
  healthy w → db w = Database [r] q → ¬ eligible r →
  ∃ n evs,
    cycles c (Service hs true []) w
    = (Ok (Service hs true []), after w (db w) n evs) ∧
    recorded_failures (id r) evs = 0%nat.
Proof.
  revert w. induction c as [|c IH]; intros w Hw Hdb Hr.
  - exists 0%nat, []. split; [|done]. unfold after. simpl.
    rewrite (right_id_L [] (++)). by destruct w.
  - simpl. cbv [mbind M_bind].
    rewrite (cycle_single_idle hs w r q) by done.
    destruct (IH (after w (db w) 1 [Db (call_getPendingTasks 10)]))
      as (n & evs & -> & Hrec); [by apply healthy_after|done..|].
    rewrite after_after. do 2 eexists. split; [reflexivity|].
    by rewrite recorded_failures_app, Hrec.
Qed.

Lemma get_handler_singleton n (h : handler) :
  get_handler {[ n := h ]} n = Some (Own h).
Proof. unfold get_handler. by rewrite lookup_singleton_eq. Qed.

(** The run up to the first poll. *)
Lemma single_task_run_unfold n p pl m (h : handler) c o :
  (∀ k, fault (o k) = None) →
  ∃ r0 w1,
    single_task_run n p pl m h c o
    = (match cycles c (Service {[ n := h ]} true []) w1 with
       | (Ok _, w') => (Ok 1, w')
       | (Throw e, w') => (Throw e, w')
       | (Reject v, w') => (Reject v, w')
       end) ∧
    healthy w1 ∧ db w1 = Database [r0] 1 ∧
    recorded_failures 1 (trace w1) = 0%nat ∧
    id r0 = 1 ∧ name r0 = n ∧ max_retries r0 = m ∧ retry_count r0 = 0 ∧
    status r0 = pending.
Proof.
  intros Ho. unfold single_task_run, addTask. run_monad. rewrite Ho. simpl.
  eexists (Task _ _ _ _ _ _ _ _ _ _ _ _), _. split; [reflexivity|].
  split; [intros k; apply Ho|]. done.
Qed.





End retry_flows.


(** ** Interleaved executions: the invariant *)

Lemma elem_of_update_where k set d r' :
  r' ∈ rows (update_where k set d) ↔
  ∃ r, r ∈ rows d ∧ r' = if bool_decide (id r = k) then set r else r.
Proof.
  unfold update_where. simpl. rewrite list_elem_of_fmap.
  split; intros (r & ? & ?); eauto.
Qed.

Lemma ids_update_where k set d :
  keeps_identity set → id <$> rows (update_where k set d) = id <$> rows d.
Proof.
  intros Hset. unfold update_where. simpl. rewrite <- list_fmap_compose.
  apply list_fmap_ext. intros _ r _. simpl.
  case_bool_decide; [apply Hset|done].
Qed.

Lemma unique_row d r r' :
  NoDup (id <$> rows d) → r ∈ rows d → r' ∈ rows d → id r = id r' → r = r'.
Proof.
  intros Hnd [i Hi]%list_elem_of_lookup [j Hj]%list_elem_of_lookup Hid.
  assert (i = j) as ->.
  { apply (NoDup_lookup (id <$> rows d) i j (id r)); [done|..];
      rewrite list_lookup_fmap; [by rewrite Hi|by rewrite Hj, Hid]. }
  congruence.
Qed.

Lemma select_by_id_Some k d r :
  sql_select_by_id k d = Some r → r ∈ rows d ∧ id r = k.
Proof.
  unfold sql_select_by_id. intros Hr%head_Some_elem_of.
  apply list_elem_of_filter in Hr. tauto.
Qed.

Lemma select_by_id_None k d r :
  sql_select_by_id k d = None → r ∈ rows d → id r ≠ k.
Proof.
  unfold sql_select_by_id. intros Hnil%head_None Hr Hk.
  assert (r ∈ filter (λ t, id t = k) (rows d)) as Hin
    by (by apply list_elem_of_filter).
  rewrite Hnil in Hin. by apply elem_of_nil in Hin.
Qed.

Lemma select_pending_rows n d t :
  t ∈ sql_select_pending n d → t ∈ rows d ∧ eligible t.
Proof.
  unfold sql_select_pending. intros Ht. apply select_pending_elem.
  destruct (sql_limit_prefix n (sql_order_by (filter eligible (rows d))))
    as [rest ->].
  apply elem_of_app. by left.
Qed.

(** [store] changes by an [UPDATE ... WHERE id = k]: the first three
    parts of the invariant carry over. *)
Lemma consistent_update_where s k set q rn :
  keeps_identity set →
  consistent s →
  (∀ t, t ∈ q ++ (job <$> rn) → t ∈ waiting s ++ (job <$> running s)) →
  (∀ r, r ∈ rows (update_where k set (store s)) → status r = pending →
        0 ≤ max_retries r →
        retry_count r ≤ max_retries r ∨
        ∃ x, x ∈ rn ∧ recording (id r) (retry_count r) x) →
  consistent (System (update_where k set (store s)) q rn).
Proof.
  intros Hset [Hissued Hunique Hjobs _] Hsub Hpending.
  split; cbn [store waiting running]; [| |intros t Ht|done].
  - intros r' (r & Hr & ->)%elem_of_update_where.
    case_bool_decide; [rewrite (proj1 (Hset r))|]; by apply Hissued.
  - by rewrite ids_update_where.
  - destruct (Hjobs t (Hsub t Ht)) as (r & Hr & Hid & Hmax).
    exists (if bool_decide (id r = k) then set r else r).
    split; [apply elem_of_update_where; eauto|].
    case_bool_decide; [destruct (Hset r) as [-> ->]|]; done.
Qed.

Lemma running_cases (l : list execution) i x x0 :
  l !! i = Some x → x0 ∈ l → x0 = x ∨ x0 ∈ take i l ++ drop (S i) l.
Proof.
  intros Hi Hx0. rewrite <- (take_drop_middle l i x Hi) in Hx0.
  rewrite elem_of_app, elem_of_cons in Hx0. rewrite elem_of_app. tauto.
Qed.

Lemma running_others (l : list execution) i x' x0 :
  x0 ∈ take i l ++ drop (S i) l →
  x0 ∈ take i l ++ option_list x' ++ drop (S i) l.
Proof. rewrite !elem_of_app. tauto. Qed.

Lemma running_jobs (l : list execution) i x x' (q : list task) t :
  l !! i = Some x →
  (∀ y, x' = Some y → job y = job x) →
  t ∈ q ++ (job <$> take i l ++ option_list x' ++ drop (S i) l) →
  t ∈ q ++ (job <$> l).
Proof.
  intros Hi Hx'. rewrite <- (take_drop_middle l i x Hi) at 3.
  rewrite !fmap_app, !elem_of_app, fmap_cons, elem_of_cons.
  intros [?|[?|[Ht|?]]]; [tauto..| |tauto].
  destruct x' as [y|]; simpl in Ht.
  - apply list_elem_of_singleton in Ht as ->. rewrite (Hx' y); tauto.
  - by apply elem_of_nil in Ht.
Qed.

Lemma not_recording_handler k n x : stands x = at_handler → ¬ recording k n x.
Proof. intros Hx [_ [e [?|?]]]; congruence. Qed.

Lemma not_recording_complete k n x : stands x = at_complete → ¬ recording k n x.
Proof. intros Hx [_ [e [?|?]]]; congruence. Qed.

Lemma not_recording_catch k n x e : stands x = at_catch e → ¬ recording k n x.
Proof. intros Hx [_ [e' [?|?]]]; congruence. Qed.

Section interleaved_executions.
Context `{Runtime}.

Lemma consistent_initial : consistent initial.
Proof.
  split; simpl.
  - intros r Hr. by apply elem_of_nil in Hr.
  - constructor.
  - intros t Ht. by apply elem_of_nil in Ht.
  - intros r Hr. by apply elem_of_nil in Hr.
Qed.

Lemma consistent_addTask s now n p pl m :
  consistent s →
  consistent (System (sql_insert now n p pl m (store s)) (waiting s) (running s)).
Proof.
  intros [Hissued Hunique Hjobs Hpending].
  split; cbn [store waiting running sql_insert rows sequence].
  - intros r [Hr|Hr%list_elem_of_singleton]%elem_of_app.
    + apply Hissued in Hr. lia.
    + subst r. simpl. lia.
  - rewrite fmap_app. apply NoDup_app. split; [done|]. split.
    + intros k (r & -> & Hr)%list_elem_of_fmap Hk.
      apply list_elem_of_singleton in Hk. simpl in Hk.
      apply Hissued in Hr. lia.
    + apply NoDup_singleton.
  - intros t Ht. destruct (Hjobs t Ht) as (r & Hr & Hid).
    exists r. split; [apply elem_of_app; by left|done].
  - intros r [Hr|Hr%list_elem_of_singleton]%elem_of_app Hs Hm.
    + by apply Hpending.
    + subst r. simpl in *. left. lia.
Qed.

Lemma consistent_poll s :
  consistent s →
  consistent (System (store s) (waiting s ++ sql_select_pending 10 (store s))
                (running s)).
Proof.
  intros [Hissued Hunique Hjobs Hpending].
  split; cbn [store waiting running]; [done..| |done].
  intros t. rewrite <- (assoc_L (++)), elem_of_app, (elem_of_app _ (job <$> _)).
  intros [Ht|[Ht|Ht]].
  - apply Hjobs, elem_of_app. by left.
  - apply select_pending_rows in Ht as [Ht _]. by exists t.
  - apply Hjobs, elem_of_app. by right.
Qed.

Lemma consistent_start s now t q :
  consistent s → waiting s = t :: q →
  consistent (System (update_where (id t) (set_started now) (store s)) q
                (running s ++ [Execution t at_handler])).
Proof.
  intros Hs Hw. apply consistent_update_where; [done|done|..].
  - intros t'. rewrite Hw, fmap_app, !elem_of_app, elem_of_cons. simpl.
    rewrite list_elem_of_singleton. tauto.
  - intros r' (r & Hr & ->)%elem_of_update_where Hst Hm.
    case_bool_decide; [done|].
    destruct (pending_bounded s Hs r Hr Hst Hm) as [|(x & Hx & Hrec)];
      [by left|right].
    exists x. split; [apply elem_of_app; by left|done].
Qed.

(** An execution that goes on keeps its job. *)
Lemma advance_job hs now x d y :
  (advance hs now x d).2 = Some y → job y = job x.
Proof.
  unfold advance.
  destruct (stands x); simpl;
    repeat (first [case_match | case_bool_decide]; simpl);
    intros Hy; by simplify_eq.
Qed.

Lemma advance_at_handler hs now t d :
  (advance hs now (Execution t at_handler) d).1 = d.
Proof. unfold advance. simpl. by repeat case_match. Qed.

Lemma consistent_advance hs s i now x :
  consistent s → running s !! i = Some x →
  consistent
    (System (advance hs now x (store s)).1 (waiting s)
       (take i (running s) ++ option_list (advance hs now x (store s)).2
          ++ drop (S i) (running s))).
Proof.
  intros Hs Hi.
  pose proof (running_jobs (running s) i x (advance hs now x (store s)).2
                (waiting s)) as Hjobs.
  specialize (λ t, Hjobs t Hi (advance_job hs now x (store s))).
  assert (∀ r, r ∈ rows (store s) → status r = pending → 0 ≤ max_retries r →
               ¬ recording (id r) (retry_count r) x →
               retry_count r ≤ max_retries r ∨
               ∃ x0, x0 ∈ take i (running s)
                         ++ option_list (advance hs now x (store s)).2
                         ++ drop (S i) (running s) ∧
                     recording (id r) (retry_count r) x0) as Hkeep.
  { intros r Hr Hst Hm Hx.
    destruct (pending_bounded s Hs r Hr Hst Hm) as [|(x0 & Hx0 & Hrec)];
      [by left|right].
    destruct (running_cases _ i x x0 Hi Hx0) as [->|Hin]; [done|].
    exists x0. split; [by apply running_others|done]. }
  destruct x as [t pt].
  destruct pt as [| |e|e|e n];
    [pose proof (advance_at_handler hs now t (store s)) as Hd;
     destruct (advance hs now (Execution t at_handler) (store s)) as [d' x'];
     simpl in Hd; subst d'
    |unfold advance in *..]; simpl in *.
  - (* the lookup and the handler *)
    destruct Hs as [Hissued Hunique Hknown Hpending].
    split; cbn [store waiting running]; [done|done|eauto|].
    intros r Hr Hst Hm. apply Hkeep; [done..|].
    by apply not_recording_handler.
  - (* markTaskCompleted *)
    apply consistent_update_where; [done|done|done|].
    intros r' (r & Hr & ->)%elem_of_update_where Hst Hm.
    case_bool_decide; [done|].
    apply Hkeep; [done..|]. by apply not_recording_complete.
  - (* the UPDATE of incrementRetryCount *)
    apply consistent_update_where; [done|done|done|].
    intros r' (r & Hr & ->)%elem_of_update_where Hst Hm.
    case_bool_decide as Hk.
    + right. exists (Execution t (at_read e)). split.
      * apply elem_of_app. right. apply elem_of_cons. by left.
      * split; [done|]. exists e. by left.
    + apply Hkeep; [done..|]. by apply (not_recording_catch _ _ _ e).
  - (* getTask *)
    destruct (sql_select_by_id (id t) (store s)) as [r0|] eqn:Hr0; simpl in *.
    + destruct (select_by_id_Some _ _ _ Hr0) as [Hr0in Hr0id].
      destruct Hs as [Hissued Hunique Hknown Hpending].
      split; cbn [store waiting running]; [done|done|eauto|].
      intros r Hr Hst Hm.
      destruct (Hpending r Hr Hst Hm) as [|(x0 & Hx0 & Hrec)]; [by left|right].
      destruct (running_cases _ i _ x0 Hi Hx0) as [->|Hin].
      * exists (Execution t (at_check e (retry_count r0))). split.
        -- apply elem_of_app. right. apply elem_of_cons. by left.
        -- destruct Hrec as [Hid _]. simpl in Hid.
           assert (r0 = r) as -> by (apply (unique_row (store s)); congruence).
           split; [done|]. exists e. by right.
      * exists x0. split; [by apply (running_others _ i (Some _))|done].
    + destruct Hs as [Hissued Hunique Hknown Hpending].
      split; cbn [store waiting running]; [done|done|eauto|].
      intros r Hr Hst Hm. apply Hkeep; [done..|].
      intros [Hid _]. simpl in Hid.
      by apply (select_by_id_None _ _ r Hr0).
  - (* the comparison, and markTaskFailed *)
    case_bool_decide as Hn; simpl in *.
    + apply consistent_update_where; [done|done|done|].
      intros r' (r & Hr & ->)%elem_of_update_where Hst Hm.
      case_bool_decide as Hk; [done|].
      apply Hkeep; [done..|]. intros [Hid _]. simpl in Hid. congruence.
    + pose proof Hs as [Hissued Hunique Hknown Hpending].
      split; cbn [store waiting running]; [done|done|eauto|].
      intros r Hr Hst Hm.
      destruct (Hpending r Hr Hst Hm) as [|(x0 & Hx0 & Hrec)]; [by left|].
      destruct (running_cases _ i _ x0 Hi Hx0) as [->|Hin].
      * left. destruct Hrec as [Hid [e' [He'|He']]]; simpl in *; [done|].
        injection He' as _ ->.
        destruct (Hknown t) as (r1 & Hr1 & Hid1 & Hmax1).
        { apply elem_of_app. right. apply list_elem_of_fmap.
          exists (Execution t (at_check e (retry_count r))).
          split; [done|]. by eapply list_elem_of_lookup_2. }
        assert (r1 = r) as -> by (apply (unique_row (store s)); congruence).
        lia.
      * right. exists x0. split; [by apply (running_others _ i None)|done].
Qed.

Lemma act_consistent hs a s s' :
  consistent s → act hs a s = Some s' → consistent s'.
Proof.
  intros Hs. destruct a as [now n p pl m| |now|i now]; simpl.
  - intros [= <-]. by apply consistent_addTask.
  - intros [= <-]. by apply consistent_poll.
  - destruct (waiting s) as [|t q] eqn:Hw; [done|].
    intros [= <-]. by apply consistent_start.
  - destruct (running s !! i) as [x|] eqn:Hi; [|done].
    pose proof (consistent_advance hs s i now x Hs Hi) as Hs'.
    destruct (advance hs now x (store s)) as [d x'].
    by intros [= <-].
Qed.

Lemma run_consistent hs acts s s' :
  consistent s → run hs acts s = Some s' → consistent s'.
Proof.
  revert s. induction acts as [|a acts IH]; intros s Hs; simpl.
  - by intros [= <-].
  - destruct (act hs a s) as [s1|] eqn:Ha; [|done].
    apply IH. by eapply act_consistent.
Qed.

Lemma reachable_consistent hs s : reachable hs s → consistent s.
Proof. intros [acts Hrun]. eapply run_consistent; [apply consistent_initial|done]. Qed.

(** *** The transitions against the functions

    Each transition does to the table and to the queue what the function
    it stands for does: [do_addTask] what [addTask] does, [do_poll] what
    [poll] does, and [do_start] followed by the [do_advance] steps of one
    execution what [executeTask] does. *)

Lemma addTask_as_action n p pl m w s :
  fault (io w (issued w)) = None → store s = db w →
  ∃ s', act ∅ (do_addTask (time w 0) n p pl m) s = Some s' ∧
        store s' = db (addTask n p pl m w).2.
Proof.
  intros Hf Hs. eexists. split; [reflexivity|]. simpl.
  unfold addTask, stored_payload. run_monad. rewrite Hf. simpl. by rewrite Hs.
Qed.

Lemma queue_foldl_queueTask s batch :
  queue (foldl queueTask s batch) = queue s ++ batch ∧
  taskHandlers (foldl queueTask s batch) = taskHandlers s ∧
  isRunning (foldl queueTask s batch) = isRunning s.
Proof.
  revert s. induction batch as [|t batch IH]; intros s; simpl.
  - by rewrite (right_id_L [] (++)).
  - destruct (IH (queueTask s t)) as (-> & -> & ->). simpl.
    by rewrite <- (assoc_L (++)).
Qed.

Lemma poll_as_action hs q w s :
  fault (io w (issued w)) = None → store s = db w → waiting s = q →
  ∃ s' svc, act hs do_poll s = Some s' ∧
            poll (Service hs true q) w = (Ok svc, after w (db w) 1
              (Db (call_getPendingTasks 10) ::
               if bool_decide (0 < length (sql_select_pending 10 (db w)))%nat
               then [Console (log_found (length (sql_select_pending 10 (db w))))]
               else [])) ∧
            waiting s' = queue svc ∧ store s' = db w.
Proof.
  intros Hf Hs Hq. do 2 eexists. split; [reflexivity|].
  rewrite poll_run by done. simpl. split; [reflexivity|].
  destruct (queue_foldl_queueTask (Service hs true q)
              (sql_select_pending 10 (db w))) as (-> & _).
  simpl. by rewrite Hs, Hq.
Qed.

Lemma on_error_db t e w :
  healthy w →
  db (on_error t e w).2
  = settle ∅ (time w) 3 0 (Execution t (at_catch e)) (db w).
Proof.
  intros Hw.
  pose proof (healthy_at w 0 Hw) as H0.
  pose proof (healthy_at w 1 Hw) as H1.
  pose proof (healthy_at w 2 Hw) as H2. simpl in H0, H1, H2.
  unfold on_error, incrementRetryCount, getTask, markTaskFailed. run_monad.
  rewrite H0. simpl. rewrite H1. simpl. unfold advance. simpl.
  destruct (sql_select_by_id _ _); simpl; [|done].
  case_bool_decide; simpl; [|done]. by rewrite H2.
Qed.

Lemma settle_catch hs clock k t e d :
  settle hs clock 3 k (Execution t (at_catch e)) d
  = settle ∅ clock 3 k (Execution t (at_catch e)) d.
Proof.
  simpl. unfold advance. simpl.
  destruct (sql_select_by_id _ _); simpl; [|done]. by case_bool_decide.
Qed.

Lemma executeTask_uninterrupted hs t w :
  healthy w →
  db (executeTask hs t w).2
  = settle hs (time w) 4 1 (Execution t at_handler)
      (update_where (id t) (set_started (time w 0)) (db w)).
Proof.
  intros Hw.
  pose proof (healthy_at w 0 Hw) as H0.
  pose proof (healthy_at w 1 Hw) as H1. simpl in H0, H1.
  assert (∀ e w', healthy w' →
    (∀ k, time w' k = time w (S k)) →
    db (on_error t e w').2
    = settle hs (time w) 3 1 (Execution t (at_catch e)) (db w')) as Hcatch.
  { intros e w' Hw' Hclock. rewrite on_error_db, (settle_catch hs) by done.
    simpl. by rewrite !Hclock. }
  cbn [settle]. unfold advance at 1. cbn [stands job issues_statement].
  destruct (get_handler hs (name t)) as [h|] eqn:Hh.
  - destruct (invoke h (parse_payload t) t) as [[]|e|v] eqn:He.
    + by erewrite executeTask_handler_returns.
    + erewrite executeTask_handler_throws by done.
      apply Hcatch; [by apply healthy_after|].
      intros k. unfold handled. by rewrite time_after, Nat.add_1_r.
    + by erewrite executeTask_handler_rejects.
  - rewrite executeTask_no_handler by done.
    apply Hcatch; [by apply healthy_after|].
    intros k. unfold claimed. by rewrite time_after, Nat.add_1_r.
Qed.

(** C1, as amended: in every state the service can reach while the
    store accepts its statements, a pending task with [max_retries >= 0]
    has [retry_count <= max_retries], unless an execution of that task
    stands between the UPDATE of [incrementRetryCount] and the end of its
    [catch] block (a task that was queued twice is, for that moment,
    pending with a larger count).  When nothing is in flight the bound
    holds for every pending task.  An execution whose new count has
    reached [max_retries] goes on with [markTaskFailed]: the task is
    [failed] after that step. *)
Theorem pending_retry_count_bounded hs s :
  reachable hs s →
  (∀ r, r ∈ rows (store s) → 0 ≤ max_retries r → status r = pending →
        retry_count r ≤ max_retries r ∨
        ∃ x, x ∈ running s ∧ recording (id r) (retry_count r) x) ∧
  (running s = [] →
   ∀ r, r ∈ rows (store s) → 0 ≤ max_retries r → status r = pending →
        retry_count r ≤ max_retries r) ∧
  (∀ i x e n now s',
     running s !! i = Some x → stands x = at_check e n →
     max_retries (job x) ≤ n →
     act hs (do_advance i now) s = Some s' →
     ∀ r, r ∈ rows (store s') → id r = id (job x) → status r = failed).
Proof.
  intros Hs%reachable_consistent. split; [|split].
  - intros r Hr Hm Hst. by apply (pending_bounded s Hs).
  - intros Hidle r Hr Hm Hst.
    destruct (pending_bounded s Hs r Hr Hst Hm) as [|(x & Hx & _)]; [done|].
    rewrite Hidle in Hx. by apply elem_of_nil in Hx.
  - intros i [t pt] e n now s' Hi Hpt Hn. simpl in Hpt, Hn. subst pt.
    simpl. rewrite Hi. unfold advance. simpl.
    rewrite bool_decide_eq_true_2 by done. intros [= <-]. simpl.
    intros r' (r & Hr & ->)%elem_of_update_where Hid.
    case_bool_decide; [done|]. congruence.
Qed.

End interleaved_executions.

(** After one failed attempt out of three allowed, nothing in flight. *)
Lemma pending_retry_count_witness :
  retry_count retried_once_row ≤ max_retries retried_once_row.
Proof.
  apply (pending_retry_count_bounded ∅ retried_once_state).
  - exists retried_once. vm_compute. reflexivity.
  - reflexivity.
  - apply list_elem_of_singleton. reflexivity.
  - vm_compute. discriminate.
  - reflexivity.
Defined.

(** C1 as stated fails: while the queue is paused (or busy) two polls
    read the same pending task, whose one allowed retry is used up by the
    first execution ([failed], [retry_count = 1]); the second execution
    records its failure too, and before it marks the task failed the row
    is pending with [retry_count = 2 > max_retries = 1]. *)
Lemma queued_twice_counterexample :
  (rows ∘ store) <$> run ∅ (take 8 queued_twice) initial
  = Some [Task 1 "report" 5 failed (Some "7") 1 1
            (Some "No handler registered for task type: report")
            0 40 (Some 10) None] ∧
  (rows ∘ store) <$> run ∅ queued_twice initial
  = Some [Task 1 "report" 5 pending (Some "7") 1 2
            (Some "No handler registered for task type: report")
            0 60 (Some 50) None].
Proof. split; vm_compute; reflexivity. Qed.

(** ** Clients of the store: what every call keeps *)

Lemma dbRun_step stmt w :
  db (dbRun stmt w).2 = db w ∨
  db (dbRun stmt w).2 = stmt (now (io w (issued w))) (db w).
Proof. unfold dbRun. destruct (fault _); simpl; auto. Qed.

Lemma emit_dbRun_step ev stmt w :
  db ((_ ← emit ev; dbRun stmt) w).2 = db w ∨
  db ((_ ← emit ev; dbRun stmt) w).2 = stmt (now (io w (issued w))) (db w).
Proof. run_monad. destruct (fault _); simpl; auto. Qed.

Lemma keeps_task_started now : keeps_task (set_started now).
Proof. intros r. unfold same_task. simpl. repeat split; lia. Qed.

Lemma keeps_task_completed now : keeps_task (set_completed now).
Proof. intros r. unfold same_task. simpl. repeat split; lia. Qed.

Lemma keeps_task_status now s e : keeps_task (set_status now s e).
Proof. intros r. unfold same_task. simpl. repeat split; lia. Qed.

Lemma keeps_task_retry now e : keeps_task (set_retry now e).
Proof. intros r. unfold same_task. simpl. repeat split; lia. Qed.

Section clients_steps.
Context `{Runtime}.

Lemma perform_step r w : table_step (db w) (db (perform r w)).
Proof.
  destruct r as [[n p pl m|limit|k|k|k|k e|k e]|k s e| |]; simpl.
  - destruct (emit_dbRun_step (Db (call_addTask n p
        (match pl with JUndefined => JNull | _ => pl end) m))
        (λ now, sql_insert now n p
           (if truthy (match pl with JUndefined => JNull | _ => pl end)
            then Some (JSON_stringify (match pl with JUndefined => JNull | _ => pl end))
            else None) m) w) as [Hs|Hs];
      unfold addTask; simpl; rewrite Hs; constructor.
  - unfold getPendingTasks. run_monad. destruct (fault _); simpl; constructor.
  - unfold getTask. run_monad. destruct (fault _); simpl; constructor.
  - unfold markTaskStarted. run_monad. destruct (fault _); simpl;
      constructor; apply keeps_task_started.
  - unfold markTaskCompleted. run_monad. destruct (fault _); simpl;
      constructor; apply keeps_task_completed.
  - destruct (incrementRetryCount_all_or_nothing k e w) as [-> | ->];
      constructor; apply keeps_task_retry.
  - unfold markTaskFailed. run_monad. destruct (fault _); simpl;
      constructor; apply keeps_task_status.
  - unfold updateTaskStatus. run_monad. destruct (fault _); simpl;
      constructor; apply keeps_task_status.
  - unfold getStats, dbGet_row. destruct (fault _); simpl; constructor.
  - unfold clearAllTasks. run_monad. destruct (fault _); simpl; constructor.
Qed.

End clients_steps.

Lemma filter_none {A} (P : A → Prop) `{∀ x, Decision (P x)} (l : list A) :
  (∀ x, x ∈ l → ¬ P x) → filter P l = [].
Proof.
  induction l as [|x l IH]; intros Hl; [done|].
  rewrite filter_cons, decide_False by (apply Hl; by left).
  apply IH. intros y Hy. apply Hl. by right.
Qed.

Lemma table_step_sequence d d' : table_step d d' → sequence d ≤ sequence d'.
Proof. intros []; simpl; lia. Qed.

Lemma table_step_primary_key d d' :
  table_step d d' → primary_key d → primary_key d'.
Proof.
  intros Hstep [Hnd Hle]. destruct Hstep as [|now n p pl m|k set Hset|].
  - done.
  - split; simpl.
    + rewrite fmap_app. apply NoDup_app. split; [done|]. split.
      * intros k (r & -> & Hr)%list_elem_of_fmap Hk.
        apply list_elem_of_singleton in Hk. simpl in Hk.
        apply Hle in Hr. lia.
      * apply NoDup_singleton.
    + intros r [Hr|Hr%list_elem_of_singleton]%elem_of_app.
      * apply Hle in Hr. lia.
      * subst r. simpl. lia.
  - assert (keeps_identity set) as Hid.
    { intros r. destruct (Hset r) as [(? & _ & _ & _ & ? & _) _]. done. }
    split.
    + by rewrite ids_update_where.
    + intros r' (r & Hr & ->)%elem_of_update_where. simpl.
      case_bool_decide; [rewrite (proj1 (Hid r))|]; by apply Hle.
  - split; simpl; [constructor|]. intros r Hr. by apply elem_of_nil in Hr.
Qed.

(** A row of the table after a call that is not beyond the counter as
    it was before the call was a row before, the same task with no
    smaller retry count. *)
Lemma table_step_rows d d' r' :
  table_step d d' → r' ∈ rows d' → id r' ≤ sequence d →
  ∃ r, r ∈ rows d ∧ same_task r r' ∧ retry_count r ≤ retry_count r'.
Proof.
  intros Hstep Hr' Hid. destruct Hstep as [|now n p pl m|k set Hset|].
  - exists r'. unfold same_task. split; [done|]. split; [done|lia].
  - simpl in Hr'. apply elem_of_app in Hr' as [Hr'|Hr'%list_elem_of_singleton].
    + exists r'. unfold same_task. split; [done|]. split; [done|lia].
    + subst r'. simpl in Hid. lia.
  - apply elem_of_update_where in Hr' as (r & Hr & ->).
    exists r. split; [done|]. case_bool_decide; [apply Hset|].
    unfold same_task. split; [done|lia].
  - by apply elem_of_nil in Hr'.
Qed.

Section clients_of_the_store.
Context `{Runtime}.

Lemma perform_all_sequence rs w :
  sequence (db w) ≤ sequence (db (perform_all rs w)).
Proof.
  revert w. induction rs as [|r rs IH]; intros w; simpl; [done|].
  etrans; [|apply IH]. apply table_step_sequence, perform_step.
Qed.

(** X1: the primary key is kept by every sequence of calls of [db.js],
    whatever the driver does to each of them: ids stay unique and none is
    beyond the AUTOINCREMENT counter. *)
Theorem primary_key_is_kept rs w :
  primary_key (db w) → primary_key (db (perform_all rs w)).
Proof.
  revert w. induction rs as [|r rs IH]; intros w Hw; simpl; [done|].
  apply IH. eapply table_step_primary_key; [apply perform_step|done].
Qed.

(** X2: ids are never handed out twice: of two calls of [addTask] that
    resolve, the later one resolves with the larger id, whatever calls
    are made in between, [clearAllTasks] included. *)
Theorem addTask_ids_are_never_reused n p pl m rs n' p' pl' m' w k k' :
  (addTask n p pl m w).1 = Ok k →
  (addTask n' p' pl' m' (perform_all rs (addTask n p pl m w).2)).1 = Ok k' →
  k < k'.
Proof.
  intros Hk Hk'.
  assert (∀ n p pl m w k, (addTask n p pl m w).1 = Ok k →
            k = sequence (db w) + 1 ∧ sequence (db (addTask n p pl m w).2) = k)
    as Hadd.
  { clear. intros n p pl m w k. unfold addTask. run_monad.
    destruct (fault _); simpl; [done|]. by intros [= <-]. }
  apply Hadd in Hk as [-> Hseq]. apply Hadd in Hk' as [-> _].
  pose proof (perform_all_sequence rs (addTask n p pl m w).2). lia.
Qed.

(** X3: a task that [addTask] stored is read back by [getTask] under
    the id [addTask] resolved with: the arguments with their defaults
    (priority 0, 3 retries), status [pending], no retry, no error, both
    [created_at] and [updated_at] at the time of the insert, and
    [started_at] and [completed_at] NULL.  The id is larger than every id
    in the table. *)
Theorem addTask_getTask_round_trip n p pl m w :
  fault (io w (issued w)) = None →
  fault (io w (S (issued w))) = None →
  primary_key (db w) →
  ∃ k, (addTask n p pl m w).1 = Ok k ∧
       (∀ r, r ∈ rows (db w) → id r < k) ∧
       (getTask k (addTask n p pl m w).2).1
       = Ok (Some (Task k n (default 0 p) pending (stored_payload pl)
                     (default 3 m) 0 None (time w 0) (time w 0) None None)).
Proof.
  intros Hf0 Hf1 [_ Hle]. exists (sequence (db w) + 1).
  unfold addTask, getTask. run_monad. rewrite Hf0. simpl. rewrite Hf1. simpl.
  split; [done|]. split; [intros r Hr%Hle; lia|].
  do 2 f_equal. unfold sql_select_by_id, sql_insert, stored_payload. simpl.
  rewrite filter_app, filter_cons, decide_True, filter_nil by done.
  replace (filter _ (rows (db w))) with (@nil task); [done|].
  symmetry. apply filter_none. intros r Hr%Hle. lia.
Qed.

(** X4: no call of [db.js] rewrites a task: a row found in the table
    after any sequence of calls, with an id that had been handed out
    before the sequence, was in the table before, with the same id, name,
    priority, payload, retry limit and creation time, and with a retry
    count that is not larger than the one it has now. *)
Theorem stored_task_is_never_rewritten rs w r' :
  r' ∈ rows (db (perform_all rs w)) → id r' ≤ sequence (db w) →
  ∃ r, r ∈ rows (db w) ∧ same_task r r' ∧ retry_count r ≤ retry_count r'.
Proof.
  revert w. induction rs as [|q rs IH]; intros w Hr' Hid; simpl in *.
  - exists r'. unfold same_task. split; [done|]. split; [done|lia].
  - destruct (IH (perform q w) Hr') as (r1 & Hr1 & Hsame1 & Hc1).
    { etrans; [done|]. apply table_step_sequence, perform_step. }
    destruct (table_step_rows (db w) (db (perform q w)) r1) as (r & Hr & Hsame & Hc);
      [apply perform_step|done|destruct Hsame1 as [<- _]; done|].
    exists r. split; [done|]. unfold same_task in *. split; [|lia].
    destruct Hsame as (? & ? & ? & ? & ? & ?), Hsame1 as (? & ? & ? & ? & ? & ?).
    repeat split; congruence.
Qed.

End clients_of_the_store.

(** Five calls on an empty table, [clearAllTasks] among them. *)
Lemma primary_key_witness : primary_key (db (perform_all session blank_world)).
Proof.
  apply (primary_key_is_kept session blank_world).
  split; [constructor|]. intros r Hr. by apply elem_of_nil in Hr.
Defined.

(** The first task gets id 1; after the calls of [session], which
    clear the table, the next one gets id 5. *)
Lemma addTask_ids_witness :
  ∃ k k',
    (addTask "report" None (JNum 7) None blank_world).1 = Ok k ∧
    (addTask "report" None JNull None
       (perform_all session
          (addTask "report" None (JNum 7) None blank_world).2)).1 = Ok k' ∧
    k < k'.
Proof.
  exists 1, 5. split; [reflexivity|]. split; [vm_compute; reflexivity|].
  apply (addTask_ids_are_never_reused "report" None (JNum 7) None session
           "report" None JNull None blank_world 1 5).
  - reflexivity.
  - vm_compute. reflexivity.
Defined.

(** [addTask("report", undefined, 7)] on an empty table, at time 0. *)
Lemma addTask_getTask_witness :
  ∃ k, (addTask "report" None (JNum 7) None blank_world).1 = Ok k ∧
       (getTask k (addTask "report" None (JNum 7) None blank_world).2).1
       = Ok (Some (Task k "report" 0 pending (Some "7") 3 0 None 0 0 None None)).
Proof.
  destruct (addTask_getTask_round_trip "report" None (JNum 7) None blank_world)
    as (k & Hk & _ & Hget).
  - reflexivity.
  - reflexivity.
  - split; [constructor|]. intros r Hr. by apply elem_of_nil in Hr.
  - exists k. split; [exact Hk|exact Hget].
Defined.

(** Task 1 after it was claimed, failed once and was set to completed
    by hand. *)
Lemma stored_task_witness :
  ∃ r, r ∈ rows (db (world_of [report_task] (steady 10))) ∧
       same_task r handled_row ∧ retry_count r ≤ retry_count handled_row.
Proof.
  apply (stored_task_is_never_rewritten handling
           (world_of [report_task] (steady 10)) handled_row).
  - apply list_elem_of_singleton. vm_compute. reflexivity.
  - vm_compute. discriminate.
Defined.

(** ** The two statements of [incrementRetryCount] *)

Section one_update.
Context `{Runtime}.

(** A row found after any sequence of calls, with an id that had been
    handed out before, was in the table before the calls: the same task,
    with a retry count that was not larger. *)
Lemma perform_all_rows rs w r' :
  r' ∈ rows (db (perform_all rs w)) → id r' ≤ sequence (db w) →
  ∃ r, r ∈ rows (db w) ∧ same_task r r' ∧ retry_count r ≤ retry_count r'.
Proof.
  revert w. induction rs as [|q rs IH]; intros w Hr' Hid; simpl in *.
  - exists r'. unfold same_task. split; [done|]. split; [done|lia].
  - destruct (IH (perform q w) Hr') as (r1 & Hr1 & Hsame1 & Hc1).
    { etrans; [done|]. apply table_step_sequence, perform_step. }
    destruct (table_step_rows (db w) (db (perform q w)) r1) as (r & Hr & Hsame & Hc);
      [apply perform_step|done|destruct Hsame1 as [<- _]; done|].
    exists r. split; [done|]. unfold same_task in *. split; [|lia].
    destruct Hsame as (? & ? & ? & ? & ? & ?), Hsame1 as (? & ? & ? & ? & ? & ?).
    repeat split; congruence.
Qed.

Lemma incrementRetryCount_read_run k w :
  fault (io w (issued w)) = None →
  (incrementRetryCount_read k w).1
  = match sql_select_by_id k (db w) with
    | Some r => Ok (retry_count r)
    | None => Throw TypeError_retry_count
    end.
Proof.
  intros Hf. unfold incrementRetryCount_read, getTask. run_monad. rewrite Hf.
  simpl. by destruct (sql_select_by_id k (db w)).
Qed.

(** C5, as amended: [incrementRetryCount] changes the row by one
    [UPDATE] that adds one to [retry_count], stores the message and sets
    the status to [pending]: the table is never seen with only part of
    it done, and it is untouched when the driver rejects the statement.
    The count the call resolves with is read by a second statement,
    [getTask], awaited after the [UPDATE]: it is the count the row has
    then.  That is the count this increment produced when nothing came in
    between; when calls of other clients were served in between it is a
    count that is not smaller, and the call rejects with a TypeError when
    the row is gone. *)
Theorem incrementRetryCount_one_update k e rs w r :
  fault (io w (issued w)) = None →
  sql_select_by_id k (db w) = Some r →
  primary_key (db w) →
  let w1 := (incrementRetryCount_update k e w).2 in
  let w2 := perform_all rs w1 in
  let r1 := set_retry (time w 0) e r in
  db w1 = update_where k (set_retry (time w 0) e) (db w) ∧
  sql_select_by_id k (db w1) = Some r1 ∧
  retry_count r1 = retry_count r + 1 ∧
  error_message r1 = e ∧
  status r1 = pending ∧
  (∀ k', k' ≠ k → sql_select_by_id k' (db w1) = sql_select_by_id k' (db w)) ∧
  (∀ io', db (incrementRetryCount k e (World (db w) io' (issued w) (trace w))).2 = db w ∨
          db (incrementRetryCount k e (World (db w) io' (issued w) (trace w))).2
          = update_where k (set_retry (now (io' (issued w))) e) (db w)) ∧
  incrementRetryCount k e w = incrementRetryCount_interleaved k e [] w ∧
  (fault (io w (S (issued w))) = None →
   (incrementRetryCount k e w).1 = Ok (retry_count r + 1)) ∧
  (fault (io w2 (issued w2)) = None →
   match sql_select_by_id k (db w2) with
   | Some r2 =>
       (incrementRetryCount_interleaved k e rs w).1 = Ok (retry_count r2) ∧
       retry_count r + 1 ≤ retry_count r2
   | None =>
       (incrementRetryCount_interleaved k e rs w).1 = Throw TypeError_retry_count
   end).
Proof.
  intros Hf0 Hr Hkey w1 w2 r1.
  assert (incrementRetryCount_update k e w
          = (Ok (sequence (db w)),
             after w (update_where k (set_retry (time w 0) e) (db w)) 1
               [Db (call_incrementRetryCount k e)])) as Hupdate.
  { unfold incrementRetryCount_update. run_monad. by rewrite Hf0. }
  assert (db w1 = update_where k (set_retry (time w 0) e) (db w)) as Hdb1
    by (unfold w1; by rewrite Hupdate).
  assert (sql_select_by_id k (db w1) = Some r1) as Hr1
    by (by rewrite Hdb1, select_by_id_update_eq, Hr).
  split; [done|]. split; [done|]. do 3 (split; [done|]).
  split; [intros k' Hk; by rewrite Hdb1, select_by_id_update_ne|].
  split.
  { intros io'. apply (incrementRetryCount_all_or_nothing k e (World _ io' _ _)). }
  split.
  { unfold incrementRetryCount_interleaved. rewrite Hupdate. simpl.
    unfold incrementRetryCount, incrementRetryCount_read, getTask. run_monad.
    rewrite Hf0. simpl. destruct (fault (io w (S (issued w)))); [done|].
    simpl. by destruct (sql_select_by_id k _). }
  split.
  { intros Hf1. by rewrite (incrementRetryCount_run k e w r). }
  intros Hf2.
  assert ((incrementRetryCount_interleaved k e rs w).1
          = match sql_select_by_id k (db w2) with
            | Some r2 => Ok (retry_count r2)
            | None => Throw TypeError_retry_count
            end) as ->.
  { unfold incrementRetryCount_interleaved. rewrite Hupdate.
    change (after w _ 1 _) with (Ok (sequence (db w)), after w
      (update_where k (set_retry (time w 0) e) (db w)) 1
      [Db (call_incrementRetryCount k e)]).2.
    rewrite <- Hupdate. fold w1. fold w2.
    by apply incrementRetryCount_read_run. }
  destruct (sql_select_by_id k (db w2)) as [r2|] eqn:Hr2; [|done].
  split; [done|].
  assert (primary_key (db w1)) as [Hnd1 Hle1].
  { rewrite Hdb1. eapply table_step_primary_key; [|done].
    constructor. apply keeps_task_retry. }
  destruct (select_by_id_Some _ _ _ Hr1) as [Hin1 Hid1].
  destruct (select_by_id_Some _ _ _ Hr2) as [Hin2 Hid2].
  destruct (perform_all_rows rs w1 r2 Hin2) as (r0 & Hin0 & Hsame & Hc).
  { rewrite Hid2, <- Hid1. by apply Hle1. }
  assert (r0 = r1) as ->.
  { apply (unique_row (db w1)); [done..|].
    destruct Hsame as [Hid _]. congruence. }
  change (retry_count r1) with (retry_count r + 1) in Hc. done.
Qed.

End one_update.

(** The first failure of a fresh task: the call resolves with 1. *)
Lemma incrementRetryCount_witness :
  (incrementRetryCount 1 (Some "boom") (world_of [report_task] (steady 10))).1
  = Ok 1.
Proof.
  destruct (incrementRetryCount_one_update 1 (Some "boom") []
              (world_of [report_task] (steady 10)) report_task)
    as (_ & _ & _ & _ & _ & _ & _ & _ & Hret & _).
  - reflexivity.
  - reflexivity.
  - split; [apply NoDup_singleton|].
    intros r ->%list_elem_of_singleton. vm_compute. discriminate.
  - apply Hret. reflexivity.
Defined.

(** C5 as stated fails: the call does not always return the value its
    own increment produced.  The increment of a first failure produces 1;
    when another failure of the task is recorded between the [UPDATE]
    and the [getTask], the call returns 2.  The dispatcher does this to a
    task that two polls queued twice: the first execution's [UPDATE]
    leaves the count at 1, and after the second execution's [UPDATE] the
    first one reads 2. *)
Lemma incrementRetryCount_counterexample :
  retry_count <$> sql_select_by_id 1
    (db (incrementRetryCount_update 1 (Some "boom")
           (world_of [report_task] (steady 10))).2)
  = Some 1 ∧
  (incrementRetryCount_interleaved 1 (Some "boom")
     [request_call (call_incrementRetryCount 1 (Some "bang"))]
     (world_of [report_task] (steady 10))).1
  = Ok 2 ∧
  (λ s, retry_count <$> rows (store s)) <$> run ∅ (take 8 contended) initial
  = Some [1] ∧
  (λ s, stands <$> running s) <$> run ∅ contended initial
  = Some [ at_check "No handler registered for task type: report" 2;
           at_read "No handler registered for task type: report" ].
Proof. repeat split; vm_compute; reflexivity. Qed.

(** ** Tasks that are not in the table *)

Lemma update_where_missing k set d :
  sql_select_by_id k d = None → update_where k set d = d.
Proof.
  intros Hk. destruct d as [l q]. unfold update_where. simpl. f_equal.
  assert (∀ r, r ∈ l → id r ≠ k) as Hl
    by (intros r Hr; by apply (select_by_id_None k (Database l q))).
  clear Hk. induction l as [|r l IH]; [done|].
  rewrite fmap_cons, bool_decide_eq_false_2 by (apply Hl; by left).
  f_equal. apply IH. intros r' Hr'. apply Hl. by right.
Qed.

Lemma incrementRetryCount_missing k e w :
  fault (io w (issued w)) = None →
  fault (io w (S (issued w))) = None →
  sql_select_by_id k (db w) = None →
  incrementRetryCount k e w =
    (Throw TypeError_retry_count,
     after w (db w) 2 [Db (call_incrementRetryCount k e); Db (call_getTask k)]).
Proof.
  intros Hf0 Hf1 Hk. unfold incrementRetryCount, getTask. run_monad.
  rewrite Hf0. simpl. rewrite Hf1.
  rewrite update_where_missing by done. rewrite Hk. simpl.
  by rewrite <- (assoc_L (++)).
Qed.

(** X5: a call for an id that is not in the table: [markTaskStarted],
    [markTaskCompleted], [markTaskFailed] and [updateTaskStatus] resolve
    and change nothing; [getTask] resolves with [undefined];
    [incrementRetryCount] rejects with the TypeError of reading
    [retry_count] of [undefined], having changed nothing. *)
Theorem calls_for_a_missing_task k s e w :
  sql_select_by_id k (db w) = None →
  fault (io w (issued w)) = None →
  fault (io w (S (issued w))) = None →
  ((∃ n, (markTaskStarted k w).1 = Ok n) ∧ db (markTaskStarted k w).2 = db w) ∧
  ((∃ n, (markTaskCompleted k w).1 = Ok n) ∧ db (markTaskCompleted k w).2 = db w) ∧
  ((∃ n, (markTaskFailed k e w).1 = Ok n) ∧ db (markTaskFailed k e w).2 = db w) ∧
  ((∃ n, (updateTaskStatus k s e w).1 = Ok n) ∧ db (updateTaskStatus k s e w).2 = db w) ∧
  (getTask k w).1 = Ok None ∧
  (incrementRetryCount k e w).1 = Throw TypeError_retry_count ∧
  db (incrementRetryCount k e w).2 = db w.
Proof.
  intros Hk Hf0 Hf1.
  rewrite markTaskStarted_run, markTaskCompleted_run, markTaskFailed_run by done.
  rewrite incrementRetryCount_missing by done. simpl.
  rewrite !update_where_missing by done.
  unfold updateTaskStatus, getTask. run_monad. rewrite Hf0. simpl.
  rewrite update_where_missing by done. rewrite Hk. eauto 15.
Qed.

(** No task has id 7 in an empty table. *)
Lemma missing_task_witness :
  (incrementRetryCount 7 None blank_world).1 = Throw TypeError_retry_count.
Proof.
  apply (calls_for_a_missing_task 7 pending None blank_world); reflexivity.
Defined.

Lemma on_error_missing t e w :
  fault (io w (issued w)) = None →
  fault (io w (S (issued w))) = None →
  sql_select_by_id (id t) (db w) = None →
  on_error t e w =
    (Throw TypeError_retry_count,
     after w (db w) 2
       [ Console (error_failed (id t) e);
         Db (call_incrementRetryCount (id t) (Some e)); Db (call_getTask (id t)) ]).
Proof.
  intros Hf0 Hf1 Hk. unfold on_error. cbv [mbind M_bind console emit]. simpl.
  rewrite incrementRetryCount_missing by done.
  unfold after. simpl. by rewrite <- !(assoc_L (++)).
Qed.

Section execution_outcomes.
Context `{Runtime}.

(** X6: a job whose row is gone from the table (deleted after the poll
    read it).  When its handler returns, [executeTask] fulfils having
    written the "completed successfully" line; when its handler throws,
    or none is registered, the [catch] block itself throws the TypeError
    and [executeTask] rejects.  The table is left as it was. *)
Theorem executeTask_of_a_deleted_task hs t w :
  healthy w →
  sql_select_by_id (id t) (db w) = None →
  db (executeTask hs t w).2 = db w ∧
  (∀ h, get_handler hs (name t) = Some h →
        invoke h (parse_payload t) t = Ok tt →
        (executeTask hs t w).1 = Ok tt ∧
        Console (log_completed (id t)) ∈ new_events w (executeTask hs t w).2) ∧
  (∀ h e, get_handler hs (name t) = Some h →
          invoke h (parse_payload t) t = Throw e →
          (executeTask hs t w).1 = Throw TypeError_retry_count) ∧
  (get_handler hs (name t) = None →
   (executeTask hs t w).1 = Throw TypeError_retry_count).
Proof.
  intros Hw Hk.
  pose proof (healthy_at w 0 Hw) as H0.
  pose proof (healthy_at w 1 Hw) as H1.
  pose proof (healthy_at w 2 Hw) as H2. simpl in H0, H1, H2.
  assert (∀ e, on_error t e (claimed t w)
             = (Throw TypeError_retry_count,
                after (claimed t w) (db w) 2
                  [ Console (error_failed (id t) e);
                    Db (call_incrementRetryCount (id t) (Some e));
                    Db (call_getTask (id t)) ])) as Hclaimed.
  { intros e. rewrite on_error_missing; unfold claimed; simpl;
      rewrite ?update_where_missing by done; done. }
  assert (∀ e, on_error t e (handled t w)
             = (Throw TypeError_retry_count,
                after (handled t w) (db w) 2
                  [ Console (error_failed (id t) e);
                    Db (call_incrementRetryCount (id t) (Some e));
                    Db (call_getTask (id t)) ])) as Hhandled.
  { intros e. rewrite on_error_missing; unfold handled; simpl;
      rewrite ?update_where_missing by done; done. }
  split; [|split; [|split]].
  - destruct (get_handler hs (name t)) as [h|] eqn:Hh.
    + destruct (invoke h (parse_payload t) t) as [[]|e|v] eqn:He.
      * erewrite executeTask_handler_returns by done. simpl.
        rewrite (update_where_missing (id t) (set_started (time w 0)) (db w))
          by done.
        by rewrite update_where_missing.
      * erewrite executeTask_handler_throws by done. by rewrite Hhandled.
      * erewrite executeTask_handler_rejects by done. unfold handled. simpl.
        by rewrite update_where_missing.
    + rewrite executeTask_no_handler by done. by rewrite Hclaimed.
  - intros h Hh He. erewrite executeTask_handler_returns by done.
    split; [done|]. unfold new_events, after. simpl.
    rewrite drop_app_length. rewrite !elem_of_cons. tauto.
  - intros h e Hh He. erewrite executeTask_handler_throws by done.
    by rewrite Hhandled.
  - intros Hh. rewrite executeTask_no_handler by done. by rewrite Hclaimed.
Qed.

(** X7: a store error inside the [catch] block.  The claim went
    through, the handler failed (or none is registered), and the UPDATE
    of [incrementRetryCount] is rejected: [executeTask] rejects with the
    store error, and the task is left [processing], with the retry count
    it had; as the poll query reads pending rows only, it does not return
    the task, whatever the limit. *)
Theorem store_error_in_catch_leaves_task_processing hs t r w e' :
  fault (io w (issued w)) = None →
  fault (io w (S (issued w))) = Some e' →
  sql_select_by_id (id t) (db w) = Some r →
  (get_handler hs (name t) = None ∨
   ∃ h e, get_handler hs (name t) = Some h ∧
          invoke h (parse_payload t) t = Throw e) →
  let run := executeTask hs t w in
  run.1 = Throw e' ∧
  sql_select_by_id (id t) (db run.2) = Some (set_started (time w 0) r) ∧
  status (set_started (time w 0) r) = processing ∧
  retry_count (set_started (time w 0) r) = retry_count r ∧
  ∀ limit t', t' ∈ sql_select_pending limit (db run.2) → id t' ≠ id t.
Proof.
  intros Hf0 Hf1 Hr Hfail run.
  assert (∀ e w1, io w1 = io w → issued w1 = S (issued w) →
            db w1 = update_where (id t) (set_started (time w 0)) (db w) →
            (on_error t e w1).1 = Throw e' ∧ db (on_error t e w1).2 = db w1)
    as Hcatch.
  { intros e w1 Hio Hissued Hdb.
    unfold on_error, incrementRetryCount. run_monad.
    by rewrite Hio, Hissued, Hf1. }
  assert (run.1 = Throw e' ∧
          db run.2 = update_where (id t) (set_started (time w 0)) (db w))
    as [Hrun Hdb].
  { unfold run. destruct Hfail as [Hh|(h & e & Hh & He)].
    - rewrite executeTask_no_handler by done.
      destruct (Hcatch ("No handler registered for task type: " +:+ name t)
                  (claimed t w)) as [-> ->]; done.
    - erewrite executeTask_handler_throws by done.
      destruct (Hcatch e (handled t w)) as [-> ->]; done. }
  split; [done|]. rewrite Hdb.
  split; [by rewrite select_by_id_update_eq, Hr|].
  split; [done|]. split; [done|].
  intros limit t' [Ht' [Hst _]]%select_pending_rows Hid.
  apply elem_of_update_where in Ht' as (r0 & _ & ->).
  case_bool_decide as Hk; [done|]. congruence.
Qed.

(** X8: what an execution leaves, when the store accepts its
    statements and the task is in the table.  The rows of the other
    tasks are as they were.  When the handler returns, throws an [Error]
    or is missing, [executeTask] fulfils and the task is never left
    [processing]: it is [completed] exactly when a handler was found and
    returned, else [failed] when the failure used up the retries and
    [pending] otherwise; its retry count went up by one exactly when it
    is not completed.  When the handler rejects with [null] or
    [undefined], the [catch] block throws at its first line:
    [executeTask] rejects with that TypeError, nothing is logged or
    recorded, and the task is left [processing] with the retry count it
    had. *)
Theorem executeTask_outcome hs t r w :
  healthy w →
  sql_select_by_id (id t) (db w) = Some r →
  let run := executeTask hs t w in
  let returned :=
    ∃ h, get_handler hs (name t) = Some h ∧
         invoke h (parse_payload t) t = Ok tt in
  (∀ k, k ≠ id t → sql_select_by_id k (db run.2) = sql_select_by_id k (db w)) ∧
  (rejects_nullish hs t = false →
   run.1 = Ok tt ∧
   ∃ r', sql_select_by_id (id t) (db run.2) = Some r' ∧
         status r' ≠ processing ∧
         (status r' = completed ↔ returned) ∧
         (status r' = failed ↔ ¬ returned ∧ max_retries t ≤ retry_count r + 1) ∧
         (status r' = pending ↔ ¬ returned ∧ retry_count r + 1 < max_retries t) ∧
         (returned → retry_count r' = retry_count r) ∧
         (¬ returned → retry_count r' = retry_count r + 1)) ∧
  (∀ h v, get_handler hs (name t) = Some h →
          invoke h (parse_payload t) t = Reject v →
          run.1 = Throw (TypeError_message v) ∧
          sql_select_by_id (id t) (db run.2) = Some (set_started (time w 0) r) ∧
          status (set_started (time w 0) r) = processing ∧
          retry_count (set_started (time w 0) r) = retry_count r ∧
          (∀ e, Console (error_failed (id t) e) ∉ new_events w run.2) ∧
          (∀ e, Db (call_incrementRetryCount (id t) e) ∉ new_events w run.2)).
Proof.
  intros Hw Hr run returned.
  pose proof (healthy_at w 0 Hw) as H0.
  pose proof (healthy_at w 1 Hw) as H1. simpl in H0, H1.
  set (r1 := set_started (time w 0) r).
  assert (∀ e w1, healthy w1 →
            db w1 = update_where (id t) (set_started (time w 0)) (db w) →
            ¬ returned →
            (∀ k, k ≠ id t →
               sql_select_by_id k (db (on_error t e w1).2)
               = sql_select_by_id k (db w)) ∧
            (on_error t e w1).1 = Ok tt ∧
            ∃ r', sql_select_by_id (id t) (db (on_error t e w1).2) = Some r' ∧
                  status r' ≠ processing ∧
                  (status r' = completed ↔ returned) ∧
                  (status r' = failed
                     ↔ ¬ returned ∧ max_retries t ≤ retry_count r + 1) ∧
                  (status r' = pending
                     ↔ ¬ returned ∧ retry_count r + 1 < max_retries t) ∧
                  (returned → retry_count r' = retry_count r) ∧
                  (¬ returned → retry_count r' = retry_count r + 1)) as Hcatch.
  { intros e w1 Hw1 Hdb Hnot.
    assert (sql_select_by_id (id t) (db w1) = Some r1) as Hr1
      by (by rewrite Hdb, select_by_id_update_eq, Hr).
    rewrite (on_error_run t e w1 r1) by done. cbn [fst snd].
    split.
    { intros k Hk. rewrite on_error_other, Hdb by done.
      by rewrite select_by_id_update_ne. }
    split; [done|].
    destruct (on_error_row t e r1 w1 Hr1) as (r' & -> & Hc & _ & Hs & _).
    exists r'. split; [done|]. change (retry_count r1) with (retry_count r) in *.
    rewrite Hs, Hc. case_bool_decide; repeat split; try done; try lia;
      intros; try tauto; try lia; try (destruct_and?; done). }
  unfold run. destruct (get_handler hs (name t)) as [h|] eqn:Hh.
  - destruct (invoke h (parse_payload t) t) as [[]|e|v] eqn:He.
    + assert returned as Hret by (exists h; done).
      erewrite executeTask_handler_returns by done. cbn [fst snd after db].
      split.
      { intros k Hk. by rewrite !select_by_id_update_ne. }
      split; [|intros h' v' [= <-]; congruence].
      intros _. split; [done|].
      exists (set_completed (time w 1) r1).
      rewrite !select_by_id_update_eq, Hr by done. simpl.
      repeat split; try done; try tauto.
    + assert (¬ returned) as Hnot
        by (intros (h' & Hh' & He'); congruence).
      erewrite executeTask_handler_throws by done.
      destruct (Hcatch e (handled t w)) as (Hothers & Hrun);
        [by apply healthy_after|done..|].
      split; [done|]. split; [done|]. intros h' v' [= <-]. congruence.
    + erewrite executeTask_handler_rejects by done. unfold handled.
      cbn [fst snd after db].
      split.
      { intros k Hk. by rewrite !select_by_id_update_ne. }
      split.
      { unfold rejects_nullish. rewrite Hh, He. discriminate. }
      intros h' v' [= <-] Hv. assert (v' = v) as -> by congruence.
      split; [done|]. split; [by rewrite select_by_id_update_eq, Hr|].
      split; [done|]. split; [done|].
      split; intros e; unfold new_events; simpl; rewrite drop_app_length;
        rewrite !elem_of_cons, elem_of_nil; intros [|[|[|]]]; done.
  - assert (¬ returned) as Hnot by (intros (h' & Hh' & _); congruence).
    rewrite executeTask_no_handler by done.
    destruct (Hcatch ("No handler registered for task type: " +:+ name t)
                (claimed t w)) as (Hothers & Hrun);
      [by apply healthy_after|done..|].
    split; [done|]. split; [done|]. by intros h' v'.
Qed.

End execution_outcomes.

(** A job for task 1, the table being empty, and no handler. *)
Lemma deleted_task_witness :
  (executeTask ∅ report_task blank_world).1 = Throw TypeError_retry_count.
Proof.
  apply (executeTask_of_a_deleted_task ∅ report_task blank_world).
  - intros n. reflexivity.
  - reflexivity.
  - reflexivity.
Defined.

(** The claim is accepted, the UPDATE of [incrementRetryCount] is not. *)
Lemma store_error_in_catch_witness :
  (executeTask ∅ report_task (world_of [report_task] (busy_at 1))).1
  = Throw "SQLITE_BUSY: database is locked".
Proof.
  apply (store_error_in_catch_leaves_task_processing ∅ report_task report_task
           (world_of [report_task] (busy_at 1))).
  - reflexivity.
  - reflexivity.
  - reflexivity.
  - left. reflexivity.
Defined.

(** No handler is registered: the execution fulfils all the same. *)
Lemma executeTask_outcome_witness :
  (executeTask ∅ report_task (world_of [report_task] (steady 10))).1 = Ok tt.
Proof.
  destruct (executeTask_outcome ∅ report_task report_task
              (world_of [report_task] (steady 10))) as (_ & Hok & _).
  - intros n. reflexivity.
  - reflexivity.
  - apply Hok. reflexivity.
Defined.

(** ** Polling *)

Section polling.
Context `{Runtime}.

Lemma poll_fulfils s w :
  ∃ batch,
    (poll s w).1 = Ok (Service (taskHandlers s) (isRunning s) (queue s ++ batch)) ∧
    db (poll s w).2 = db w ∧
    ∀ t, t ∈ batch → t ∈ rows (db w) ∧ eligible t.
Proof.
  destruct s as [hs [] q]; simpl.
  - destruct (fault (io w (issued w))) as [e|] eqn:Hf.
    + exists []. unfold poll, getPendingTasks. run_monad. rewrite Hf. simpl.
      rewrite (right_id_L [] (++)). split; [done|]. split; [done|].
      by intros t Ht%elem_of_nil.
    + exists (sql_select_pending 10 (db w)). rewrite poll_run by done. simpl.
      destruct (queue_foldl_queueTask (Service hs true q)
                  (sql_select_pending 10 (db w))) as (Hq & Hh & Hr).
      split; [|split; [done|intros t; apply select_pending_rows]].
      destruct (foldl queueTask _ _) as [hs' b' q']. simpl in *. congruence.
  - exists []. rewrite (right_id_L [] (++)). split; [done|]. split; [done|].
    by intros t Ht%elem_of_nil.
Qed.

(** X9: [poll] never rejects and never writes to the table.  It
    fulfils with the service's queue extended by a batch of at most 10
    rows of the table, each pending with retries left, and with the
    handlers and the running flag as they were.  The batch is what the
    poll query returns when the service is running and the driver accepts
    the query; it is empty when the service is not running (no statement
    is issued then), and when the driver rejects the query (the error is
    logged). *)
Theorem poll_never_rejects s w :
  ∃ batch,
    (poll s w).1 = Ok (Service (taskHandlers s) (isRunning s) (queue s ++ batch)) ∧
    db (poll s w).2 = db w ∧
    (length batch ≤ 10)%nat ∧
    (∀ t, t ∈ batch → t ∈ rows (db w) ∧ eligible t) ∧
    (isRunning s = true ∧ fault (io w (issued w)) = None →
     batch = sql_select_pending 10 (db w)) ∧
    (isRunning s = false → batch = [] ∧ (poll s w).2 = w) ∧
    (∀ e, isRunning s = true ∧ fault (io w (issued w)) = Some e →
          batch = [] ∧ Console (error_polling e) ∈ new_events w (poll s w).2).
Proof.
  destruct s as [hs [] q]; simpl.
  - destruct (fault (io w (issued w))) as [e|] eqn:Hf.
    + exists []. unfold poll, getPendingTasks. run_monad. rewrite Hf. simpl.
      rewrite (right_id_L [] (++)). split; [done|]. split; [done|].
      split; [lia|]. split; [by intros t Ht%elem_of_nil|].
      split; [by intros [_ ?]|]. split; [done|].
      intros e' [_ [= <-]]. split; [done|].
      unfold new_events. simpl. rewrite <- (assoc_L (++)), drop_app_length.
      simpl. rewrite !elem_of_cons. tauto.
    + exists (sql_select_pending 10 (db w)). rewrite poll_run by done. simpl.
      destruct (queue_foldl_queueTask (Service hs true q)
                  (sql_select_pending 10 (db w))) as (Hq & Hh & Hr).
      split.
      { destruct (foldl queueTask _ _) as [hs' b' q']. simpl in *. congruence. }
      split; [done|]. split.
      { pose proof (sql_limit_length 10
          (sql_order_by (filter eligible (rows (db w))))) as Hlen.
        unfold sql_select_pending. lia. }
      split; [intros t; apply select_pending_rows|].
      split; [done|]. split; [done|]. by intros e [_ ?].
  - exists []. rewrite (right_id_L [] (++)).
    split; [done|]. split; [done|]. split; [simpl; lia|].
    split; [by intros t Ht%elem_of_nil|]. split; [by intros [? _]|].
    split; [done|]. by intros e [? _].
Qed.

End polling.

(** ** Statistics and clearing *)

Lemma sum_case_status s l :
  foldr Z.add 0 (case_status s <$> l)
  = Z.of_nat (length (filter (λ t, status t = s) l)).
Proof.
  induction l as [|t l IH]; [done|].
  rewrite fmap_cons, filter_cons. simpl. rewrite IH. unfold case_status.
  destruct (decide (status t = s)).
  - rewrite bool_decide_eq_true_2 by done. simpl. lia.
  - rewrite bool_decide_eq_false_2 by done. lia.
Qed.

Lemma count_status_total d :
  count_status pending d + count_status processing d
  + count_status completed d + count_status failed d
  = Z.of_nat (length (rows d)).
Proof.
  unfold count_status. induction (rows d) as [|t l IH]; [done|].
  rewrite !filter_cons.
  destruct (status t); simpl;
    repeat (first [rewrite decide_True by done | rewrite decide_False by done]);
    simpl; lia.
Qed.

(** X10: [getStats] resolves with one row and leaves the table as it
    is.  [total] is the number of rows.  On a table with at least one row
    [pending], [processing], [completed] and [failed] are the numbers of
    rows with that status, and add up to [total]; on the empty table all
    four are NULL, not 0. *)
Theorem getStats_counts w :
  fault (io w (issued w)) = None →
  ∃ st,
    (getStats w).1 = Ok (Some st) ∧ db (getStats w).2 = db w ∧
    Stats.total st = Z.of_nat (length (rows (db w))) ∧
    (rows (db w) = [] →
       Stats.pending st = None ∧ Stats.processing st = None ∧
       Stats.completed st = None ∧ Stats.failed st = None) ∧
    (rows (db w) ≠ [] →
       Stats.pending st = Some (count_status pending (db w)) ∧
       Stats.processing st = Some (count_status processing (db w)) ∧
       Stats.completed st = Some (count_status completed (db w)) ∧
       Stats.failed st = Some (count_status failed (db w)) ∧
       count_status pending (db w) + count_status processing (db w)
       + count_status completed (db w) + count_status failed (db w)
       = Stats.total st).
Proof.
  intros Hf. exists (sql_select_stats (db w)).
  unfold getStats, dbGet_row. rewrite Hf. simpl.
  split; [done|]. split; [done|]. split; [done|]. split.
  - by intros ->.
  - intros Hne. unfold count_status. rewrite <- !sum_case_status.
    destruct (rows (db w)) as [|t l] eqn:Hl; [done|].
    repeat (split; [done|]).
    rewrite !sum_case_status. rewrite <- Hl. apply count_status_total.
Qed.

(** Three pending tasks. *)
Lemma getStats_witness :
  ∃ st, (getStats (world_of [routine; urgent; later] (steady 10))).1 = Ok (Some st) ∧
        Stats.total st = 3.
Proof.
  destruct (getStats_counts (world_of [routine; urgent; later] (steady 10)))
    as (st & Hrun & _ & Htotal & _).
  - reflexivity.
  - exists st. split; [exact Hrun|exact Htotal].
Defined.

Section clearing.
Context `{Runtime}.

(** X11: [clearAllTasks] deletes every row and keeps the AUTOINCREMENT
    counter.  Right after it the poll query returns no row, [getTask]
    finds no task, [getStats] resolves with [total = 0] and NULL for the
    four sums, and [addTask] resolves with the id after the last one
    handed out: ids of deleted tasks are not given again. *)
Theorem clearAllTasks_empties_the_table w :
  fault (io w (issued w)) = None →
  fault (io w (S (issued w))) = None →
  rows (db (clearAllTasks w).2) = [] ∧
  sequence (db (clearAllTasks w).2) = sequence (db w) ∧
  (∀ limit, ((_ ← clearAllTasks; getPendingTasks limit) w).1 = Ok []) ∧
  (∀ k, ((_ ← clearAllTasks; getTask k) w).1 = Ok None) ∧
  ((_ ← clearAllTasks; getStats) w).1
    = Ok (Some (Stats.make 0 None None None None)) ∧
  (∀ n p pl m, ((_ ← clearAllTasks; addTask n p pl m) w).1
               = Ok (sequence (db w) + 1)).
Proof.
  intros Hf0 Hf1. unfold clearAllTasks, getPendingTasks, getTask, getStats,
    dbGet_row, addTask. run_monad. rewrite Hf0. simpl. rewrite Hf1. simpl.
  split; [done|]. split; [done|]. split; [|done].
  intros limit. unfold sql_select_pending, sql_limit. simpl.
  case_bool_decide; [done|]. by rewrite take_nil.
Qed.

End clearing.

(** A table with one task is cleared. *)
Lemma clearAllTasks_witness :
  ((_ ← clearAllTasks; getStats) (world_of [report_task] (steady 10))).1
  = Ok (Some (Stats.make 0 None None None None)).
Proof.
  apply (clearAllTasks_empties_the_table (world_of [report_task] (steady 10)));
    reflexivity.
Defined.

(** ** Setting a status by hand *)

(** X12: [updateTaskStatus] writes the status it is given, the error
    message (NULL when none is given: an earlier message is erased) and
    [updated_at], and nothing else: the retry count, [started_at] and
    [completed_at] stay, and so do the other rows.  The task is then
    returned by the poll query exactly when the status is [pending] and
    the retries are not used up: setting an exhausted task back to
    [pending] does not make it run again. *)
Theorem updateTaskStatus_writes_status_and_message k s e w r :
  fault (io w (issued w)) = None →
  sql_select_by_id k (db w) = Some r →
  let run := updateTaskStatus k s e w in
  ∃ r',
    (∃ n, run.1 = Ok n) ∧
    sql_select_by_id k (db run.2) = Some r' ∧
    status r' = s ∧ error_message r' = e ∧ updated_at r' = time w 0 ∧
    retry_count r' = retry_count r ∧ started_at r' = started_at r ∧
    completed_at r' = completed_at r ∧ same_task r r' ∧
    (∀ k', k' ≠ k → sql_select_by_id k' (db run.2) = sql_select_by_id k' (db w)) ∧
    (eligible r' ↔ s = pending ∧ retry_count r < max_retries r).
Proof.
  intros Hf Hr run. exists (set_status (time w 0) s e r).
  unfold run, updateTaskStatus. run_monad. rewrite Hf. simpl.
  split; [eauto|]. split; [by rewrite select_by_id_update_eq, Hr|].
  repeat (split; [done|]).
  split; [intros k' Hk'; by rewrite select_by_id_update_ne|done].
Qed.

(** Task 1 is given up by hand. *)
Lemma updateTaskStatus_witness :
  ∃ r', sql_select_by_id 1
          (db (updateTaskStatus 1 failed (Some "gave up")
                 (world_of [report_task] (steady 10))).2) = Some r' ∧
        status r' = failed.
Proof.
  destruct (updateTaskStatus_writes_status_and_message 1 failed (Some "gave up")
              (world_of [report_task] (steady 10)) report_task)
    as (r' & _ & Hr' & Hst & _).
  - reflexivity.
  - reflexivity.
  - exists r'. split; [exact Hr'|exact Hst].
Defined.

(** ** Interleaved executions: processing tasks, tasks without retries *)

Lemma elem_of_replaced (l : list execution) i x x' x0 :
  l !! i = Some x → x0 ∈ l → x0 ≠ x →
  x0 ∈ take i l ++ option_list x' ++ drop (S i) l.
Proof.
  intros Hi Hx0 Hne. apply running_others.
  by destruct (running_cases l i x x0 Hi Hx0).
Qed.

Lemma holding_not x x' k :
  holding k x' → id (job x) ≠ k ∨ (∃ e, stands x = at_read e) ∨
                 (∃ e n, stands x = at_check e n) → x' ≠ x.
Proof.
  intros [Hid Hst] Hx ->. destruct Hx as [?|[[e He]|(e & n & He)]]; [done|..];
    rewrite He in Hst; destruct Hst as [?|[?|[? ?]]]; done.
Qed.

Section more_invariants.
Context `{Runtime}.

Lemma advance_from_handler hs now t d :
  rejects_with_errors hs →
  ∃ pt, advance hs now (Execution t at_handler) d = (d, Some (Execution t pt)) ∧
        (pt = at_complete ∨ ∃ e, pt = at_catch e).
Proof.
  intros Hhs. unfold advance. simpl.
  destruct (get_handler hs (name t)) as [h|] eqn:Hh; [|eauto].
  destruct (invoke h (parse_payload t) t) as [[]|e|v] eqn:He; [eauto..|].
  by destruct (Hhs t h v Hh).
Qed.

Lemma processing_held_act hs a s s' :
  rejects_with_errors hs →
  processing_held s → act hs a s = Some s' → processing_held s'.
Proof.
  intros Hhs Hs. destruct a as [now n p pl m| |now|i now]; simpl.
  - intros [= <-] r. simpl.
    intros [Hr|Hr%list_elem_of_singleton]%elem_of_app Hst; [by apply Hs|].
    by subst r.
  - intros [= <-]. done.
  - destruct (waiting s) as [|t q] eqn:Hw; [done|]. intros [= <-] r'. simpl.
    intros (r & Hr & ->)%elem_of_update_where Hst. case_bool_decide as Hk.
    + exists (Execution t at_handler).
      split; [apply elem_of_app; right; by apply list_elem_of_singleton|].
      split; [done|by left].
    + destruct (Hs r Hr Hst) as (x & Hx & Hhold).
      exists x. split; [apply elem_of_app; by left|done].
  - destruct (running s !! i) as [[t pt]|] eqn:Hi; [|done].
    destruct pt as [| |e|e|e n].
    + destruct (advance_from_handler hs now t (store s) Hhs) as (pt & -> & Hpt).
      intros [= <-] r Hr Hst. simpl in *.
      destruct (Hs r Hr Hst) as (x & Hx & Hhold).
      destruct (running_cases _ i _ x Hi Hx) as [->|Hin].
      * exists (Execution t pt).
        split; [apply elem_of_app; right; apply elem_of_cons; by left|].
        destruct Hhold as [Hid _]. split; [done|]. tauto.
      * exists x. split; [|done]. by apply (running_others _ i (Some _)).
    + unfold advance. simpl. intros [= <-] r'. simpl.
      intros (r & Hr & ->)%elem_of_update_where Hst.
      case_bool_decide as Hk; [done|].
      destruct (Hs r Hr Hst) as (x & Hx & Hhold).
      exists x. split; [|done].
      apply (elem_of_replaced _ i (Execution t at_complete) None); [done..|].
      apply (holding_not _ _ (id r)); [done|]. left. simpl. congruence.
    + unfold advance. simpl. intros [= <-] r'. simpl.
      intros (r & Hr & ->)%elem_of_update_where Hst.
      case_bool_decide as Hk; [done|].
      destruct (Hs r Hr Hst) as (x & Hx & Hhold).
      exists x. split; [|done].
      apply (elem_of_replaced _ i (Execution t (at_catch e)) (Some _)); [done..|].
      apply (holding_not _ _ (id r)); [done|]. left. simpl. congruence.
    + unfold advance. simpl.
      destruct (sql_select_by_id (id t) (store s)) as [r0|];
        intros [= <-] r Hr Hst; simpl in *;
        destruct (Hs r Hr Hst) as (x & Hx & Hhold);
        (exists x; split; [|done]).
      * apply (elem_of_replaced _ i (Execution t (at_read e)) (Some _)); [done..|].
        apply (holding_not _ _ (id r)); [done|]. right. left. by exists e.
      * apply (elem_of_replaced _ i (Execution t (at_read e)) None); [done..|].
        apply (holding_not _ _ (id r)); [done|]. right. left. by exists e.
    + unfold advance. simpl. case_bool_decide as Hn; intros [= <-] r'; simpl.
      * intros (r & Hr & ->)%elem_of_update_where Hst.
        case_bool_decide as Hk; [done|].
        destruct (Hs r Hr Hst) as (x & Hx & Hhold).
        exists x. split; [|done].
        apply (elem_of_replaced _ i (Execution t (at_check e n)) None); [done..|].
        apply (holding_not _ _ (id r)); [done|]. left. simpl. congruence.
      * intros Hr Hst. destruct (Hs r' Hr Hst) as (x & Hx & Hhold).
        exists x. split; [|done].
        apply (elem_of_replaced _ i (Execution t (at_check e n)) None); [done..|].
        apply (holding_not _ _ (id r')); [done|]. right. right. by exists e, n.
Qed.

Lemma processing_held_run hs acts s s' :
  rejects_with_errors hs →
  processing_held s → run hs acts s = Some s' → processing_held s'.
Proof.
  intros Hhs. revert s. induction acts as [|a acts IH]; intros s Hs; simpl.
  - by intros [= <-].
  - destruct (act hs a s) as [s1|] eqn:Ha; [|done].
    apply IH. by eapply processing_held_act.
Qed.

(** X13: while the store accepts the statements and no handler
    rejects with [null] or [undefined], a task is [processing] only while
    an execution of it is in flight that has claimed it and has not yet
    written its outcome (it stands before the handler, before
    [markTaskCompleted] or at the start of the [catch] block).  When no
    execution is in flight, no task is [processing]. *)
Theorem processing_task_is_in_flight hs s :
  rejects_with_errors hs →
  reachable hs s →
  (∀ r, r ∈ rows (store s) → status r = processing →
        ∃ x, x ∈ running s ∧ holding (id r) x) ∧
  (running s = [] → ∀ r, r ∈ rows (store s) → status r ≠ processing).
Proof.
  intros Hhs [acts Hrun].
  assert (processing_held s) as Hs.
  { eapply processing_held_run; [done| |done]. by intros r Hr%elem_of_nil. }
  split; [done|]. intros Hidle r Hr Hst.
  destruct (Hs r Hr Hst) as (x & Hx & _). rewrite Hidle in Hx.
  by apply elem_of_nil in Hx.
Qed.

End more_invariants.

(** With the example runtime, the members of [Object.prototype] return
    or throw an [Error]. *)
Lemma rejects_with_errors_insert n (h : handler) hs :
  (∀ arg t v, h arg t ≠ Reject v) →
  rejects_with_errors hs → rejects_with_errors (<[n := h]> hs).
Proof.
  intros Hh Hhs t h' v. unfold get_handler.
  destruct (decide (n = name t)) as [->|Hn].
  - rewrite lookup_insert_eq. intros [= <-]. apply Hh.
  - rewrite lookup_insert_ne by done. apply Hhs.
Qed.

Lemma rejects_with_errors_empty : rejects_with_errors ∅.
Proof.
  intros t h v. unfold get_handler. rewrite lookup_empty.
  case_bool_decide; [|done]. intros [= <-]. simpl.
  unfold scalar_prototype_call. by case_bool_decide.
Qed.

Lemma rejects_with_errors_quiet n : rejects_with_errors {[ n := quiet ]}.
Proof.
  apply rejects_with_errors_insert; [done|apply rejects_with_errors_empty].
Qed.

(** Task 1 has been claimed; its execution stands before the handler. *)
Lemma processing_task_witness :
  ∃ x, x ∈ running claimed_state ∧ holding (id claimed_row) x.
Proof.
  apply (processing_task_is_in_flight ∅ claimed_state).
  - apply rejects_with_errors_empty.
  - exists claimed_once. vm_compute. reflexivity.
  - apply list_elem_of_singleton. reflexivity.
  - reflexivity.
Defined.

(** A handler that rejects with [undefined] leaves its task
    [processing] with nothing in flight: the execution ends in the first
    line of the [catch] block. *)
Example stranded_by_a_nullish_rejection :
  run {[ "report" := silent ]} (claimed_once ++ [do_advance 0 20]) initial
  = Some (System (Database [claimed_row] 1) [] []) ∧
  (executeTask {[ "report" := silent ]} report_task
     (world_of [report_task] (steady 10))).1
  = Throw "Cannot read properties of undefined (reading 'message')" ∧
  status <$> sql_select_by_id 1
    (db (executeTask {[ "report" := silent ]} report_task
           (world_of [report_task] (steady 10))).2)
  = Some processing.
Proof. repeat split; vm_compute; reflexivity. Qed.


Lemma job_row_has_retries s t r :
  consistent s → retries_accounted s →
  t ∈ waiting s ++ (job <$> running s) →
  r ∈ rows (store s) → id r = id t → 0 < max_retries r.
Proof.
  intros Hc Ha Ht Hr Hid.
  destruct (jobs_known s Hc t Ht) as (r0 & Hr0 & Hid0 & Hmax0).
  assert (r0 = r) as -> by (apply (unique_row (store s)); [apply Hc|..]; congruence).
  rewrite Hmax0. by apply (jobs_had_retries s Ha).
Qed.

Lemma retries_accounted_jobs s q rn :
  retries_accounted s →
  (∀ t, t ∈ q ++ (job <$> rn) → t ∈ waiting s ++ (job <$> running s)) →
  retries_accounted (System (store s) q rn).
Proof.
  intros [Hn Hj Hu] Hsub. split; cbn [store waiting running]; [done| |done].
  intros t Ht. by apply Hj, Hsub.
Qed.

Lemma retries_accounted_update s t set q rn :
  consistent s → retries_accounted s →
  t ∈ waiting s ++ (job <$> running s) →
  keeps_task set →
  (∀ t', t' ∈ q ++ (job <$> rn) → t' ∈ waiting s ++ (job <$> running s)) →
  retries_accounted (System (update_where (id t) set (store s)) q rn).
Proof.
  intros Hc Ha Ht Hset Hsub. split; cbn [store waiting running].
  - intros r' (r & Hr & ->)%elem_of_update_where.
    pose proof (retries_nonneg s Ha r Hr). case_bool_decide; [|done].
    destruct (Hset r) as [_ ?]. lia.
  - intros t' Ht'. by apply (jobs_had_retries s Ha), Hsub.
  - intros r' (r & Hr & ->)%elem_of_update_where. case_bool_decide as Hk.
    + destruct (Hset r) as [(_ & _ & _ & _ & -> & _) _]. intros Hmax.
      pose proof (job_row_has_retries s t r Hc Ha Ht Hr Hk). lia.
    + by apply (no_retries_untouched s Ha).
Qed.

Section tasks_without_retries.
Context `{Runtime}.

Lemma advance_table hs now x d :
  (advance hs now x d).1 = d ∨
  ∃ set, keeps_task set ∧ (advance hs now x d).1 = update_where (id (job x)) set d.
Proof.
  unfold advance. destruct (stands x) as [| |e|e|e n]; simpl.
  - left. by repeat case_match.
  - right. eexists. split; [apply keeps_task_completed|done].
  - right. eexists. split; [apply keeps_task_retry|done].
  - left. by case_match.
  - case_bool_decide; [right|by left].
    eexists. split; [apply keeps_task_status|done].
Qed.

Lemma retries_accounted_act hs a s s' :
  consistent s → retries_accounted s → act hs a s = Some s' →
  retries_accounted s'.
Proof.
  intros Hc Ha. destruct a as [now n p pl m| |now|i now]; simpl.
  - intros [= <-]. destruct Ha as [Hn Hj Hu].
    split; cbn [store waiting running sql_insert rows]; [| done |].
    + intros r [Hr|Hr%list_elem_of_singleton]%elem_of_app; [by apply Hn|].
      by subst r.
    + intros r [Hr|Hr%list_elem_of_singleton]%elem_of_app; [by apply Hu|].
      by subst r.
  - intros [= <-]. destruct Ha as [Hn Hj Hu].
    split; cbn [store waiting running]; [done| |done].
    intros t. rewrite <- (assoc_L (++)), elem_of_app, (elem_of_app _ (job <$> _)).
    intros [Ht|[Ht|Ht]].
    + apply Hj, elem_of_app. by left.
    + apply select_pending_rows in Ht as [Ht [_ Hlt]].
      apply Hn in Ht. lia.
    + apply Hj, elem_of_app. by right.
  - destruct (waiting s) as [|t q] eqn:Hw; [done|]. intros [= <-].
    apply retries_accounted_update; [done|done| |apply keeps_task_started|].
    + rewrite Hw. apply elem_of_app. left. by left.
    + intros t'. rewrite Hw, fmap_app, !elem_of_app, elem_of_cons. simpl.
      rewrite list_elem_of_singleton. tauto.
  - destruct (running s !! i) as [x|] eqn:Hi; [|done].
    pose proof (running_jobs (running s) i x (advance hs now x (store s)).2
                  (waiting s)) as Hjobs.
    specialize (λ t, Hjobs t Hi (advance_job hs now x (store s))).
    assert (job x ∈ waiting s ++ (job <$> running s)) as Hx.
    { apply elem_of_app. right. apply list_elem_of_fmap. exists x.
      split; [done|]. by eapply list_elem_of_lookup_2. }
    destruct (advance_table hs now x (store s)) as [Hd|(set & Hset & Hd)];
      destruct (advance hs now x (store s)) as [d x']; simpl in *; subst d;
      intros [= <-].
    + by apply retries_accounted_jobs.
    + by apply retries_accounted_update.
Qed.

Lemma retries_accounted_run hs acts s s' :
  consistent s → retries_accounted s → run hs acts s = Some s' →
  retries_accounted s'.
Proof.
  revert s. induction acts as [|a acts IH]; intros s Hc Ha; simpl.
  - by intros [= <-].
  - destruct (act hs a s) as [s1|] eqn:Hact; [|done].
    apply IH; [by eapply act_consistent|by eapply retries_accounted_act].
Qed.

(** X14: a task with no retry allowed ([maxRetries] 0 or less) is never
    run.  The poll query asks for [retry_count < max_retries], so with the
    store accepting the statements, in every state the service reaches
    such a task is in no job, queued or in flight, and its row is as
    [addTask] wrote it: pending, no retry, no error, never started, never
    completed. *)
Theorem task_without_retries_is_never_run hs s r :
  reachable hs s →
  r ∈ rows (store s) → max_retries r ≤ 0 →
  (∀ t, t ∈ waiting s ++ (job <$> running s) → id t ≠ id r) ∧
  status r = pending ∧ retry_count r = 0 ∧ error_message r = None ∧
  updated_at r = created_at r ∧ started_at r = None ∧ completed_at r = None.
Proof.
  intros Hreach Hr Hmax.
  pose proof (reachable_consistent hs s Hreach) as Hc.
  destruct Hreach as [acts Hrun].
  assert (retries_accounted s) as Ha.
  { eapply retries_accounted_run; [apply consistent_initial| |done].
    split; simpl; intros ? Hin; by apply elem_of_nil in Hin. }
  split; [|by apply (no_retries_untouched s Ha)].
  intros t Ht Hid.
  pose proof (job_row_has_retries s t r Hc Ha Ht Hr). lia.
Qed.

End tasks_without_retries.

(** A task added with [maxRetries = 0], after two polls. *)
Lemma task_without_retries_witness :
  status never_polled_row = pending ∧ retry_count never_polled_row = 0.
Proof.
  destruct (task_without_retries_is_never_run ∅ never_polled_state never_polled_row)
    as (_ & Hst & Hc & _).
  - exists never_polled. vm_compute. reflexivity.
  - apply list_elem_of_singleton. reflexivity.
  - vm_compute. discriminate.
  - split; [exact Hst|exact Hc].
Defined.

(** ** The order of the handler calls *)

Lemma select_by_id_row d r : r ∈ rows d → is_Some (sql_select_by_id (id r) d).
Proof.
  intros Hr. unfold sql_select_by_id.
  destruct (filter _ (rows d)) as [|r0 l] eqn:Hl; [|by eexists].
  exfalso. apply (filter_nil_not_elem_of (λ t, id t = id r) (rows d) r); done.
Qed.

Lemma select_by_id_update_is_Some k k' set d :
  (∀ t, id (set t) = id t) →
  is_Some (sql_select_by_id k d) →
  is_Some (sql_select_by_id k (update_where k' set d)).
Proof.
  intros Hid [r Hr]. destruct (decide (k' = k)) as [->|Hne].
  - rewrite select_by_id_update_eq, Hr by done. by eexists.
  - rewrite select_by_id_update_ne, Hr by done. by eexists.
Qed.

Lemma select_pending_is_sorted n d :
  StronglySorted poll_order (sql_select_pending n d).
Proof.
  unfold sql_select_pending.
  destruct (sql_limit_prefix n (sql_order_by (filter eligible (rows d))))
    as [rest Hrest].
  pose proof (select_pending_sorted d) as Hsorted. rewrite Hrest in Hsorted.
  by apply StronglySorted_app_1_l in Hsorted.
Qed.

Lemma handler_calls_app evs1 evs2 :
  handler_calls (evs1 ++ evs2) = handler_calls evs1 ++ handler_calls evs2.
Proof. apply filter_app. Qed.

Section handler_order.
Context `{Runtime}.

Lemma rejects_with_errors_nullish hs t :
  rejects_with_errors hs → rejects_nullish hs t = false.
Proof.
  intros Hhs. unfold rejects_nullish.
  destruct (get_handler hs (name t)) as [h|] eqn:Hh; [|done].
  destruct (invoke h (parse_payload t) t) as [[]|e|v] eqn:He; [done..|].
  by destruct (Hhs t h v Hh).
Qed.

Lemma started_all hs jobs :
  (∀ t, t ∈ jobs → rejects_nullish hs t = false) → started hs jobs = jobs.
Proof.
  induction jobs as [|t jobs IH]; intros Hjobs; [done|]. simpl.
  rewrite (Hjobs t) by by left. f_equal. apply IH.
  intros t' Ht'. apply Hjobs. by right.
Qed.

(** One execution, the store accepting its statements and the task
    being in the table. *)
Lemma executeTask_healthy hs t w :
  healthy w → is_Some (sql_select_by_id (id t) (db w)) →
  ∃ res d n evs,
    executeTask hs t w = (res, after w d n evs) ∧
    (if rejects_nullish hs t then ∃ e, res = Throw e else res = Ok tt) ∧
    (∀ k, is_Some (sql_select_by_id k (db w)) → is_Some (sql_select_by_id k d)) ∧
    handler_calls evs
    = if decide (has_handler hs t)
      then [Handler (name t) (parse_payload t) t] else [].
Proof.
  intros Hw [r Hr].
  pose proof (healthy_at w 0 Hw) as H0.
  pose proof (healthy_at w 1 Hw) as H1. simpl in H0, H1.
  assert (∀ e evs0,
    ∃ d n evs,
      on_error t e
        (after w (update_where (id t) (set_started (time w 0)) (db w)) 1 evs0)
      = (Ok tt, after w d n (evs0 ++ evs)) ∧
      (∀ k, is_Some (sql_select_by_id k (db w)) → is_Some (sql_select_by_id k d)) ∧
      handler_calls evs = []) as Hcatch.
  { intros e evs0.
    erewrite on_error_run;
      [|by apply healthy_after
       |simpl; by rewrite select_by_id_update_eq, Hr].
    unfold on_error_world. cbn [db after].
    case_bool_decide; rewrite after_after; do 3 eexists;
      (split; [reflexivity|]); (split; [|done]); intros k Hk;
      repeat apply select_by_id_update_is_Some; done. }
  unfold rejects_nullish.
  destruct (get_handler hs (name t)) as [h|] eqn:Hh.
  - rewrite decide_True by (unfold has_handler; rewrite Hh; by eexists).
    destruct (invoke h (parse_payload t) t) as [[]|e|v] eqn:He.
    + erewrite executeTask_handler_returns by done.
      do 4 eexists. split; [reflexivity|]. split; [done|]. split; [|done].
      intros k Hk. repeat apply select_by_id_update_is_Some; done.
    + erewrite executeTask_handler_throws by done. unfold handled.
      destruct (Hcatch e [ Db (call_markTaskStarted (id t));
                           Console (log_processing (id t) (name t) (priority t));
                           Handler (name t) (parse_payload t) t ])
        as (d & n & evs & -> & Hd & Hevs).
      do 4 eexists. split; [reflexivity|]. split; [done|]. split; [done|].
      rewrite handler_calls_app, Hevs. done.
    + erewrite executeTask_handler_rejects by done. unfold handled.
      do 4 eexists. split; [reflexivity|]. split; [by eexists|]. split; [|done].
      intros k Hk. by apply select_by_id_update_is_Some.
  - rewrite decide_False by (unfold has_handler; rewrite Hh; by intros [? ?]).
    rewrite executeTask_no_handler by done. unfold claimed.
    destruct (Hcatch ("No handler registered for task type: " +:+ name t)
                [ Db (call_markTaskStarted (id t));
                  Console (log_processing (id t) (name t) (priority t)) ])
      as (d & n & evs & -> & Hd & Hevs).
    do 4 eexists. split; [reflexivity|]. split; [done|]. split; [done|].
    rewrite handler_calls_app, Hevs. done.
Qed.

Lemma drain_healthy hs jobs w :
  healthy w →
  (∀ t, t ∈ jobs → is_Some (sql_select_by_id (id t) (db w))) →
  ∃ res d n evs,
    drain hs jobs w = (res, after w d n evs) ∧
    (res = Ok tt ↔ ∀ t, t ∈ jobs → rejects_nullish hs t = false) ∧
    handler_calls evs
    = (λ t, Handler (name t) (parse_payload t) t)
        <$> filter (has_handler hs) (started hs jobs).
Proof.
  revert w. induction jobs as [|t jobs IH]; intros w Hw Hjobs.
  - exists (Ok tt), (db w), 0%nat, []. simpl. unfold after. simpl.
    rewrite (right_id_L [] (++)). split; [by destruct w|]. split; [|done].
    split; [|done]. by intros _ t Ht%elem_of_nil.
  - simpl. cbv [mbind M_bind].
    destruct (executeTask_healthy hs t w)
      as (res1 & d1 & n1 & evs1 & -> & Hres1 & Hd1 & Hevs1);
      [done|apply Hjobs; by left|].
    destruct (rejects_nullish hs t) eqn:Hrej.
    + destruct Hres1 as [e ->]. do 4 eexists. split; [reflexivity|].
      split.
      { split; [done|]. intros Hall. specialize (Hall t). rewrite Hrej in Hall.
        by discriminate Hall; left. }
      rewrite Hevs1, filter_cons, filter_nil.
      by destruct (decide (has_handler hs t)).
    + subst res1.
      destruct (IH (after w d1 n1 evs1))
        as (res2 & d2 & n2 & evs2 & -> & Hres2 & Hevs2).
      { by apply healthy_after. }
      { intros t' Ht'. simpl. apply Hd1, Hjobs. by right. }
      rewrite after_after. do 4 eexists. split; [reflexivity|].
      split.
      { rewrite Hres2. split.
        - intros Hall t' [->|Ht']%elem_of_cons; [done|by apply Hall].
        - intros Hall t' Ht'. apply Hall. by right. }
      rewrite handler_calls_app, Hevs1, Hevs2, filter_cons.
      by destruct (decide (has_handler hs t)).
Qed.

Lemma cycle_healthy hs w :
  healthy w →
  ∃ res d n evs,
    cycle (Service hs true []) w = (res, after w d n evs) ∧
    (res = Ok (Service hs true [])
       ↔ ∀ t, t ∈ sql_select_pending 10 (db w) → rejects_nullish hs t = false) ∧
    handler_calls evs
    = (λ t, Handler (name t) (parse_payload t) t)
        <$> filter (has_handler hs) (started hs (sql_select_pending 10 (db w))).
Proof.
  intros Hw. unfold cycle. cbv [mbind M_bind].
  rewrite poll_run by apply (healthy_at w 0 Hw). cbn zeta.
  set (batch := sql_select_pending 10 (db w)).
  destruct (queue_foldl_queueTask (Service hs true []) batch) as (Hq & Hh & Hr).
  destruct (foldl queueTask (Service hs true []) batch) as [hs' b' q'].
  simpl in Hq, Hh, Hr. subst hs' b' q'. cbn [taskHandlers queue isRunning].
  set (evs0 := Db (call_getPendingTasks 10) :: _).
  destruct (drain_healthy hs batch (after w (db w) 1 evs0))
    as (res & d & n & evs & -> & Hres & Hevs).
  { by apply healthy_after. }
  { intros t [Ht _]%select_pending_rows. by apply select_by_id_row. }
  assert (handler_calls (evs0 ++ evs)
          = (λ t, Handler (name t) (parse_payload t) t)
              <$> filter (has_handler hs) (started hs batch)) as Hcalls.
  { rewrite handler_calls_app, Hevs. unfold evs0. by case_bool_decide. }
  destruct res as [[]|e|v]; cbv [mret M_ret]; rewrite after_after;
    do 4 eexists; (split; [reflexivity|]); (split; [|exact Hcalls]);
    rewrite <- Hres; by split.
Qed.

(** X15: one poll and its jobs run one after the other, the store
    accepting the statements.  The handlers are called in the order of
    the poll query (higher priority first, at equal priority the older
    task first), once for each task of the batch whose name reads a
    handler, each with the parsed payload and with the row as the poll
    read it: pending, with retries left, whatever the executions before
    it wrote.  The cycle fulfils and goes through the whole batch unless
    a handler rejects with [null] or [undefined]; the job of that handler
    rejects, the cycle rejects with it, and the jobs queued behind it are
    not run. *)
Theorem cycle_calls_handlers_in_poll_order hs w :
  healthy w →
  let run := cycle (Service hs true []) w in
  let batch := sql_select_pending 10 (db w) in
  (run.1 = Ok (Service hs true [])
     ↔ ∀ t, t ∈ batch → rejects_nullish hs t = false) ∧
  handler_calls (new_events w run.2)
  = (λ t, Handler (name t) (parse_payload t) t)
      <$> filter (has_handler hs) (started hs batch) ∧
  ((∀ t, t ∈ batch → rejects_nullish hs t = false) → started hs batch = batch) ∧
  StronglySorted poll_order batch ∧
  (∀ t, t ∈ batch → t ∈ rows (db w) ∧ status t = pending ∧
                    retry_count t < max_retries t).
Proof.
  intros Hw run batch. unfold run.
  destruct (cycle_healthy hs w Hw) as (res & d & n & evs & -> & Hres & Hevs).
  split; [done|]. split.
  - unfold new_events, after. simpl. by rewrite drop_app_length.
  - split; [apply started_all|]. split; [apply select_pending_is_sorted|].
    intros t Ht%select_pending_rows. unfold eligible in Ht. tauto.
Qed.

(** X16: what is given to [addTask] is what the handler gets.  A task
    is added to an empty table with a payload that [JSON.parse] reads
    back from its [JSON.stringify] text, and the service polls once.
    With at least one retry allowed, the handler registered for the
    task's name is called exactly once, with that payload, or with [null]
    when the payload is falsy (left out, null, false, 0, NaN or the empty
    string), and with the task as [addTask] stored it.  With no retry
    allowed ([maxRetries] 0 or less) the poll does not return the task
    and the handler is not called. *)
Theorem payload_reaches_the_handler n p pl m (h : handler) o :
  (∀ k, fault (o k) = None) →
  (truthy pl = true → JSON_parse (JSON_stringify pl) = Some pl) →
  handler_calls (trace (single_task_run n p pl m h 1 o).2)
  = if decide (0 < m)
    then [Handler n (if truthy pl then pl else JNull)
            (Task 1 n (default 0 p) pending (stored_payload pl) m 0 None
               (now (o 0%nat)) (now (o 0%nat)) None None)]
    else [].
Proof.
  intros Ho Hround.
  unfold single_task_run, addTask, cycles. run_monad. rewrite Ho.
  unfold sql_insert, empty_database. simpl. fold (stored_payload pl).
  change (0 + 1) with 1.
  set (r0 := Task 1 n (default 0 p) pending _ m 0 None _ _ None None).
  set (w1 := World (Database [r0] 1) o 1 _).
  assert (healthy w1) as Hw1 by (intros k; apply Ho).
  destruct (cycle_healthy {[ n := h ]} w1 Hw1)
    as (res & d & k & evs & -> & _ & Hevs).
  assert (handler_calls (trace (after w1 d k evs))
          = if decide (0 < m)
            then [Handler n (if truthy pl then pl else JNull) r0] else [])
    as Hcalls.
  { unfold after. cbn [trace]. rewrite handler_calls_app, Hevs.
    change (handler_calls (trace w1)) with (@nil event).
    unfold w1. cbn [db]. rewrite select_pending_single by done.
    destruct (decide (0 < m)) as [Hm|Hm].
    - rewrite decide_True by (split; [done|simpl; lia]).
      assert (started {[ n := h ]} [r0] = [r0]) as ->
        by (simpl; by destruct (rejects_nullish _ _)).
      rewrite filter_cons, decide_True, filter_nil
        by (unfold has_handler; simpl; rewrite get_handler_singleton; by eexists).
      simpl. f_equal. f_equal.
      unfold parse_payload, r0, stored_payload. simpl. rewrite truthy_default.
      destruct (truthy pl) eqn:Hpl; [|done].
      assert ((match pl with JUndefined => JNull | _ => pl end) = pl) as ->
        by (by destruct pl).
      simpl. case_bool_decide as Hs.
      + specialize (Hround eq_refl). rewrite Hs, JSON_parse_empty in Hround. done.
      + simpl. by rewrite Hround.
    - rewrite decide_False by (intros [_ ?]; simpl in *; lia). done. }
  by destruct res as [?|?|?].
Qed.

End handler_order.

(** Three pending tasks of type [report] and a handler that returns. *)
Lemma cycle_order_witness :
  (cycle (Service {[ "report" := quiet ]} true [])
     (world_of [routine; urgent; later] (steady 10))).1
  = Ok (Service {[ "report" := quiet ]} true []).
Proof.
  destruct (cycle_calls_handlers_in_poll_order {[ "report" := quiet ]}
              (world_of [routine; urgent; later] (steady 10))) as (Hok & _).
  - intros n. reflexivity.
  - apply Hok. intros t _.
    apply rejects_with_errors_nullish, rejects_with_errors_quiet.
Defined.

(** The payload 7 is stored as the text 7 and parsed back. *)
Lemma payload_witness :
  handler_calls
    (trace (single_task_run "report" (Some 5) (JNum 7) 3 quiet 1 (steady 10)).2)
  = [Handler "report" (JNum 7)
       (Task 1 "report" 5 pending (Some "7") 3 0 None 0 0 None None)].
Proof.
  etrans.
  - apply (payload_reaches_the_handler "report" (Some 5) (JNum 7) 3 quiet
             (steady 10)).
    + intros k. reflexivity.
    + intros _. vm_compute. reflexivity.
  - vm_compute. reflexivity.
Defined.

(** ** Managing the service *)

Section managing.
Context `{Runtime}.

(** X17: a handler registered under a name (other than [__proto__]) is
    what the registry reads under that name, also when the name is one
    that every object inherits, such as [constructor] or [toString]; the
    other names read what they read before, and registering again
    replaces the handler.  A task of that name is then executed by the
    handler: it is called once with the parsed payload and the task, and
    when it returns the task ends [completed]. *)
Theorem registered_handler_runs_the_task s n (h : handler) :
  n ≠ "__proto__" →
  ∃ s',
    registerHandler s n h = Some (s', [log_registered n]) ∧
    isRunning s' = isRunning s ∧ queue s' = queue s ∧
    get_handler (taskHandlers s') n = Some (Own h) ∧
    (∀ n', n' ≠ n →
       get_handler (taskHandlers s') n' = get_handler (taskHandlers s) n') ∧
    (∀ h2 : handler, ∃ s2,
       registerHandler s' n h2 = Some (s2, [log_registered n]) ∧
       get_handler (taskHandlers s2) n = Some (Own h2)) ∧
    (∀ t w, name t = n → fault (io w (issued w)) = None →
       handler_calls (new_events w (executeTask (taskHandlers s') t w).2)
       = [Handler n (parse_payload t) t]) ∧
    (∀ t r w, name t = n → healthy w →
       sql_select_by_id (id t) (db w) = Some r →
       h (parse_payload t) t = Ok tt →
       status <$> sql_select_by_id (id t) (db (executeTask (taskHandlers s') t w).2)
       = Some completed).
Proof.
  intros Hn. eexists. unfold registerHandler.
  rewrite bool_decide_eq_false_2 by done. split; [reflexivity|].
  cbn [taskHandlers isRunning queue].
  assert (∀ (h0 : handler) hs, get_handler (<[n := h0]> hs) n = Some (Own h0))
    as Hget by (intros h0 hs; unfold get_handler; by rewrite lookup_insert_eq).
  split; [done|]. split; [done|]. split; [apply Hget|]. split.
  { intros n' Hn'. unfold get_handler. by rewrite lookup_insert_ne. }
  split.
  { intros h2. eexists. split; [reflexivity|]. apply Hget. }
  split.
  - intros t w <- Hf. unfold handler_calls.
    by erewrite executeTask_handler_event.
  - intros t r w <- Hw Hr Hret.
    erewrite executeTask_handler_returns;
      [|apply (healthy_at w 0 Hw)|apply (healthy_at w 1 Hw)|apply Hget|done].
    simpl. by rewrite !select_by_id_update_eq, Hr.
Qed.

(** X18: [start] never rejects, leaves the service running and does
    not write to the table.  On a service that is running it does
    nothing but say so: no poll is launched and no statement is issued,
    so that calling [start] twice polls once. *)
Theorem start_is_idempotent s w :
  ∃ s1 lines,
    (start s w).1 = Ok (s1, lines) ∧
    isRunning s1 = true ∧ taskHandlers s1 = taskHandlers s ∧
    db (start s w).2 = db w ∧
    start s1 (start s w).2 = (Ok (s1, [log_already_running]), (start s w).2) ∧
    (isRunning s = true →
       s1 = s ∧ lines = [log_already_running] ∧ (start s w).2 = w) ∧
    (isRunning s = false →
       lines = [log_started] ∧
       (start s w).2 = (poll (Service (taskHandlers s) true (queue s)) w).2 ∧
       (poll (Service (taskHandlers s) true (queue s)) w).1 = Ok s1).
Proof.
  destruct s as [hs [] q].
  - exists (Service hs true q), [log_already_running]. done.
  - destruct (poll_fulfils (Service hs true q) w) as (batch & Hrun & Hdb & _).
    destruct (poll (Service hs true q) w) as [[s1|e|v] w1] eqn:Hpoll;
      simpl in Hrun, Hdb; [|done..].
    injection Hrun as ->.
    assert (start (Service hs false q) w
            = (Ok (Service hs true (q ++ batch), [log_started]), w1)) as Hstart.
    { unfold start. cbn [isRunning taskHandlers queue].
      cbv [mbind M_bind mret M_ret]. by rewrite Hpoll. }
    rewrite Hstart. cbn [taskHandlers queue]. rewrite Hpoll.
    eexists _, _. split; [reflexivity|]. done.
Qed.

(** X19: [stop] on a running service, the store accepting the
    statements and no queued job having a handler that rejects with
    [null] or [undefined].  When the queue is not paused, or is empty,
    [stop] resolves once every queued job has run (each handler called,
    in queue order), with the service not running and its queue empty;
    after that a poll fired by a timer set earlier issues no statement
    and queues nothing, and a second [stop] only says that the service is
    not running.  When the queue is paused and jobs are waiting, [stop]
    clears the running flag and its promise stays pending: no job is
    run, no statement is issued and no line is written; that is what
    [stop] does after [pause]. *)
Theorem stop_waits_for_the_queue isPaused s w :
  healthy w →
  isRunning s = true →
  (∀ t, t ∈ queue s → is_Some (sql_select_by_id (id t) (db w))) →
  (∀ t, t ∈ queue s → rejects_nullish (taskHandlers s) t = false) →
  let run := stop isPaused s w in
  let s' := Service (taskHandlers s) false [] in
  (isPaused = false ∨ queue s = [] →
   run.1 = Ok (s', Some [log_stopped]) ∧
   handler_calls (new_events w run.2)
   = (λ t, Handler (name t) (parse_payload t) t)
       <$> filter (has_handler (taskHandlers s)) (queue s) ∧
   poll s' run.2 = (Ok s', run.2) ∧
   stop isPaused s' run.2 = (Ok (s', Some [log_not_running]), run.2)) ∧
  (isPaused = true → queue s ≠ [] →
   run = (Ok (Service (taskHandlers s) false (queue s), None), w)) ∧
  (queue s ≠ [] →
   stop (pause isPaused).1 s w
   = (Ok (Service (taskHandlers s) false (queue s), None), w)).
Proof.
  intros Hw Hrun Hq Hrej run s'. split; [|split].
  - intros Hgo. unfold run, stop at 1 2. rewrite Hrun. simpl.
    assert (isPaused && bool_decide (queue s ≠ []) = false) as ->.
    { destruct Hgo as [->| ->]; [done|].
      rewrite bool_decide_eq_false_2 by (by intros ?). by destruct isPaused. }
    cbv [mbind M_bind mret M_ret].
    destruct (drain_healthy (taskHandlers s) (queue s) w Hw Hq)
      as (res & d & n & evs & -> & Hres & Hevs).
    pose proof (proj2 Hres Hrej) as ->.
    split; [done|]. split; [|done].
    unfold new_events, after. simpl. rewrite drop_app_length.
    by rewrite Hevs, started_all.
  - intros -> Hne. unfold run, stop. rewrite Hrun. simpl.
    by rewrite bool_decide_eq_true_2.
  - intros Hne. unfold stop. rewrite Hrun. simpl.
    by rewrite bool_decide_eq_true_2.
Qed.

End managing.

(** A handler registered under the name [constructor]. *)
Lemma registerHandler_witness :
  ∃ s', registerHandler (Service ∅ false []) "constructor" quiet
        = Some (s', [log_registered "constructor"]) ∧
        get_handler (taskHandlers s') "constructor" = Some (Own quiet).
Proof.
  destruct (registered_handler_runs_the_task (Service ∅ false []) "constructor" quiet)
    as (s' & Hreg & _ & _ & Hget & _).
  - discriminate.
  - exists s'. split; [exact Hreg|exact Hget].
Defined.

(** A running service with one queued job. *)
Lemma stop_witness :
  (stop false (Service {[ "report" := quiet ]} true [report_task])
     (world_of [report_task] (steady 10))).1
  = Ok (Service {[ "report" := quiet ]} false [], Some [log_stopped]).
Proof.
  destruct (stop_waits_for_the_queue false
              (Service {[ "report" := quiet ]} true [report_task])
              (world_of [report_task] (steady 10))) as (Hrun & _).
  - intros n. reflexivity.
  - reflexivity.
  - intros t Ht%list_elem_of_singleton. subst t. by eexists.
  - intros t _. apply rejects_with_errors_nullish, rejects_with_errors_quiet.
  - apply Hrun. left. reflexivity.
Defined.

(** [pause()], then [stop()] with a job waiting: the promise of [stop]
    stays pending, and the task stays pending in the table. *)
Example stop_on_a_paused_queue :
  stop (pause false).1 (Service {[ "report" := quiet ]} true [report_task])
    (world_of [report_task] (steady 10))
  = (Ok (Service {[ "report" := quiet ]} false [report_task], None),
     world_of [report_task] (steady 10)).
Proof. reflexivity. Qed.

(** ** A store error at [markTaskFailed] *)

Section store_error_at_exhaustion.
Context `{Runtime}.

(** X20: the failure that uses up the retries is recorded, and then
    [markTaskFailed] is rejected by the store: [executeTask] rejects with
    the store error, and the task is left [pending] with its retries used
    up.  The poll query asks for [retry_count < max_retries], so it does
    not return the task, whatever the limit: the task is neither run
    again nor marked [failed]. *)
Theorem store_error_at_markTaskFailed_leaves_task_pending hs t r w e' :
  fault (io w (issued w)) = None →
  fault (io w (S (issued w))) = None →
  fault (io w (S (S (issued w)))) = None →
  fault (io w (S (S (S (issued w))))) = Some e' →
  NoDup (id <$> rows (db w)) →
  sql_select_by_id (id t) (db w) = Some r →
  max_retries r = max_retries t →
  max_retries t ≤ retry_count r + 1 →
  (get_handler hs (name t) = None ∨
   ∃ h e, get_handler hs (name t) = Some h ∧
          invoke h (parse_payload t) t = Throw e) →
  let run := executeTask hs t w in
  run.1 = Throw e' ∧
  (∃ r', sql_select_by_id (id t) (db run.2) = Some r' ∧
         status r' = pending ∧ retry_count r' = retry_count r + 1 ∧
         max_retries r' ≤ retry_count r') ∧
  ∀ limit t', t' ∈ sql_select_pending limit (db run.2) → id t' ≠ id t.
Proof.
  intros Hf0 Hf1 Hf2 Hf3 Hnd Hr Hmax Hlim Hfail run.
  set (d1 := update_where (id t) (set_started (time w 0)) (db w)).
  assert (∀ e w1, io w1 = io w → issued w1 = S (issued w) → db w1 = d1 →
            (on_error t e w1).1 = Throw e' ∧
            db (on_error t e w1).2
            = update_where (id t) (set_retry (time w 1) (Some e)) d1)
    as Hcatch.
  { intros e w1 Hio Hissued Hdb.
    unfold on_error. cbv [mbind M_bind console emit]. cbn [db io issued trace].
    rewrite (incrementRetryCount_run (id t) (Some e) _ (set_started (time w 0) r));
      cbn [db io issued trace]; rewrite ?Hio, ?Hissued, ?Hdb; try done;
      [|unfold d1; by rewrite select_by_id_update_eq, Hr].
    rewrite bool_decide_eq_true_2 by done.
    unfold markTaskFailed. run_monad. rewrite ?Hio, ?Hissued. simpl.
    by rewrite Hf3. }
  assert (∃ e, run.1 = Throw e' ∧
               db run.2 = update_where (id t) (set_retry (time w 1) (Some e)) d1)
    as (e & Hrun & Hdb).
  { unfold run. destruct Hfail as [Hh|(h & e & Hh & He)].
    - rewrite executeTask_no_handler by done. eexists.
      apply (Hcatch _ (claimed t w)); done.
    - erewrite executeTask_handler_throws by done. exists e.
      apply (Hcatch _ (handled t w)); done. }
  set (r' := set_retry (time w 1) (Some e) (set_started (time w 0) r)).
  assert (sql_select_by_id (id t) (db run.2) = Some r') as Hr'.
  { rewrite Hdb. unfold d1. by rewrite !select_by_id_update_eq, Hr. }
  split; [done|]. split.
  { exists r'. split; [done|]. unfold r'. simpl. split; [done|]. lia. }
  intros limit t' [Ht' [_ Hlt]]%select_pending_rows Hid.
  assert (t' = r') as ->.
  { apply (unique_row (db run.2)); [|done|by apply (select_by_id_Some (id t))|].
    - rewrite Hdb. unfold d1. by rewrite !ids_update_where.
    - destruct (select_by_id_Some _ _ _ Hr) as [_ Hidr].
      unfold r'. simpl. congruence. }
  unfold r' in Hlt. simpl in Hlt. lia.
Qed.

End store_error_at_exhaustion.

(** A task with one retry allowed; the fourth statement of the
    execution, [markTaskFailed], is rejected. *)
Lemma store_error_at_markTaskFailed_witness :
  (executeTask ∅ last_chance (world_of [last_chance] (busy_at 3))).1
  = Throw "SQLITE_BUSY: database is locked".
Proof.
  apply (store_error_at_markTaskFailed_leaves_task_pending ∅ last_chance
           last_chance (world_of [last_chance] (busy_at 3))).
  - reflexivity.
  - reflexivity.
  - reflexivity.
  - reflexivity.
  - apply NoDup_singleton.
  - reflexivity.
  - reflexivity.
  - vm_compute. discriminate.
  - left. reflexivity.
Defined.

(** ** The retry budget of a sequential run *)

Lemma after_nothing w : after w (db w) 0 [] = w.
Proof. unfold after. simpl. rewrite (right_id_L [] (++)). by destruct w. Qed.

Section retry_budget.
Context `{Runtime}.
Context (n : string) (h : handler) (k : Z).
Context (Hfail : ∀ arg t, retry_count t < k → ∃ e, h arg t = Throw e).
Context (Hok : ∀ arg t, k ≤ retry_count t → h arg t = Ok tt).

(** A table that holds the single pending task [r], which has failed
    [retry_count r] times so far, and [c] polls. *)
Lemma cycles_single_budget c w r q :
  healthy w → db w = Database [r] q → name r = n → status r = pending →
  retry_count r < max_retries r → retry_count r ≤ k →
  ∃ r' n' evs,
    cycles c (Service {[ n := h ]} true []) w
    = (Ok (Service {[ n := h ]} true []), after w (Database [r'] q) n' evs) ∧
    id r' = id r ∧ max_retries r' = max_retries r ∧
    (retry_count r + Z.of_nat c ≤ k → retry_count r + Z.of_nat c < max_retries r →
       status r' = pending ∧ retry_count r' = retry_count r + Z.of_nat c ∧
       recorded_failures (id r) evs = c) ∧
    (k < max_retries r → k < retry_count r + Z.of_nat c →
       status r' = completed ∧ retry_count r' = k ∧
       Z.of_nat (recorded_failures (id r) evs) = k - retry_count r) ∧
    (max_retries r ≤ k → max_retries r ≤ retry_count r + Z.of_nat c →
       status r' = failed ∧ retry_count r' = max_retries r ∧
       Z.of_nat (recorded_failures (id r) evs) = max_retries r - retry_count r).
Proof.
  revert w r. induction c as [|c IH]; intros w r Hw Hdb Hn Hst Hlt Hle.
  - exists r, 0%nat, []. simpl. cbv [mret M_ret].
    rewrite <- Hdb, after_nothing. split; [done|]. split; [done|].
    split; [done|].
    split; [intros _ _; repeat split; [done|lia]|]. split; intros; lia.
  - cbn [cycles]. cbv [mbind M_bind].
    destruct (decide (retry_count r < k)) as [Hk|Hk].
    + destruct (Hfail (parse_payload r) r Hk) as [e He].
      destruct (cycle_single_fails {[ n := h ]} w r q (Own h) e)
        as (n1 & evs1 & -> & Hf1);
        [done|done|by split|by rewrite Hn, get_handler_singleton|done|].
      set (r1 := failed_attempt _ _ _ e r) in *.
      destruct (failed_attempt_fields (time w 1) (time w 2) (time w 4) e r)
        as (Hid1 & Hn1 & Hm1 & Hc1 & _ & Hs1).
      fold r1 in Hid1, Hn1, Hm1, Hc1, Hs1.
      case_bool_decide as Hexh.
      * destruct (cycles_idle {[ n := h ]} r1 q c (after w (Database [r1] q) n1 evs1))
          as (n2 & evs2 & -> & Hf2);
          [by apply healthy_after|done|intros [? _]; congruence|].
        cbn [db after]. rewrite after_after.
        exists r1. do 2 eexists. split; [reflexivity|]. split; [done|].
        split; [done|].
        rewrite recorded_failures_app, Hf1. rewrite Hid1 in Hf2. rewrite Hf2.
        split; [intros; lia|]. split; [intros; lia|].
        intros _ _. split; [done|]. lia.
      * destruct (IH (after w (Database [r1] q) n1 evs1) r1)
          as (r' & n2 & evs2 & -> & Hid' & Hm' & Hp & Hc & Hx);
          [by apply healthy_after|done|congruence|done|lia|lia|].
        rewrite after_after.
        exists r'. do 2 eexists. split; [reflexivity|]. split; [congruence|].
        split; [congruence|].
        rewrite recorded_failures_app, Hf1.
        rewrite Hid1, Hm1, Hc1 in *.
        split; [|split].
        -- intros ? ?. destruct Hp as (? & ? & ?); [lia..|].
           split; [done|]. split; lia.
        -- intros ? ?. destruct Hc as (? & ? & ?); [lia..|].
           split; [done|]. split; lia.
        -- intros ? ?. destruct Hx as (? & ? & ?); [lia..|].
           split; [done|]. split; lia.
    + destruct (cycle_single_succeeds {[ n := h ]} w r q (Own h))
        as (n1 & evs1 & -> & Hf1);
        [done|done|by split|by rewrite Hn, get_handler_singleton
        |apply Hok; lia|].
      set (r1 := set_completed _ _) in *.
      destruct (cycles_idle {[ n := h ]} r1 q c (after w (Database [r1] q) n1 evs1))
        as (n2 & evs2 & -> & Hf2);
        [by apply healthy_after|done|by intros [? _]|].
      cbn [db after]. rewrite after_after.
      exists r1. do 2 eexists. split; [reflexivity|]. split; [done|].
      split; [done|].
      rewrite recorded_failures_app, Hf1. change (id r1) with (id r) in Hf2.
      rewrite Hf2. split; [intros; lia|]. split; [|intros; lia].
      intros _ _. split; [done|]. unfold r1. simpl. lia.
Qed.

(** X21: the retry budget.  One task with [m >= 1] retries allowed is
    added to an empty table; its handler throws as long as the task has
    failed fewer than [k] times and returns from then on; the service
    runs [c] polls, each followed by its jobs.  While [c] does not exceed
    [k] and is below [m], each poll was one failed attempt and the task
    is pending.  If [k < m], the task is completed at attempt [k + 1],
    after exactly [k] recorded failures.  If [k >= m], the task is failed
    after exactly [m] attempts, and never run again. *)
Theorem sequential_retry_budget p pl m c o :
  (∀ i, fault (o i) = None) →
  0 < m → 0 ≤ k →
  let run := single_task_run n p pl m h c o in
  ∃ r,
    run.1 = Ok 1 ∧ rows (db run.2) = [r] ∧ id r = 1 ∧ max_retries r = m ∧
    (Z.of_nat c ≤ k → Z.of_nat c < m →
       status r = pending ∧ retry_count r = Z.of_nat c ∧
       recorded_failures 1 (trace run.2) = c) ∧
    (k < m → k < Z.of_nat c →
       status r = completed ∧ retry_count r = k ∧
       Z.of_nat (recorded_failures 1 (trace run.2)) = k) ∧
    (m ≤ k → m ≤ Z.of_nat c →
       status r = failed ∧ retry_count r = m ∧
       Z.of_nat (recorded_failures 1 (trace run.2)) = m).
Proof.
  intros Ho Hm Hk run. unfold run.
  destruct (single_task_run_unfold n p pl m h c o Ho)
    as (r0 & w1 & -> & Hw1 & Hdb1 & Hrec1 & Hid0 & Hn0 & Hm0 & Hc0 & Hs0).
  destruct (cycles_single_budget c w1 r0 1)
    as (r' & n' & evs & -> & Hid' & Hm' & Hp & Hc & Hx); [done..|lia|lia|].
  cbn [fst snd db after trace rows].
  exists r'. split; [done|]. split; [done|]. split; [congruence|].
  split; [congruence|].
  rewrite recorded_failures_app, Hrec1. rewrite Hid0, Hm0, Hc0 in *.
  split; [|split].
  - intros ? ?. destruct Hp as (? & ? & ?); [lia..|].
    split; [done|]. split; lia.
  - intros ? ?. destruct Hc as (? & ? & ?); [lia..|].
    split; [done|]. split; lia.
  - intros ? ?. destruct Hx as (? & ? & ?); [lia..|].
    split; [done|]. split; lia.
Qed.

End retry_budget.

(** [flaky] throws at the first two attempts; one retry is allowed. *)
Lemma retry_budget_witness :
  ∃ r, rows (db (single_task_run "report" (Some 5) (JNum 7) 1 flaky 4
                   (steady 10)).2) = [r] ∧
       status r = failed ∧ retry_count r = 1.
Proof.
  destruct (sequential_retry_budget "report" flaky 2) with
    (p := Some 5) (pl := JNum 7) (m := 1) (c := 4%nat) (o := steady 10)
    as (r & _ & Hrows & _ & _ & _ & _ & Hfailed).
  - intros arg t Ht. exists "boom". unfold flaky.
    by rewrite bool_decide_eq_true_2.
  - intros arg t Ht. unfold flaky. rewrite bool_decide_eq_false_2; [done|lia].
  - intros i. reflexivity.
  - lia.
  - lia.
  - destruct Hfailed as (Hst & Hc & _); [lia|lia|].
    exists r. split; [exact Hrows|]. split; [exact Hst|exact Hc].
Defined.

(** ** What the dispatcher never writes *)

Lemma only_rows_refl P d : only_rows P d d.
Proof.
  split; [done|]. induction (rows d) as [|r l IH]; constructor; auto.
Qed.

Lemma only_rows_trans P d1 d2 d3 :
  only_rows P d1 d2 → only_rows P d2 d3 → only_rows P d1 d3.
Proof.
  intros [Hs1 H1] [Hs2 H2]. split; [congruence|].
  eapply Forall2_trans; [|done..].
  intros r1 r2 r3 [->|(HP & Hsame & Hc)] H23; [done|].
  destruct H23 as [->|(HP' & Hsame' & Hc')]; [by right|].
  right. split; [done|]. unfold same_task in *. split; [|lia].
  destruct Hsame as (? & ? & ? & ? & ? & ?), Hsame' as (? & ? & ? & ? & ? & ?).
  repeat split; congruence.
Qed.

Lemma only_rows_mono (P Q : Z → Prop) d d' :
  (∀ k, P k → Q k) → only_rows P d d' → only_rows Q d d'.
Proof.
  intros HPQ [Hs H]. split; [done|].
  eapply Forall2_impl; [done|]. intros r r' [->|(? & ? & ?)]; [by left|].
  right. auto.
Qed.

Lemma only_rows_update (P : Z → Prop) k set d :
  P k → keeps_task set → only_rows P d (update_where k set d).
Proof.
  intros Hk Hset. split; [done|]. unfold update_where. simpl.
  induction (rows d) as [|r l IH]; [constructor|].
  rewrite fmap_cons. constructor; [|done].
  case_bool_decide as Hid; [|by left].
  right. rewrite Hid. split; [done|]. apply Hset.
Qed.

Lemma confined_mono {A} (P Q : Z → Prop) (m : M A) :
  (∀ k, P k → Q k) → confined P m → confined Q m.
Proof. intros HPQ Hm w. by eapply only_rows_mono. Qed.

Lemma confined_ret {A} P (a : A) : confined P (mret a).
Proof. intros w. apply only_rows_refl. Qed.

Lemma confined_throw {A} P e : confined P (throw (A := A) e).
Proof. intros w. apply only_rows_refl. Qed.

Lemma confined_await {A} P (r : result A) : confined P (await r).
Proof. intros w. apply only_rows_refl. Qed.

Lemma confined_emit P ev : confined P (emit ev).
Proof. intros w. apply only_rows_refl. Qed.

Lemma confined_bind {A B} P (m : M A) (f : A → M B) :
  confined P m → (∀ a, confined P (f a)) → confined P (m ≫= f).
Proof.
  intros Hm Hf w. cbv [mbind M_bind]. specialize (Hm w).
  destruct (m w) as [[a|e|v] w']; simpl in *; [|done..].
  eapply only_rows_trans; [done|apply Hf].
Qed.

Lemma confined_try_catch {A} P (m : M A) (h : string → M A) :
  confined P m → (∀ e, confined P (h e)) → confined P (try_catch m h).
Proof.
  intros Hm Hh w. unfold try_catch. specialize (Hm w).
  destruct (m w) as [[a|e|v] w']; simpl in *; [done| |done].
  eapply only_rows_trans; [done|apply Hh].
Qed.

Lemma confined_dbRun_update (P : Z → Prop) k (set : Z → task → task) :
  P k → (∀ now, keeps_task (set now)) →
  confined P (dbRun (λ now, update_where k (set now))).
Proof.
  intros Hk Hset w. unfold dbRun. destruct (fault _); simpl.
  - apply only_rows_refl.
  - by apply only_rows_update.
Qed.

Lemma confined_dbGet P query : confined P (dbGet query).
Proof. intros w. unfold dbGet. destruct (fault _); apply only_rows_refl. Qed.

Lemma confined_dbAll P query : confined P (dbAll query).
Proof. intros w. unfold dbAll. destruct (fault _); apply only_rows_refl. Qed.

Lemma confined_markTaskStarted (P : Z → Prop) k : P k → confined P (markTaskStarted k).
Proof.
  intros Hk. apply confined_bind; [apply confined_emit|]. intros _.
  apply confined_dbRun_update; [done|apply keeps_task_started].
Qed.

Lemma confined_markTaskCompleted (P : Z → Prop) k :
  P k → confined P (markTaskCompleted k).
Proof.
  intros Hk. apply confined_bind; [apply confined_emit|]. intros _.
  apply confined_dbRun_update; [done|apply keeps_task_completed].
Qed.

Lemma confined_markTaskFailed (P : Z → Prop) k e :
  P k → confined P (markTaskFailed k e).
Proof.
  intros Hk. apply confined_bind; [apply confined_emit|]. intros _.
  apply confined_dbRun_update; [done|]. intros now. apply keeps_task_status.
Qed.

Lemma confined_incrementRetryCount (P : Z → Prop) k e :
  P k → confined P (incrementRetryCount k e).
Proof.
  intros Hk. apply confined_bind; [apply confined_emit|]. intros _.
  apply confined_bind.
  { apply confined_dbRun_update; [done|]. intros now. apply keeps_task_retry. }
  intros _. apply confined_bind.
  { apply confined_bind; [apply confined_emit|]. intros _. apply confined_dbGet. }
  intros [r|]; [apply confined_ret|apply confined_throw].
Qed.

Lemma confined_on_error (P : Z → Prop) t e : P (id t) → confined P (on_error t e).
Proof.
  intros Hk. apply confined_bind; [apply confined_emit|]. intros _.
  apply confined_bind; [by apply confined_incrementRetryCount|]. intros n.
  case_bool_decide.
  - apply confined_bind; [by apply confined_markTaskFailed|]. intros _.
    apply confined_emit.
  - apply confined_emit.
Qed.

Section confinement.
Context `{Runtime}.

Lemma confined_executeTask (P : Z → Prop) hs t :
  P (id t) → confined P (executeTask hs t).
Proof.
  intros Hk. apply confined_try_catch; [|intros e; by apply confined_on_error].
  apply confined_bind; [by apply confined_markTaskStarted|]. intros _.
  apply confined_bind; [apply confined_emit|]. intros _.
  destruct (get_handler hs (name t)) as [h|]; [|apply confined_throw].
  apply confined_bind.
  { apply confined_bind; [apply confined_emit|]. intros _. apply confined_await. }
  intros _. apply confined_bind; [by apply confined_markTaskCompleted|].
  intros _. apply confined_emit.
Qed.

Lemma confined_drain (P : Z → Prop) hs jobs :
  (∀ t, t ∈ jobs → P (id t)) → confined P (drain hs jobs).
Proof.
  induction jobs as [|t jobs IH]; intros HP; simpl; [apply confined_ret|].
  apply confined_bind.
  - apply confined_executeTask, HP. by left.
  - intros _. apply IH. intros t' Ht'. apply HP. by right.
Qed.


Lemma cycle_only_rows hs on w :
  only_rows (pollable (db w)) (db w) (db (cycle (Service hs on []) w).2).
Proof.
  unfold cycle. cbv [mbind M_bind].
  destruct (poll_fulfils (Service hs on []) w) as (batch & Hrun & Hdb & Hbatch).
  destruct (poll (Service hs on []) w) as [[s'|e|v] w'] eqn:Hpoll;
    simpl in Hrun, Hdb; [|simpl; rewrite Hdb; apply only_rows_refl..].
  injection Hrun as ->. cbn [taskHandlers queue isRunning].
  pose proof (confined_drain (pollable (db w)) hs batch) as Hdrain.
  rewrite <- Hdb at 2.
  assert (only_rows (pollable (db w)) (db w') (db (drain hs batch w').2)) as Hd.
  { apply Hdrain. intros t [Ht Hel]%Hbatch. by exists t. }
  by destruct (drain hs batch w') as [[[]|e|v] w''].
Qed.


End confinement.

(** ** What makes an execution reject *)

(** The [catch] block rejects at one of its own calls: the last event
    is that call, and the error is the store error of the statement the
    call issued, the last one issued, or the TypeError of
    [incrementRetryCount] when the row is gone. *)
Lemma on_error_rejection t e0 w e :
  (on_error t e0 w).1 = Throw e →
  ∃ evs c,
    trace (on_error t e0 w).2
    = trace w ++ Console (error_failed (id t) e0) :: evs ++ [Db c] ∧
    c ∈ catch_block_calls (id t) e0 ∧
    ((∃ i, issued (on_error t e0 w).2 = S i ∧ fault (io w i) = Some e) ∨
     (c = call_getTask (id t) ∧ e = TypeError_retry_count ∧
      sql_select_by_id (id t) (db (on_error t e0 w).2) = None)).
Proof.
  unfold on_error, incrementRetryCount, getTask, markTaskFailed, catch_block_calls.
  run_monad.
  destruct (fault (io w (issued w))) as [e1|] eqn:Hf0; simpl.
  { intros [= <-]. exists [], (call_incrementRetryCount (id t) (Some e0)).
    split; [by rewrite <- !(assoc_L (++))|]. split; [by left|].
    left. by exists (issued w). }
  destruct (fault (io w (S (issued w)))) as [e1|] eqn:Hf1; simpl.
  { intros [= <-].
    exists [Db (call_incrementRetryCount (id t) (Some e0))], (call_getTask (id t)).
    split; [by rewrite <- !(assoc_L (++))|]. split; [right; by left|].
    left. by exists (S (issued w)). }
  destruct (sql_select_by_id _ _) as [r1|] eqn:Hr1; simpl.
  - case_bool_decide; simpl; [|done].
    destruct (fault (io w (S (S (issued w))))) as [e1|] eqn:Hf2; simpl; [|done].
    intros [= <-].
    exists [Db (call_incrementRetryCount (id t) (Some e0)); Db (call_getTask (id t))],
           (call_markTaskFailed (id t) (Some e0)).
    split; [by rewrite <- !(assoc_L (++))|]. split; [right; right; by left|].
    left. by exists (S (S (issued w))).
  - intros [= <-].
    exists [Db (call_incrementRetryCount (id t) (Some e0))], (call_getTask (id t)).
    split; [by rewrite <- !(assoc_L (++))|]. split; [right; by left|].
    right. done.
Qed.

Section rejections.
Context `{Runtime}.

(** X24: an [Error] thrown by the handler never escapes from
    [executeTask], nor does a store error of [markTaskStarted] or of
    [markTaskCompleted]: they are caught.  When [executeTask] rejects,
    either the handler rejected with [null] or [undefined], and the
    error is the TypeError of reading [message] of it, raised by the
    first line of the [catch] block right after the handler's call; or
    the [catch] block was entered (the failure was logged) and the
    rejection comes from the last call it made, which is
    [incrementRetryCount], its [getTask] or [markTaskFailed] for the
    task: the error is the store error of the last statement issued, or
    the TypeError that [incrementRetryCount] throws when the task is no
    longer in the table. *)
Theorem executeTask_rejects_only_from_its_catch_block hs t w e :
  let run := executeTask hs t w in
  run.1 = Throw e →
  (∃ h v, get_handler hs (name t) = Some h ∧
          invoke h (parse_payload t) t = Reject v ∧
          e = TypeError_message v ∧
          last (new_events w run.2) = Some (Handler (name t) (parse_payload t) t)) ∨
  (∃ e0 c,
     Console (error_failed (id t) e0) ∈ new_events w run.2 ∧
     last (new_events w run.2) = Some (Db c) ∧
     c ∈ catch_block_calls (id t) e0 ∧
     ((∃ i, issued run.2 = S i ∧ fault (io w i) = Some e) ∨
      (c = call_getTask (id t) ∧ e = TypeError_retry_count ∧
       sql_select_by_id (id t) (db run.2) = None))).
Proof.
  intros run. unfold run.
  assert (∀ e1 d n evs1,
            (on_error t e1 (after w d n evs1)).1 = Throw e →
            ∃ e0 c,
              Console (error_failed (id t) e0)
                ∈ new_events w (on_error t e1 (after w d n evs1)).2 ∧
              last (new_events w (on_error t e1 (after w d n evs1)).2)
              = Some (Db c) ∧
              c ∈ catch_block_calls (id t) e0 ∧
              ((∃ i, issued (on_error t e1 (after w d n evs1)).2 = S i ∧
                     fault (io w i) = Some e) ∨
               (c = call_getTask (id t) ∧ e = TypeError_retry_count ∧
                sql_select_by_id (id t)
                  (db (on_error t e1 (after w d n evs1)).2) = None)))
    as Hcatch.
  { intros e0 d n evs1 (evs & c & Htr & Hc & Hwhy)%on_error_rejection.
    exists e0, c. unfold new_events. rewrite Htr. cbn [trace after].
    rewrite <- (assoc_L (++)), drop_app_length.
    split; [apply elem_of_app; right; by left|].
    split; [|done].
    by rewrite app_comm_cons, (assoc_L (++)), last_snoc. }
  destruct (fault (io w (issued w))) as [e0|] eqn:Hf0.
  { rewrite (executeTask_claim_rejected hs t w e0) by done.
    intros He. right. by apply Hcatch. }
  destruct (get_handler hs (name t)) as [h|] eqn:Hh.
  - destruct (invoke h (parse_payload t) t) as [[]|e0|v] eqn:He.
    + destruct (fault (io w (S (issued w)))) as [e0|] eqn:Hf1.
      * erewrite executeTask_complete_rejected by done.
        intros He'. right. by apply Hcatch.
      * by erewrite executeTask_handler_returns.
    + erewrite executeTask_handler_throws by done. unfold handled.
      intros He'. right. by apply Hcatch.
    + erewrite executeTask_handler_rejects by done. cbn [fst snd].
      intros [= <-]. left. exists h, v. split; [done|]. split; [done|].
      split; [done|]. unfold new_events, handled, after. cbn [trace].
      by rewrite drop_app_length.
  - rewrite executeTask_no_handler by done. unfold claimed.
    intros He'. right. by apply Hcatch.
Qed.

Lemma cycles_healthy hs c w :
  rejects_with_errors hs →
  healthy w →
  ∃ d n evs,
    cycles c (Service hs true []) w = (Ok (Service hs true []), after w d n evs).
Proof.
  intros Hhs. revert w. induction c as [|c IH]; intros w Hw.
  - exists (db w), 0%nat, []. by rewrite after_nothing.
  - cbn [cycles]. cbv [mbind M_bind].
    destruct (cycle_healthy hs w Hw) as (res & d1 & n1 & evs1 & -> & Hres & _).
    rewrite (proj2 Hres)
      by (intros t _; by apply rejects_with_errors_nullish).
    destruct (IH (after w d1 n1 evs1)) as (d2 & n2 & evs2 & ->);
      [by apply healthy_after|].
    rewrite after_after. by do 3 eexists.
Qed.

(** X25: while the store accepts the statements and no handler rejects
    with [null] or [undefined], the service keeps going: any number of
    polls, each followed by its jobs, fulfils with an empty queue,
    whether the handlers return or throw an [Error] and whether or not a
    handler is registered for a task; the table keeps its rows, in their
    places, each the same task with a retry count that is not smaller. *)
Theorem cycles_never_reject hs c w :
  rejects_with_errors hs →
  healthy w →
  (cycles c (Service hs true []) w).1 = Ok (Service hs true []) ∧
  only_rows (λ _, True) (db w) (db (cycles c (Service hs true []) w).2).
Proof.
  intros Hhs Hw. split.
  { by destruct (cycles_healthy hs c w Hhs Hw) as (d & n & evs & ->). }
  revert w Hw. induction c as [|c IH]; intros w Hw.
  - apply only_rows_refl.
  - cbn [cycles]. cbv [mbind M_bind].
    pose proof (cycle_only_rows hs true w) as Hc.
    destruct (cycle_healthy hs w Hw) as (res & d1 & n1 & evs1 & Hcycle & Hres & _).
    rewrite (proj2 Hres) in Hcycle
      by (intros t _; by apply rejects_with_errors_nullish).
    rewrite Hcycle in Hc |- *. cbn [snd db after] in Hc.
    eapply only_rows_trans.
    + eapply only_rows_mono; [|exact Hc]. done.
    + apply (IH (after w d1 n1 evs1)). by apply healthy_after.
Qed.

End rejections.

(** The UPDATE of [incrementRetryCount] is statement 1 of the
    execution. *)
Lemma executeTask_rejection_witness :
  last (new_events (world_of [report_task] (busy_at 1))
          (executeTask ∅ report_task (world_of [report_task] (busy_at 1))).2)
  = Some (Db (call_incrementRetryCount 1
                (Some "No handler registered for task type: report"))).
Proof.
  destruct (executeTask_rejects_only_from_its_catch_block ∅ report_task
              (world_of [report_task] (busy_at 1))
              "SQLITE_BUSY: database is locked")
    as [(h & _ & Hh & _)|(e0 & c & _ & Hlast & _)].
  - vm_compute. reflexivity.
  - vm_compute in Hh. discriminate Hh.
  - vm_compute. reflexivity.
Defined.

(** Five polls with no handler registered. *)
Lemma cycles_witness :
  (cycles 5 (Service ∅ true []) (world_of [routine; urgent; later] (steady 10))).1
  = Ok (Service ∅ true []).
Proof.
  apply (cycles_never_reject ∅ 5 (world_of [routine; urgent; later] (steady 10))).
  - apply rejects_with_errors_empty.
  - intros n. reflexivity.
Defined.

(** ** What a job knows of its task *)

Lemma snapshot_of_refl t : snapshot_of t t.
Proof. unfold snapshot_of, same_task. split; [done|lia]. Qed.

Lemma snapshot_of_step t r r' :
  snapshot_of t r → same_task r r' → retry_count r ≤ retry_count r' →
  snapshot_of t r'.
Proof.
  intros [Hsame Hc] Hsame' Hc'. unfold snapshot_of, same_task in *.
  split; [|lia].
  destruct Hsame as (? & ? & ? & ? & ? & ?), Hsame' as (? & ? & ? & ? & ? & ?).
  repeat split; congruence.
Qed.

Lemma jobs_are_snapshots_update s k set q rn :
  jobs_are_snapshots s → keeps_task set →
  (∀ t, t ∈ q ++ (job <$> rn) → t ∈ waiting s ++ (job <$> running s)) →
  jobs_are_snapshots (System (update_where k set (store s)) q rn).
Proof.
  intros Hs Hset Hsub t Ht. destruct (Hs t (Hsub t Ht)) as (r & Hr & Hsnap).
  exists (if bool_decide (id r = k) then set r else r).
  split; [apply elem_of_update_where; eauto|].
  case_bool_decide; [|done].
  destruct (Hset r) as [? ?]. by eapply snapshot_of_step.
Qed.

Lemma select_by_id_unique d r :
  NoDup (id <$> rows d) → r ∈ rows d → sql_select_by_id (id r) d = Some r.
Proof.
  intros Hnd Hr. destruct (select_by_id_row d r Hr) as [r0 Hr0].
  rewrite Hr0. f_equal.
  destruct (select_by_id_Some _ _ _ Hr0) as [Hin Hid].
  by apply (unique_row d).
Qed.

Section snapshots.
Context `{Runtime}.

Lemma jobs_are_snapshots_act hs a s s' :
  jobs_are_snapshots s → act hs a s = Some s' → jobs_are_snapshots s'.
Proof.
  intros Hs. destruct a as [now n p pl m| |now|i now]; simpl.
  - intros [= <-] t Ht. destruct (Hs t Ht) as (r & Hr & Hsnap).
    exists r. split; [|done]. simpl. apply elem_of_app. by left.
  - intros [= <-] t. cbn [store waiting running].
    rewrite <- (assoc_L (++)), elem_of_app, (elem_of_app _ (job <$> _)).
    intros [Ht|[Ht|Ht]].
    + apply Hs, elem_of_app. by left.
    + apply select_pending_rows in Ht as [Ht _]. exists t.
      split; [done|apply snapshot_of_refl].
    + apply Hs, elem_of_app. by right.
  - destruct (waiting s) as [|t q] eqn:Hw; [done|]. intros [= <-].
    apply jobs_are_snapshots_update; [done|apply keeps_task_started|].
    intros t'. rewrite Hw, fmap_app, !elem_of_app, elem_of_cons. simpl.
    rewrite list_elem_of_singleton. tauto.
  - destruct (running s !! i) as [x|] eqn:Hi; [|done].
    pose proof (running_jobs (running s) i x (advance hs now x (store s)).2
                  (waiting s)) as Hjobs.
    specialize (λ t, Hjobs t Hi (advance_job hs now x (store s))).
    destruct (advance_table hs now x (store s)) as [Hd|(set & Hset & Hd)];
      destruct (advance hs now x (store s)) as [d x']; simpl in *; subst d;
      intros [= <-].
    + intros t Ht. by apply Hs, Hjobs.
    + by apply jobs_are_snapshots_update.
Qed.

Lemma jobs_are_snapshots_run hs acts s s' :
  jobs_are_snapshots s → run hs acts s = Some s' → jobs_are_snapshots s'.
Proof.
  revert s. induction acts as [|a acts IH]; intros s Hs; simpl.
  - by intros [= <-].
  - destruct (act hs a s) as [s1|] eqn:Hact; [|done].
    apply IH. by eapply jobs_are_snapshots_act.
Qed.

(** X26: what the record of a job is worth.  In every state the
    service reaches while the store accepts its statements, ids are
    unique in the table and every job, queued or in flight, is for a task
    that is in the table; the record the job carries (and hands to the
    handler) has the id, name, priority, payload, retry limit and
    creation time of the row as it is now.  Its retry count is not larger
    than the row's; it may be smaller. *)
Theorem job_is_a_snapshot_of_its_row hs s t :
  reachable hs s →
  t ∈ waiting s ++ (job <$> running s) →
  NoDup (id <$> rows (store s)) ∧
  ∃ r, sql_select_by_id (id t) (store s) = Some r ∧
       id r = id t ∧ name r = name t ∧ priority r = priority t ∧
       payload r = payload t ∧ max_retries r = max_retries t ∧
       created_at r = created_at t ∧ retry_count t ≤ retry_count r.
Proof.
  intros Hreach Ht.
  pose proof (reachable_consistent hs s Hreach) as Hc.
  destruct Hreach as [acts Hrun].
  assert (jobs_are_snapshots s) as Hs.
  { eapply jobs_are_snapshots_run; [|done]. by intros t' Ht'%elem_of_nil. }
  split; [apply Hc|].
  destruct (Hs t Ht) as (r & Hr & (Hid & ? & ? & ? & ? & ?) & ?).
  exists r. rewrite <- Hid.
  split; [apply select_by_id_unique; [apply Hc|done]|done].
Qed.

End snapshots.

(** The job of [claimed_state]: its execution stands before the
    handler. *)
Lemma job_snapshot_witness :
  ∃ r, sql_select_by_id 1 (store claimed_state) = Some r ∧ name r = "report".
Proof.
  destruct (job_is_a_snapshot_of_its_row ∅ claimed_state
              (Task 1 "report" 5 pending (Some "7") 3 0 None 0 0 None None))
    as (_ & r & Hr & _ & Hn & _).
  - exists claimed_once. vm_compute. reflexivity.
  - apply list_elem_of_singleton. reflexivity.
  - exists r. split; [exact Hr|exact Hn].
Defined.
